(** * js-lru: an LRU cache with entry lifetime

    A shallow embedding of [lru-es6.js] (class [LRUCache]; the prototype
    version of the same class in [part_000] differs only in using [==] for
    [===]), of [lru.js] (constructor function [LRUMap]) and of the
    [LRUMap] of [part_000].

    Modelling choices.
    - Entry objects live in an object store [heap : list Entry]; a reference
      to an entry is its index in the store (a [handle]), [undefined] is
      [None].  [new Entry(..)] appends to the store, property writes update
      the store in place, so aliasing between the key map and the chain is
      the store's.
    - JS numbers that hold counts and milliseconds are [Z]; the age in
      minutes is an exact rational.  [Number.MAX_VALUE - 1] is
      [Number.MAX_VALUE] in double arithmetic, which [post_dec] keeps; every
      other count is taken to stay where double arithmetic is exact.
    - [new Date().getTime()] is the argument [now] of the operations that
      read the clock; one call reads one clock value.
    - A method is a function [LRUCache -> outcome A * LRUCache]: the state
      after a [throw] is the state the caller observes when it catches. *)

From Stdlib Require Import ZArith QArith Lia.
From stdpp Require Import gmap strings list fin_maps.

Local Open Scope Z_scope.

(** ** Outcomes of a call *)

Inductive Error : Type := overflow | notFound | TypeError | RangeError.

Inductive outcome (A : Type) : Type :=
| Return (a : A)
| Throw (e : Error).
Arguments Return {A} a.
Arguments Throw {A} e.

Abbreviation handle := nat.

(** [Number.MAX_VALUE] and the post-decrement [limit--] on a double that
    holds an integer. *)
Definition MAX_VALUE : Z := 2 ^ 1024 - 2 ^ 971.

Definition post_dec (x : Z) : Z := if decide (x = MAX_VALUE) then x else x - 1.

(** [(now - created) / 60000 > lifetime] *)
Definition ageInMinutes (now created : Z) : Q := Qmake (now - created) 60000.

Definition age_exceeds (now created lifetime : Z) : bool :=
  negb (Qle_bool (ageInMinutes now created) (inject_Z lifetime)).

(** ** Methods as state transformers *)

Definition M (S A : Type) : Type := S -> outcome A * S.

Definition ret {S A} (a : A) : M S A := fun c => (Return a, c).
Definition throw {S A} (e : Error) : M S A := fun c => (Throw e, c).
Definition bind {S A B} (m : M S A) (f : A -> M S B) : M S B :=
  fun c => match m c with
           | (Return a, c') => f a c'
           | (Throw e, c') => (Throw e, c')
           end.
Definition gets {S A} (f : S -> A) : M S A := fun c => (Return (f c), c).
Definition modify {S} (f : S -> S) : M S unit := fun c => (Return tt, f c).

Notation "x <- m ;; k" := (bind m (fun x => k))
  (at level 100, m at next level, right associativity).
Notation "m ;;; k" := (bind m (fun _ => k))
  (at level 100, right associativity).

Section LRUCache.
Context {K : Type} `{Countable K} {V : Type}.

(** ** Data *)

Record Entry : Type := mkEntry {
  key : K;
  value : V;
  created_at : Z;
  PREVIOUS : option handle;   (* towards the newer end *)
  NEXT : option handle        (* towards the older end *)
}.

Record LRUCache : Type := mkCache {
  lifetime : Z;
  size : Z;
  limit : Z;
  tail : option handle;            (* oldest entry *)
  head : option handle;            (* newest entry *)
  _keymap : gmap K handle;
  this_created_at : option Z;      (* this[CREATED_AT], see _markEntryAsUsed *)
  heap : list Entry                (* the Entry objects *)
}.

Definition with_size (z : Z) (c : LRUCache) : LRUCache :=
  mkCache (lifetime c) z (limit c) (tail c) (head c) (_keymap c) (this_created_at c) (heap c).
Definition with_limit (z : Z) (c : LRUCache) : LRUCache :=
  mkCache (lifetime c) (size c) z (tail c) (head c) (_keymap c) (this_created_at c) (heap c).
Definition with_tail (r : option handle) (c : LRUCache) : LRUCache :=
  mkCache (lifetime c) (size c) (limit c) r (head c) (_keymap c) (this_created_at c) (heap c).
Definition with_head (r : option handle) (c : LRUCache) : LRUCache :=
  mkCache (lifetime c) (size c) (limit c) (tail c) r (_keymap c) (this_created_at c) (heap c).
Definition with_keymap (m : gmap K handle) (c : LRUCache) : LRUCache :=
  mkCache (lifetime c) (size c) (limit c) (tail c) (head c) m (this_created_at c) (heap c).
Definition with_this_created_at (t : option Z) (c : LRUCache) : LRUCache :=
  mkCache (lifetime c) (size c) (limit c) (tail c) (head c) (_keymap c) t (heap c).
Definition with_heap (hp : list Entry) (c : LRUCache) : LRUCache :=
  mkCache (lifetime c) (size c) (limit c) (tail c) (head c) (_keymap c) (this_created_at c) hp.

Definition with_PREVIOUS (r : option handle) (e : Entry) : Entry :=
  mkEntry (key e) (value e) (created_at e) r (NEXT e).
Definition with_NEXT (r : option handle) (e : Entry) : Entry :=
  mkEntry (key e) (value e) (created_at e) (PREVIOUS e) r.
Definition with_value (v : V) (e : Entry) : Entry :=
  mkEntry (key e) v (created_at e) (PREVIOUS e) (NEXT e).

(** ** Primitive steps on the store *)

Local Abbreviation M := (M LRUCache).

(** Reading a property of the object [r]; on [undefined] it is a TypeError.
    A handle always comes from an allocation, so the store has it; the
    model answers TypeError for a handle outside the store as well. *)
Definition deref (r : option handle) : M Entry :=
  fun c => match r with
           | None => (Throw TypeError, c)
           | Some h => match heap c !! h with
                       | Some e => (Return e, c)
                       | None => (Throw TypeError, c)
                       end
           end.

(** Writing a property of the object [r]. *)
Definition update (r : option handle) (f : Entry -> Entry) : M unit :=
  e <- deref r ;;
  match r with
  | Some h => modify (fun c => with_heap (<[h := f e]> (heap c)) c)
  | None => throw TypeError
  end.

Definition get_PREVIOUS (r : option handle) : M (option handle) :=
  e <- deref r ;; ret (PREVIOUS e).
Definition get_NEXT (r : option handle) : M (option handle) :=
  e <- deref r ;; ret (NEXT e).
Definition set_PREVIOUS (r v : option handle) : M unit := update r (with_PREVIOUS v).
Definition set_NEXT (r v : option handle) : M unit := update r (with_NEXT v).
Definition set_value (r : option handle) (v : V) : M unit := update r (with_value v).

(** [new Entry(key, value)] *)
Definition new_Entry (now : Z) (k : K) (v : V) : M (option handle) :=
  fun c => (Return (Some (length (heap c))),
            with_heap (heap c ++ [mkEntry k v now None None]) c).

Definition keymap_set (k : K) (r : option handle) : M unit :=
  match r with
  | Some h => modify (fun c => with_keymap (<[k := h]> (_keymap c)) c)
  | None => throw TypeError
  end.
Definition keymap_delete (k : K) : M unit :=
  modify (fun c => with_keymap (delete k (_keymap c)) c).
Definition keymap_get (k : K) : M (option handle) := gets (fun c => _keymap c !! k).

(** *** assign *)

Fixpoint assign_loop (now : Z) (entries : list (K * V))
    (lastAddedEntry : option handle) (lim : Z) : M (option handle) :=
  match entries with
  | [] => ret lastAddedEntry
  | itv :: rest =>
      newEntry <- new_Entry now (fst itv) (snd itv) ;;
      keymap_set (fst itv) newEntry ;;;
      match lastAddedEntry with
      | None => modify (with_tail newEntry)
      | Some _ => set_PREVIOUS lastAddedEntry newEntry ;;;
                  set_NEXT newEntry lastAddedEntry
      end ;;;
      if decide (lim = 0) then throw overflow
      else assign_loop now rest newEntry (post_dec lim)
  end.

Definition assign (now : Z) (entries : list (K * V)) : M unit :=
  lim <- gets (fun c => if decide (limit c = 0) then MAX_VALUE else limit c) ;;
  modify (with_keymap ∅) ;;;
  lastAddedEntry <- assign_loop now entries None lim ;;
  modify (with_head lastAddedEntry) ;;;
  modify (fun c => with_size (Z.of_nat (base.size (_keymap c))) c).

(** *** delete *)

Definition delete_ (k : K) : M (option V) :=
  entry <- keymap_get k ;;
  match entry with
  | None => ret None
  | Some _ =>
      e <- deref entry ;;
      keymap_delete (key e) ;;;
      p <- get_PREVIOUS entry ;;
      n <- get_NEXT entry ;;
      match p, n with
      | Some _, Some _ =>
          set_PREVIOUS n p ;;;
          p' <- get_PREVIOUS entry ;;
          n' <- get_NEXT entry ;;
          set_NEXT p' n'
      | Some _, None =>
          set_NEXT p None ;;;
          modify (with_tail p)
      | None, Some _ =>
          set_PREVIOUS n None ;;;
          modify (with_head n)
      | None, None =>
          modify (with_head None) ;;;
          modify (with_tail None)
      end ;;;
      modify (fun c => with_size (size c - 1) c) ;;;
      e' <- deref entry ;;
      ret (Some (value e'))
  end.

(** *** has *)

Definition has (now : Z) (k : K) : M bool :=
  entry <- keymap_get k ;;
  match entry with
  | Some _ =>
      lt <- gets lifetime ;;
      if decide (lt = 0) then ret true
      else
        e <- deref entry ;;
        if age_exceeds now (created_at e) lt
        then delete_ k ;;; ret false
        else ret true
  | None => ret false
  end.

(** *** _markEntryAsUsed *)

Definition _markEntryAsUsed (now : Z) (entry : option handle) (renewAge : bool) : M unit :=
  hd <- gets head ;;
  if decide (entry = hd) then ret tt
  else
    p <- get_PREVIOUS entry ;;
    n <- get_NEXT entry ;;
    set_NEXT p n ;;;
    tl <- gets tail ;;
    (if decide (entry = tl) then ret tt
     else n' <- get_NEXT entry ;;
          p' <- get_PREVIOUS entry ;;
          set_PREVIOUS n' p') ;;;
    tl' <- gets tail ;;
    (if decide (entry = tl')
     then p' <- get_PREVIOUS entry ;; modify (with_tail p')
     else ret tt) ;;;
    set_PREVIOUS entry None ;;;
    hd' <- gets head ;;
    set_PREVIOUS hd' entry ;;;
    hd'' <- gets head ;;
    set_NEXT entry hd'' ;;;
    modify (with_head entry) ;;;
    if renewAge then modify (with_this_created_at (Some now)) else ret tt.

(** *** get *)

Definition get (now : Z) (k : K) : M V :=
  b <- has now k ;;
  if negb b then throw notFound
  else
    entry <- keymap_get k ;;
    _markEntryAsUsed now entry false ;;;
    e <- deref entry ;;
    ret (value e).

(** *** removeLRUItem *)

Definition _purgeRemovedEntry (entry : option handle) : M unit :=
  set_NEXT entry None ;;;
  set_PREVIOUS entry None ;;;
  e <- deref entry ;;
  keymap_delete (key e).

Definition removeLRUItem : M (option (K * V)) :=
  sz <- gets size ;;
  if decide (sz = 0) then ret None
  else
    entry <- gets tail ;;
    (if decide (sz = 1)
     then modify (with_tail None) ;;; modify (with_head None)
     else tl <- gets tail ;;
          p <- get_PREVIOUS tl ;;
          modify (with_tail p) ;;;
          tl' <- gets tail ;;
          set_NEXT tl' None) ;;;
    modify (fun c => with_size (size c - 1) c) ;;;
    _purgeRemovedEntry entry ;;;
    e <- deref entry ;;
    ret (Some (key e, value e)).

(** *** set *)

Definition set (now : Z) (k : K) (v : V) : M unit :=
  found <- keymap_get k ;;
  match found with
  | Some _ =>
      set_value found v ;;;
      _markEntryAsUsed now found true
  | None =>
      entry <- new_Entry now k v ;;
      keymap_set k entry ;;;
      sz <- gets size ;;
      (if decide (0 < sz)
       then hd <- gets head ;;
            set_PREVIOUS hd entry ;;;
            hd' <- gets head ;;
            set_NEXT entry hd'
       else modify (with_tail entry)) ;;;
      modify (with_head entry) ;;;
      modify (fun c => with_size (size c + 1) c) ;;;
      sz' <- gets size ;;
      lim <- gets limit ;;
      if decide (lim < sz') then removeLRUItem ;;; ret tt else ret tt
  end.

(** *** clear, find *)

Definition clear : M unit :=
  modify (with_head None) ;;;
  modify (with_tail None) ;;;
  modify (with_size 0) ;;;
  modify (with_keymap ∅).

Definition find (k : K) : M (option V) :=
  e <- keymap_get k ;;
  match e with
  | Some _ => e' <- deref e ;; ret (Some (value e'))
  | None => ret None
  end.

(** *** constructor

    [limit = None] is the call form [(lifetime, entries)], where the second
    argument is not a number. *)

Definition constructor (now : Z) (lifetime_ : Z) (limit_ : option Z)
    (entries : option (list (K * V))) : outcome unit * LRUCache :=
  let lim := default 0 limit_ in
  let this := mkCache lifetime_ 0 lim None None ∅ None [] in
  match entries with
  | Some es =>
      (assign now es ;;;
       if decide (lim < 1) then modify (fun c => with_limit (size c) c) else ret tt) this
  | None => (Return tt, this)
  end.

(** *** Traversals: iterators, forEach, toJSON

    Every traversal is the loop
    [entry = this.tail; while (entry) { ...; entry = entry[PREVIOUS] }].
    [chain_from fuel hp entry] runs it for at most [fuel] entries and
    answers [None] when the fuel runs out.  A chain that visits more
    entries than the store holds visits one of them twice, and then the
    JavaScript loop does not terminate: the traversals below run with
    [S (length (heap c))] as fuel. *)

Fixpoint chain_from (fuel : nat) (hp : list Entry) (entry : option handle)
    : option (list Entry) :=
  match entry with
  | None => Some []
  | Some h =>
      match fuel with
      | O => None
      | S fuel' =>
          match hp !! h with
          | Some e =>
              match chain_from fuel' hp (PREVIOUS e) with
              | Some es => Some (e :: es)
              | None => None
              end
          | None => None
          end
      end
  end.

Definition chain (c : LRUCache) : option (list Entry) :=
  chain_from (S (length (heap c))) (heap c) (tail c).

(** [keys()], [values()] and the default iterator, run to the end. *)
Definition keys (c : LRUCache) : option (list K) :=
  match chain c with Some es => Some (key <$> es) | None => None end.
Definition values (c : LRUCache) : option (list V) :=
  match chain c with Some es => Some (value <$> es) | None => None end.
Definition entries (c : LRUCache) : option (list (K * V)) :=
  match chain c with Some es => Some ((fun e => (key e, value e)) <$> es) | None => None end.

(** One element of the array [toJSON] returns.  [created_at] is the entry's
    time stamp before [toLocaleString] renders it. *)
Record JSONRecord : Type := mkJSON {
  json_key : K;
  json_value : V;
  json_created_at : option Z
}.

Definition json_of (withDate : bool) (e : Entry) : JSONRecord :=
  mkJSON (key e) (value e) (if withDate then Some (created_at e) else None).

(** [new Array(this.size)] throws a RangeError for a negative length and
    leaves the slots that the loop does not reach empty ([None]). *)
Definition toJSON (withDate : bool) (c : LRUCache)
    : option (outcome (list (option JSONRecord))) :=
  if decide (size c < 0) then Some (Throw RangeError)
  else
    match chain c with
    | Some es =>
        Some (Return ((Some ∘ json_of withDate <$> es)
                      ++ replicate (Z.to_nat (size c) - length es)%nat None))
    | None => None
    end.


(** *** The iterator objects

    [keys()], [values()] and the default iterator return an object whose
    field [entry] is the entry to yield next.  [next] reads that entry off
    the store of the cache as it is when [next] is called, and moves the
    field on to the entry's [PREVIOUS].  The three [next] functions differ
    in the value they yield only. *)

Record Iterator : Type := mkIterator { it_entry : option handle }.

Definition keys_iterator (c : LRUCache) : Iterator := mkIterator (tail c).
Definition values_iterator (c : LRUCache) : Iterator := mkIterator (tail c).
Definition entries_iterator (c : LRUCache) : Iterator := mkIterator (tail c).

(** [None] is the result [{ done: true, value: undefined }]. *)
Definition iterator_next {A} (yield : Entry -> A) (c : LRUCache)
    : Iterator -> outcome (option A) * Iterator :=
  fun it =>
    match it_entry it with
    | Some h =>
        match heap c !! h with
        | Some ent => (Return (Some (yield ent)), mkIterator (PREVIOUS ent))
        | None => (Throw TypeError, it)
        end
    | None => (Return None, it)
    end.

Definition EntryIterator_next (c : LRUCache) := iterator_next (fun ent => (key ent, value ent)) c.
Definition KeyIterator_next (c : LRUCache) := iterator_next key c.
Definition ValueIterator_next (c : LRUCache) := iterator_next value c.

(** [for (const x of it)] with a body that leaves the cache alone: the
    values that at most [fuel] calls of [next] yield before one reports
    [done], and the iterator after that call. *)
Fixpoint for_of {A} (next : Iterator -> outcome (option A) * Iterator)
    (fuel : nat) (it : Iterator) : option (list A * Iterator) :=
  match fuel with
  | O => None
  | S fuel' =>
      match next it with
      | (Return (Some a), it') =>
          match for_of next fuel' it' with
          | Some (xs, it'') => Some (a :: xs, it'')
          | None => None
          end
      | (Return None, it') => Some ([], it')
      | (Throw _, _) => None
      end
  end.

(** *** forEach

    The callback gets the value, the key and the cache, and may call the
    methods of the cache; [A] is whatever else it reads and writes.  The
    loop reads [entry[PREVIOUS]] after the callback has returned.  It runs
    for at most [fuel] entries and answers [None] if it has not ended by
    then. *)
Fixpoint forEach_loop {A} (fuel : nat) (fun_ : V -> K -> A -> M A)
    (entry : option handle) (a : A) (c : LRUCache) : option (outcome A * LRUCache) :=
  match entry with
  | None => Some (Return a, c)
  | Some _ =>
      match fuel with
      | O => None
      | S fuel' =>
          match (e <- deref entry ;;
                 a' <- fun_ (value e) (key e) a ;;
                 p <- get_PREVIOUS entry ;;
                 ret (a', p)) c with
          | (Return (a', p), c') => forEach_loop fuel' fun_ p a' c'
          | (Throw err, c') => Some (Throw err, c')
          end
      end
  end.

Definition forEach {A} (fuel : nat) (fun_ : V -> K -> A -> M A) (a : A) (c : LRUCache)
    : option (outcome A * LRUCache) :=
  forEach_loop fuel fun_ (tail c) a c.

(** *** toString

    [String_key] is [String(entry.key)], [String_value] the conversion that
    [+] applies to [entry.value], [toLocaleString] the rendering of a time
    stamp as a date. *)
Section ToString.
Variables (String_key : K -> string) (String_value : V -> string)
  (toLocaleString : Z -> string).

Definition entryString (withDate : bool) (e : Entry) : string :=
  let s := (String_key (key e) +:+ ":" +:+ String_value (value e))%string in
  if withDate then (s +:+ " (" +:+ toLocaleString (created_at e) +:+ ")")%string else s.

Fixpoint toString_loop (fuel : nat) (withDate : bool) (hp : list Entry)
    (entry : option handle) (output : string) : option string :=
  match entry with
  | None => Some output
  | Some h =>
      match fuel with
      | O => None
      | S fuel' =>
          match hp !! h with
          | Some e =>
              let output := (output +:+ entryString withDate e)%string in
              let entry := PREVIOUS e in
              let output := match entry with
                            | Some _ => (output +:+ " < ")%string
                            | None => output
                            end in
              toString_loop fuel' withDate hp entry output
          | None => None
          end
      end
  end.

Definition toString (withDate : bool) (c : LRUCache) : option string :=
  toString_loop (S (length (heap c))) withDate (heap c) (tail c) "".

End ToString.

End LRUCache.

(** ** [lru.js]: the constructor function [LRUMap]

    The variant without lifetime.  Its ends are [tail] (oldest) and
    [newest]; [removeLRUItem] also writes a property [head]. *)

Module LRUMap.
Section LRUMap.
Context {K : Type} `{Countable K} {V : Type}.

Record Entry : Type := mkEntry {
  key : K;
  value : V;
  PREVIOUS : option handle;
  NEXT : option handle
}.

Record LRUMap : Type := mkMap {
  size : Z;
  limit : Z;
  tail : option handle;
  newest : option handle;
  head : option handle;            (* written by removeLRUItem only *)
  _keymap : gmap K handle;
  heap : list Entry
}.

Definition with_size (z : Z) (c : LRUMap) : LRUMap :=
  mkMap z (limit c) (tail c) (newest c) (head c) (_keymap c) (heap c).
Definition with_limit (z : Z) (c : LRUMap) : LRUMap :=
  mkMap (size c) z (tail c) (newest c) (head c) (_keymap c) (heap c).
Definition with_tail (r : option handle) (c : LRUMap) : LRUMap :=
  mkMap (size c) (limit c) r (newest c) (head c) (_keymap c) (heap c).
Definition with_newest (r : option handle) (c : LRUMap) : LRUMap :=
  mkMap (size c) (limit c) (tail c) r (head c) (_keymap c) (heap c).
Definition with_head (r : option handle) (c : LRUMap) : LRUMap :=
  mkMap (size c) (limit c) (tail c) (newest c) r (_keymap c) (heap c).
Definition with_keymap (m : gmap K handle) (c : LRUMap) : LRUMap :=
  mkMap (size c) (limit c) (tail c) (newest c) (head c) m (heap c).
Definition with_heap (hp : list Entry) (c : LRUMap) : LRUMap :=
  mkMap (size c) (limit c) (tail c) (newest c) (head c) (_keymap c) hp.

Definition with_PREVIOUS (r : option handle) (e : Entry) : Entry :=
  mkEntry (key e) (value e) r (NEXT e).
Definition with_NEXT (r : option handle) (e : Entry) : Entry :=
  mkEntry (key e) (value e) (PREVIOUS e) r.
Definition with_value (v : V) (e : Entry) : Entry :=
  mkEntry (key e) v (PREVIOUS e) (NEXT e).

Local Abbreviation M := (M LRUMap).

Definition deref (r : option handle) : M Entry :=
  fun c => match r with
           | None => (Throw TypeError, c)
           | Some h => match heap c !! h with
                       | Some e => (Return e, c)
                       | None => (Throw TypeError, c)
                       end
           end.

Definition update (r : option handle) (f : Entry -> Entry) : M unit :=
  e <- deref r ;;
  match r with
  | Some h => modify (fun c => with_heap (<[h := f e]> (heap c)) c)
  | None => throw TypeError
  end.

Definition get_PREVIOUS (r : option handle) : M (option handle) :=
  e <- deref r ;; ret (PREVIOUS e).
Definition get_NEXT (r : option handle) : M (option handle) :=
  e <- deref r ;; ret (NEXT e).
Definition set_PREVIOUS (r v : option handle) : M unit := update r (with_PREVIOUS v).
Definition set_NEXT (r v : option handle) : M unit := update r (with_NEXT v).
Definition set_value (r : option handle) (v : V) : M unit := update r (with_value v).

Definition new_Entry (k : K) (v : V) : M (option handle) :=
  fun c => (Return (Some (length (heap c))),
            with_heap (heap c ++ [mkEntry k v None None]) c).

Definition keymap_set (k : K) (r : option handle) : M unit :=
  match r with
  | Some h => modify (fun c => with_keymap (<[k := h]> (_keymap c)) c)
  | None => throw TypeError
  end.
Definition keymap_delete (k : K) : M unit :=
  modify (fun c => with_keymap (delete k (_keymap c)) c).
Definition keymap_get (k : K) : M (option handle) := gets (fun c => _keymap c !! k).

Definition _markEntryAsUsed (entry : option handle) : M unit :=
  nw <- gets newest ;;
  if decide (entry = nw) then ret tt
  else
    p <- get_PREVIOUS entry ;;
    match p with
    | Some _ =>
        tl <- gets tail ;;
        (if decide (entry = tl)
         then p' <- get_PREVIOUS entry ;; modify (with_tail p')
         else ret tt) ;;;
        p' <- get_PREVIOUS entry ;;
        n' <- get_NEXT entry ;;
        set_NEXT p' n'
    | None => ret tt
    end ;;;
    n <- get_NEXT entry ;;
    match n with
    | Some _ => p' <- get_PREVIOUS entry ;; set_PREVIOUS n p'
    | None => ret tt
    end ;;;
    set_PREVIOUS entry None ;;;
    nw' <- gets newest ;;
    set_NEXT entry nw' ;;;
    nw'' <- gets newest ;;
    match nw'' with
    | Some _ => set_PREVIOUS nw'' entry
    | None => ret tt
    end ;;;
    modify (with_newest entry).

Fixpoint assign_loop (entries : list (K * V)) (entry : option handle) (lim : Z)
    : M (option handle) :=
  match entries with
  | [] => ret entry
  | itv :: rest =>
      e <- new_Entry (fst itv) (snd itv) ;;
      keymap_set (fst itv) e ;;;
      match entry with
      | None => modify (with_tail e)
      | Some _ => set_PREVIOUS entry e ;;; set_NEXT e entry
      end ;;;
      if decide (lim = 0) then throw overflow
      else assign_loop rest e (post_dec lim)
  end.

Definition assign (entries : list (K * V)) : M unit :=
  lim <- gets (fun c => if decide (limit c = 0) then MAX_VALUE else limit c) ;;
  modify (with_keymap ∅) ;;;
  entry <- assign_loop entries None lim ;;
  modify (with_newest entry) ;;;
  modify (fun c => with_size (Z.of_nat (base.size (_keymap c))) c).

Definition get (k : K) : M (option V) :=
  entry <- keymap_get k ;;
  match entry with
  | None => ret None
  | Some _ =>
      _markEntryAsUsed entry ;;;
      e <- deref entry ;;
      ret (Some (value e))
  end.

Definition purgeRemovedEntry (entry : option handle) : M unit :=
  set_NEXT entry None ;;;
  set_PREVIOUS entry None ;;;
  e <- deref entry ;;
  keymap_delete (key e).

Definition removeLRUItem : M (option (K * V)) :=
  sz <- gets size ;;
  if decide (sz = 0) then ret None
  else
    entry <- gets tail ;;
    (if decide (sz = 1)
     then modify (with_tail None) ;;; modify (with_head None)
     else tl <- gets tail ;;
          p <- get_PREVIOUS tl ;;
          modify (with_tail p) ;;;
          tl' <- gets tail ;;
          set_NEXT tl' None) ;;;
    modify (fun c => with_size (size c - 1) c) ;;;
    purgeRemovedEntry entry ;;;
    e <- deref entry ;;
    ret (Some (key e, value e)).

Definition set (k : K) (v : V) : M unit :=
  found <- keymap_get k ;;
  match found with
  | Some _ =>
      set_value found v ;;;
      _markEntryAsUsed found
  | None =>
      entry <- new_Entry k v ;;
      keymap_set k entry ;;;
      nw <- gets newest ;;
      match nw with
      | Some _ => set_PREVIOUS nw entry ;;;
                  nw' <- gets newest ;;
                  set_NEXT entry nw'
      | None => modify (with_tail entry)
      end ;;;
      modify (with_newest entry) ;;;
      modify (fun c => with_size (size c + 1) c) ;;;
      sz' <- gets size ;;
      lim <- gets limit ;;
      if decide (lim < sz') then removeLRUItem ;;; ret tt else ret tt
  end.

Definition find (k : K) : M (option V) :=
  e <- keymap_get k ;;
  match e with
  | Some _ => e' <- deref e ;; ret (Some (value e'))
  | None => ret None
  end.

Definition has (k : K) : M bool :=
  e <- keymap_get k ;; ret (bool_decide (is_Some e)).

Definition constructor (limit_ : option Z) (entries : option (list (K * V)))
    : outcome unit * LRUMap :=
  let lim := default 0 limit_ in
  let this := mkMap 0 lim None None None ∅ [] in
  match entries with
  | Some es =>
      (assign es ;;;
       if decide (lim < 1) then modify (fun c => with_limit (size c) c) else ret tt) this
  | None => (Return tt, this)
  end.

Fixpoint chain_from (fuel : nat) (hp : list Entry) (entry : option handle)
    : option (list Entry) :=
  match entry with
  | None => Some []
  | Some h =>
      match fuel with
      | O => None
      | S fuel' =>
          match hp !! h with
          | Some e =>
              match chain_from fuel' hp (PREVIOUS e) with
              | Some es => Some (e :: es)
              | None => None
              end
          | None => None
          end
      end
  end.

(** The default iterator, run to the end. *)
Definition entries (c : LRUMap) : option (list (K * V)) :=
  match chain_from (S (length (heap c))) (heap c) (tail c) with
  | Some es => Some ((fun e => (key e, value e)) <$> es)
  | None => None
  end.

(** [keys()] and [values()], run to the end. *)
Definition keys (c : LRUMap) : option (list K) :=
  match chain_from (S (length (heap c))) (heap c) (tail c) with
  | Some es => Some (key <$> es)
  | None => None
  end.

Definition values (c : LRUMap) : option (list V) :=
  match chain_from (S (length (heap c))) (heap c) (tail c) with
  | Some es => Some (value <$> es)
  | None => None
  end.

Definition delete_ (k : K) : M (option V) :=
  entry <- keymap_get k ;;
  match entry with
  | None => ret None
  | Some _ =>
      e <- deref entry ;;
      keymap_delete (key e) ;;;
      p <- get_PREVIOUS entry ;;
      n <- get_NEXT entry ;;
      match p, n with
      | Some _, Some _ =>
          set_PREVIOUS n p ;;;
          p' <- get_PREVIOUS entry ;;
          n' <- get_NEXT entry ;;
          set_NEXT p' n'
      | Some _, None =>
          set_NEXT p None ;;;
          modify (with_tail p)
      | None, Some _ =>
          set_PREVIOUS n None ;;;
          modify (with_newest n)
      | None, None =>
          modify (with_newest None) ;;;
          modify (with_tail None)
      end ;;;
      modify (fun c => with_size (size c - 1) c) ;;;
      e' <- deref entry ;;
      ret (Some (value e'))
  end.

Definition clear : M unit :=
  modify (with_newest None) ;;;
  modify (with_tail None) ;;;
  modify (with_size 0) ;;;
  modify (with_keymap ∅).

(** [toJSON]: the records [{ key, value }] as pairs; a slot the loop does
    not reach stays empty. *)
Definition toJSON (c : LRUMap) : option (outcome (list (option (K * V)))) :=
  if decide (size c < 0) then Some (Throw RangeError)
  else
    match chain_from (S (length (heap c))) (heap c) (tail c) with
    | Some es =>
        Some (Return ((Some ∘ (fun e => (key e, value e)) <$> es)
                      ++ replicate (Z.to_nat (size c) - length es)%nat None))
    | None => None
    end.

Fixpoint forEach_loop {A} (fuel : nat) (fun_ : V -> K -> A -> M A)
    (entry : option handle) (a : A) (c : LRUMap) : option (outcome A * LRUMap) :=
  match entry with
  | None => Some (Return a, c)
  | Some _ =>
      match fuel with
      | O => None
      | S fuel' =>
          match (e <- deref entry ;;
                 a' <- fun_ (value e) (key e) a ;;
                 p <- get_PREVIOUS entry ;;
                 ret (a', p)) c with
          | (Return (a', p), c') => forEach_loop fuel' fun_ p a' c'
          | (Throw err, c') => Some (Throw err, c')
          end
      end
  end.

Definition forEach {A} (fuel : nat) (fun_ : V -> K -> A -> M A) (a : A) (c : LRUMap)
    : option (outcome A * LRUMap) :=
  forEach_loop fuel fun_ (tail c) a c.

Section ToString.
Variables (String_key : K -> string) (String_value : V -> string).

Fixpoint toString_loop (fuel : nat) (hp : list Entry)
    (entry : option handle) (s : string) : option string :=
  match entry with
  | None => Some s
  | Some h =>
      match fuel with
      | O => None
      | S fuel' =>
          match hp !! h with
          | Some e =>
              let s := (s +:+ (String_key (key e) +:+ ":" +:+ String_value (value e)))%string in
              let entry := PREVIOUS e in
              let s := match entry with
                       | Some _ => (s +:+ " < ")%string
                       | None => s
                       end in
              toString_loop fuel' hp entry s
          | None => None
          end
      end
  end.

Definition toString (c : LRUMap) : option string :=
  toString_loop (S (length (heap c))) (heap c) (tail c) "".

End ToString.

End LRUMap.
End LRUMap.

(** ** [part_000]: the constructor function [LRUMap]

    The second program of [part_000]: the class without lifetime.  Its
    ends are [tail] (oldest) and [head] (newest), an entry has no time
    stamp, and [get] throws [notFound] for a key the map does not index. *)

Module part_000_LRUMap.
Section LRUMap.
Context {K : Type} `{Countable K} {V : Type}.

Record Entry : Type := mkEntry {
  key : K;
  value : V;
  PREVIOUS : option handle;
  NEXT : option handle
}.

Record LRUMap : Type := mkMap {
  size : Z;
  limit : Z;
  tail : option handle;
  head : option handle;
  _keymap : gmap K handle;
  heap : list Entry
}.

Definition with_size (z : Z) (c : LRUMap) : LRUMap :=
  mkMap z (limit c) (tail c) (head c) (_keymap c) (heap c).
Definition with_limit (z : Z) (c : LRUMap) : LRUMap :=
  mkMap (size c) z (tail c) (head c) (_keymap c) (heap c).
Definition with_tail (r : option handle) (c : LRUMap) : LRUMap :=
  mkMap (size c) (limit c) r (head c) (_keymap c) (heap c).
Definition with_head (r : option handle) (c : LRUMap) : LRUMap :=
  mkMap (size c) (limit c) (tail c) r (_keymap c) (heap c).
Definition with_keymap (m : gmap K handle) (c : LRUMap) : LRUMap :=
  mkMap (size c) (limit c) (tail c) (head c) m (heap c).
Definition with_heap (hp : list Entry) (c : LRUMap) : LRUMap :=
  mkMap (size c) (limit c) (tail c) (head c) (_keymap c) hp.

Definition with_PREVIOUS (r : option handle) (e : Entry) : Entry :=
  mkEntry (key e) (value e) r (NEXT e).
Definition with_NEXT (r : option handle) (e : Entry) : Entry :=
  mkEntry (key e) (value e) (PREVIOUS e) r.
Definition with_value (v : V) (e : Entry) : Entry :=
  mkEntry (key e) v (PREVIOUS e) (NEXT e).

Local Abbreviation M := (M LRUMap).

Definition deref (r : option handle) : M Entry :=
  fun c => match r with
           | None => (Throw TypeError, c)
           | Some h => match heap c !! h with
                       | Some e => (Return e, c)
                       | None => (Throw TypeError, c)
                       end
           end.

Definition update (r : option handle) (f : Entry -> Entry) : M unit :=
  e <- deref r ;;
  match r with
  | Some h => modify (fun c => with_heap (<[h := f e]> (heap c)) c)
  | None => throw TypeError
  end.

Definition get_PREVIOUS (r : option handle) : M (option handle) :=
  e <- deref r ;; ret (PREVIOUS e).
Definition get_NEXT (r : option handle) : M (option handle) :=
  e <- deref r ;; ret (NEXT e).
Definition set_PREVIOUS (r v : option handle) : M unit := update r (with_PREVIOUS v).
Definition set_NEXT (r v : option handle) : M unit := update r (with_NEXT v).
Definition set_value (r : option handle) (v : V) : M unit := update r (with_value v).

Definition new_Entry (k : K) (v : V) : M (option handle) :=
  fun c => (Return (Some (length (heap c))),
            with_heap (heap c ++ [mkEntry k v None None]) c).

Definition keymap_set (k : K) (r : option handle) : M unit :=
  match r with
  | Some h => modify (fun c => with_keymap (<[k := h]> (_keymap c)) c)
  | None => throw TypeError
  end.
Definition keymap_delete (k : K) : M unit :=
  modify (fun c => with_keymap (delete k (_keymap c)) c).
Definition keymap_get (k : K) : M (option handle) := gets (fun c => _keymap c !! k).
Definition keymap_has (k : K) : M bool :=
  gets (fun c => bool_decide (is_Some (_keymap c !! k))).

Definition _markEntryAsUsed (entry : option handle) : M unit :=
  hd <- gets head ;;
  if decide (entry = hd) then ret tt
  else
    p <- get_PREVIOUS entry ;;
    n <- get_NEXT entry ;;
    set_NEXT p n ;;;
    tl <- gets tail ;;
    (if decide (entry = tl) then ret tt
     else n' <- get_NEXT entry ;;
          p' <- get_PREVIOUS entry ;;
          set_PREVIOUS n' p') ;;;
    tl' <- gets tail ;;
    (if decide (entry = tl')
     then p' <- get_PREVIOUS entry ;; modify (with_tail p')
     else ret tt) ;;;
    set_PREVIOUS entry None ;;;
    hd' <- gets head ;;
    set_PREVIOUS hd' entry ;;;
    hd'' <- gets head ;;
    set_NEXT entry hd'' ;;;
    modify (with_head entry).

Fixpoint assign_loop (entries : list (K * V)) (lastAddedEntry : option handle) (lim : Z)
    : M (option handle) :=
  match entries with
  | [] => ret lastAddedEntry
  | itv :: rest =>
      newEntry <- new_Entry (fst itv) (snd itv) ;;
      keymap_set (fst itv) newEntry ;;;
      match lastAddedEntry with
      | None => modify (with_tail newEntry)
      | Some _ => set_PREVIOUS lastAddedEntry newEntry ;;;
                  set_NEXT newEntry lastAddedEntry
      end ;;;
      if decide (lim = 0) then throw overflow
      else assign_loop rest newEntry (post_dec lim)
  end.

Definition assign (entries : list (K * V)) : M unit :=
  lim <- gets (fun c => if decide (limit c = 0) then MAX_VALUE else limit c) ;;
  modify (with_keymap ∅) ;;;
  lastAddedEntry <- assign_loop entries None lim ;;
  modify (with_head lastAddedEntry) ;;;
  modify (fun c => with_size (Z.of_nat (base.size (_keymap c))) c).

Definition get (k : K) : M V :=
  b <- keymap_has k ;;
  if negb b then throw notFound
  else
    entry <- keymap_get k ;;
    _markEntryAsUsed entry ;;;
    e <- deref entry ;;
    ret (value e).

Definition purgeRemovedEntry (entry : option handle) : M unit :=
  set_NEXT entry None ;;;
  set_PREVIOUS entry None ;;;
  e <- deref entry ;;
  keymap_delete (key e).

Definition removeLRUItem : M (option (K * V)) :=
  sz <- gets size ;;
  if decide (sz = 0) then ret None
  else
    entry <- gets tail ;;
    (if decide (sz = 1)
     then modify (with_tail None) ;;; modify (with_head None)
     else tl <- gets tail ;;
          p <- get_PREVIOUS tl ;;
          modify (with_tail p) ;;;
          tl' <- gets tail ;;
          set_NEXT tl' None) ;;;
    modify (fun c => with_size (size c - 1) c) ;;;
    purgeRemovedEntry entry ;;;
    e <- deref entry ;;
    ret (Some (key e, value e)).

Definition set (k : K) (v : V) : M unit :=
  b <- keymap_has k ;;
  if b then
    entry <- keymap_get k ;;
    set_value entry v ;;;
    _markEntryAsUsed entry
  else
    entry <- new_Entry k v ;;
    keymap_set k entry ;;;
    sz <- gets size ;;
    (if decide (0 < sz)
     then hd <- gets head ;;
          set_PREVIOUS hd entry ;;;
          hd' <- gets head ;;
          set_NEXT entry hd'
     else modify (with_tail entry)) ;;;
    modify (with_head entry) ;;;
    modify (fun c => with_size (size c + 1) c) ;;;
    sz' <- gets size ;;
    lim <- gets limit ;;
    if decide (lim < sz') then removeLRUItem ;;; ret tt else ret tt.

Definition find (k : K) : M (option V) :=
  e <- keymap_get k ;;
  match e with
  | Some _ => e' <- deref e ;; ret (Some (value e'))
  | None => ret None
  end.

Definition has (k : K) : M bool := keymap_has k.

Definition delete_ (k : K) : M (option V) :=
  entry <- keymap_get k ;;
  match entry with
  | None => ret None
  | Some _ =>
      e <- deref entry ;;
      keymap_delete (key e) ;;;
      p <- get_PREVIOUS entry ;;
      n <- get_NEXT entry ;;
      match p, n with
      | Some _, Some _ =>
          set_PREVIOUS n p ;;;
          p' <- get_PREVIOUS entry ;;
          n' <- get_NEXT entry ;;
          set_NEXT p' n'
      | Some _, None =>
          set_NEXT p None ;;;
          modify (with_tail p)
      | None, Some _ =>
          set_PREVIOUS n None ;;;
          modify (with_head n)
      | None, None =>
          modify (with_head None) ;;;
          modify (with_tail None)
      end ;;;
      modify (fun c => with_size (size c - 1) c) ;;;
      e' <- deref entry ;;
      ret (Some (value e'))
  end.

Definition clear : M unit :=
  modify (with_head None) ;;;
  modify (with_tail None) ;;;
  modify (with_size 0) ;;;
  modify (with_keymap ∅).

Definition constructor (limit_ : option Z) (entries : option (list (K * V)))
    : outcome unit * LRUMap :=
  let lim := default 0 limit_ in
  let this := mkMap 0 lim None None ∅ [] in
  match entries with
  | Some es =>
      (assign es ;;;
       if decide (lim < 1) then modify (fun c => with_limit (size c) c) else ret tt) this
  | None => (Return tt, this)
  end.

Fixpoint chain_from (fuel : nat) (hp : list Entry) (entry : option handle)
    : option (list Entry) :=
  match entry with
  | None => Some []
  | Some h =>
      match fuel with
      | O => None
      | S fuel' =>
          match hp !! h with
          | Some e =>
              match chain_from fuel' hp (PREVIOUS e) with
              | Some es => Some (e :: es)
              | None => None
              end
          | None => None
          end
      end
  end.

(** The default iterator, [keys()] and [values()], run to the end. *)
Definition entries (c : LRUMap) : option (list (K * V)) :=
  match chain_from (S (length (heap c))) (heap c) (tail c) with
  | Some es => Some ((fun e => (key e, value e)) <$> es)
  | None => None
  end.

Definition keys (c : LRUMap) : option (list K) :=
  match chain_from (S (length (heap c))) (heap c) (tail c) with
  | Some es => Some (key <$> es)
  | None => None
  end.

Definition values (c : LRUMap) : option (list V) :=
  match chain_from (S (length (heap c))) (heap c) (tail c) with
  | Some es => Some (value <$> es)
  | None => None
  end.

Definition toJSON (c : LRUMap) : option (outcome (list (option (K * V)))) :=
  if decide (size c < 0) then Some (Throw RangeError)
  else
    match chain_from (S (length (heap c))) (heap c) (tail c) with
    | Some es =>
        Some (Return ((Some ∘ (fun e => (key e, value e)) <$> es)
                      ++ replicate (Z.to_nat (size c) - length es)%nat None))
    | None => None
    end.

Fixpoint forEach_loop {A} (fuel : nat) (fun_ : V -> K -> A -> M A)
    (entry : option handle) (a : A) (c : LRUMap) : option (outcome A * LRUMap) :=
  match entry with
  | None => Some (Return a, c)
  | Some _ =>
      match fuel with
      | O => None
      | S fuel' =>
          match (e <- deref entry ;;
                 a' <- fun_ (value e) (key e) a ;;
                 p <- get_PREVIOUS entry ;;
                 ret (a', p)) c with
          | (Return (a', p), c') => forEach_loop fuel' fun_ p a' c'
          | (Throw err, c') => Some (Throw err, c')
          end
      end
  end.

Definition forEach {A} (fuel : nat) (fun_ : V -> K -> A -> M A) (a : A) (c : LRUMap)
    : option (outcome A * LRUMap) :=
  forEach_loop fuel fun_ (tail c) a c.

Section ToString.
Variables (String_key : K -> string) (String_value : V -> string).

Fixpoint toString_loop (fuel : nat) (hp : list Entry)
    (entry : option handle) (s : string) : option string :=
  match entry with
  | None => Some s
  | Some h =>
      match fuel with
      | O => None
      | S fuel' =>
          match hp !! h with
          | Some e =>
              let s := (s +:+ (String_key (key e) +:+ ":" +:+ String_value (value e)))%string in
              let entry := PREVIOUS e in
              let s := match entry with
                       | Some _ => (s +:+ " < ")%string
                       | None => s
                       end in
              toString_loop fuel' hp entry s
          | None => None
          end
      end
  end.

Definition toString (c : LRUMap) : option string :=
  toString_loop (S (length (heap c))) (heap c) (tail c) "".

End ToString.

End LRUMap.
End part_000_LRUMap.

(** * Properties *)

(** ** The calls a client can make *)

Section Calls.
Context {K : Type} `{Countable K} {V : Type}.

Inductive call : Type :=
| call_assign (now : Z) (es : list (K * V))
| call_has (now : Z) (k : K)
| call_get (now : Z) (k : K)
| call_set (now : Z) (k : K) (v : V)
| call_removeLRUItem
| call_delete (k : K)
| call_clear
| call_find (k : K).

(** The state a call leaves behind, whether it returns or throws. *)
Definition exec (op : call) (c : @LRUCache K _ _ V) : LRUCache :=
  match op with
  | call_assign now es => snd (assign now es c)
  | call_has now k => snd (has now k c)
  | call_get now k => snd (get now k c)
  | call_set now k v => snd (set now k v c)
  | call_removeLRUItem => snd (removeLRUItem c)
  | call_delete k => snd (delete_ k c)
  | call_clear => snd (clear c)
  | call_find k => snd (find k c)
  end.

(** The error a call throws, if it throws. *)
Definition raised (op : call) (c : @LRUCache K _ _ V) : option Error :=
  let err {A} (o : outcome A) := match o with Return _ => None | Throw e => Some e end in
  match op with
  | call_assign now es => err (fst (assign now es c))
  | call_has now k => err (fst (has now k c))
  | call_get now k => err (fst (get now k c))
  | call_set now k v => err (fst (set now k v c))
  | call_removeLRUItem => err (fst (removeLRUItem c))
  | call_delete k => err (fst (delete_ k c))
  | call_clear => err (fst (clear c))
  | call_find k => err (fst (find k c))
  end.

(** A sequence of calls, whatever each of them answers. *)
Definition run (ops : list call) (c : @LRUCache K _ _ V) : LRUCache :=
  foldl (fun c op => exec op c) c ops.

(** Every call of the sequence returns. *)
Fixpoint all_return (ops : list call) (c : @LRUCache K _ _ V) : Prop :=
  match ops with
  | [] => True
  | op :: rest => raised op c = None /\ all_return rest (exec op c)
  end.

(** The object a constructor call leaves. *)
Definition new_cache (now lifetime_ : Z) (limit_ : option Z)
    (es : option (list (K * V))) : @LRUCache K _ _ V :=
  (constructor now lifetime_ limit_ es).2.


End Calls.

(** The same calls on the [LRUMap] of [lru.js], which reads no clock. *)
Section MapCalls.
Context {K : Type} `{Countable K} {V : Type}.

Definition exec_lru_js (op : @call K V) (m : @LRUMap.LRUMap K _ _ V) : LRUMap.LRUMap :=
  match op with
  | call_assign _ es => snd (LRUMap.assign es m)
  | call_has _ k => snd (LRUMap.has k m)
  | call_get _ k => snd (LRUMap.get k m)
  | call_set _ k v => snd (LRUMap.set k v m)
  | call_removeLRUItem => snd (LRUMap.removeLRUItem m)
  | call_delete k => snd (LRUMap.delete_ k m)
  | call_clear => snd (LRUMap.clear m)
  | call_find k => snd (LRUMap.find k m)
  end.

Definition run_lru_js (ops : list (@call K V)) (m : @LRUMap.LRUMap K _ _ V) : LRUMap.LRUMap :=
  foldl (fun m op => exec_lru_js op m) m ops.

End MapCalls.

(** ** Vocabulary of the properties *)


(** A relation between states that every step of a method keeps. *)
Definition keeps {S A} (R : S -> S -> Prop) (m : M S A) : Prop :=
  forall c, R c (snd (m c)).

Section Vocabulary.
Context {K : Type} `{Countable K} {V : Type}.
Implicit Types (c : @LRUCache K _ _ V) (hp : list (@Entry K V)).


(** The fields that only the constructor writes. *)
Definition config_kept c c' : Prop :=
  limit c' = limit c /\ lifetime c' = lifetime c.

(** [size] does not grow and [limit] stays. *)
Definition shrinks c c' : Prop := size c' <= size c /\ limit c' = limit c.

(** What an entry holds besides its links: key, value, time stamp. *)
Definition item : Type := K * V * Z.

Definition entry_of (x : item) (previous next : option handle) : Entry :=
  mkEntry x.1.1 x.1.2 x.2 previous next.

Definition first_or (hs : list handle) (d : option handle) : option handle :=
  match hs with [] => d | h :: _ => Some h end.

Definition last_or (hs : list handle) (d : option handle) : option handle :=
  match last hs with Some h => Some h | None => d end.

(** [dll hp older l newer]: the entries at the handles of [l], oldest
    first, hold the items of [l] and are doubly linked, [older] being the
    NEXT of the first and [newer] the PREVIOUS of the last of them. *)
Fixpoint dll hp (older : option handle) (l : list (handle * item))
    (newer : option handle) : Prop :=
  match l with
  | [] => True
  | x :: rest =>
      hp !! x.1 = Some (entry_of x.2 (first_or rest.*1 newer) older)
      /\ dll hp (Some x.1) rest newer
  end.

(** The entries of a chain, as a traversal finds them. *)
Fixpoint entries_of l (older newer : option handle) : list (@Entry K V) :=
  match l with
  | [] => []
  | x :: rest =>
      entry_of x.2 (first_or rest.*1 newer) older :: entries_of rest (Some x.1) newer
  end.

(** The key map [km] holds exactly the keys of [l], each with the handle of
    its entry. *)
Definition indexes (km : gmap K handle) (l : list (handle * item)) : Prop :=
  forall k h, km !! k = Some h <-> (exists v t, (h, (k, v, t)) ∈ l).

(** The invariants of the data model: [l] lists the chain from the oldest
    to the newest entry, the key map indexes exactly these entries, and
    [size] counts them. *)
Record Rep c (l : list (handle * item)) : Prop := mkRep {
  rep_nodup : NoDup l.*1;
  rep_dll : dll (heap c) None l None;
  rep_tail : tail c = first_or l.*1 None;
  rep_head : head c = last l.*1;
  rep_size : size c = Z.of_nat (length l);
  rep_keymap : indexes (_keymap c) l
}.

Definition WF c : Prop := exists l, Rep c l.

(** The chain as the client sees it: keys, values and time stamps. *)
Definition items_of (l : list (handle * item)) : list item := l.*2.

Definition key_of (x : item) : K := x.1.1.
Definition value_of (x : item) : V := x.1.2.

(** Items without the one of key [k]. *)
Definition without (k : K) (xs : list item) : list item :=
  filter (fun x => key_of x <> k) xs.

(** [c] holds nothing. *)
Definition is_empty c : Prop :=
  size c = 0 /\ tail c = None /\ head c = None /\ _keymap c = ∅.


End Vocabulary.

Section AssignVocabulary.
Context {K : Type} `{Countable K} {V : Type}.

(** What the loop of [assign] maintains while it links the entries of [l]:
    all the invariants but [size] and [head], which [assign] writes after
    the loop. *)
Record Linked (c : @LRUCache K _ _ V) (l : list (handle * item)) : Prop := mkLinked {
  linked_nodup : NoDup l.*1;
  linked_dll : dll (heap c) None l None;
  linked_tail : tail c = first_or l.*1 (tail c);
  linked_keymap : indexes (_keymap c) l
}.

(** The chain that [assign] builds from [es] when the store has [n]
    entries: consecutive handles, every time stamp [now]. *)
Fixpoint fresh_chain (n : nat) (now : Z) (es : list (K * V)) : list (handle * @item K V) :=
  match es with
  | [] => []
  | kv :: rest => (n, (kv, now)) :: fresh_chain (S n) now rest
  end.

(** The key map after [assign] has indexed [es] that way. *)
Fixpoint index_from (n : nat) (es : list (K * V)) (km : gmap K handle) : gmap K handle :=
  match es with
  | [] => km
  | kv :: rest => index_from (S n) rest (<[kv.1 := n]> km)
  end.

(** The overflow check of [assign], started with the counter at [lim],
    stops the loop over [es]: the counter reaches zero before [es] ends. *)
Definition stops (lim : Z) (es : list (K * V)) : Prop :=
  0 <= lim < MAX_VALUE /\ lim < Z.of_nat (length es).

(** The entries [assign] gets through before its overflow check stops it. *)
Definition assigned (lim : Z) (es : list (K * V)) : list (K * V) :=
  if bool_decide (0 <= lim < MAX_VALUE /\ lim < Z.of_nat (length es))
  then take (S (Z.to_nat lim)) es
  else es.

(** The counter the loop of [assign] starts with: [this.limit || Number.MAX_VALUE]. *)
Definition assign_limit (c : @LRUCache K _ _ V) : Z :=
  if decide (limit c = 0) then MAX_VALUE else limit c.

(** The calls that keep the representation: every call but an [assign] whose
    input repeats a key, overflows the limit, or is empty while the cache is
    not. *)
Definition assign_fits (c : @LRUCache K _ _ V) (op : @call K V) : Prop :=
  match op with
  | call_assign now es =>
      NoDup es.*1 /\ (es <> [] \/ tail c = None) /\
      (limit c <= 0 \/ Z.of_nat (length es) <= limit c)
  | _ => True
  end.

(** The errors that the calls of a sequence throw, call by call. *)
Fixpoint raised_along (ops : list (@call K V)) (c : @LRUCache K _ _ V) : list (option Error) :=
  match ops with
  | [] => []
  | op :: rest => raised op c :: raised_along rest (exec op c)
  end.

(** Every [assign] of a sequence of calls fits when it is made. *)
Fixpoint fits_along (ops : list (@call K V)) (c : @LRUCache K _ _ V) : Prop :=
  match ops with
  | [] => True
  | op :: rest => assign_fits c op /\ fits_along rest (exec op c)
  end.

End AssignVocabulary.

(** ** The cache as a list of pairs *)


Section ListModel.
Context {K : Type} `{Countable K} {V : Type}.

(** The key-value pairs of a chain. *)
Definition pairs_of (l : list (handle * @item K V)) : list (K * V) :=
  fst <$> items_of l.

(** The value the pairs [es] hold for key [k]. *)
Fixpoint assoc (k : K) (es : list (K * V)) : option V :=
  match es with
  | [] => None
  | kv :: rest => if decide (kv.1 = k) then Some kv.2 else assoc k rest
  end.

(** The pairs of [es] whose key is not [k]. *)
Definition without_key (k : K) (es : list (K * V)) : list (K * V) :=
  filter (fun kv => kv.1 <> k) es.

(** A cache of capacity [lim] as a list of pairs, oldest first: what a call
    makes of the list. *)
Definition lru_set (lim : Z) (k : K) (v : V) (es : list (K * V)) : list (K * V) :=
  match assoc k es with
  | Some _ => without_key k es ++ [(k, v)]
  | None =>
      if decide (lim < Z.of_nat (length es) + 1) then drop 1 (es ++ [(k, v)])
      else es ++ [(k, v)]
  end.

Definition lru_get (k : K) (es : list (K * V)) : list (K * V) :=
  match assoc k es with
  | Some v => without_key k es ++ [(k, v)]
  | None => es
  end.

(** What a call makes of the list, when nothing expires. *)
Definition lru_exec (lim : Z) (op : @call K V) (es : list (K * V)) : list (K * V) :=
  match op with
  | call_assign _ es' => es'
  | call_has _ _ => es
  | call_get _ k => lru_get k es
  | call_set _ k v => lru_set lim k v es
  | call_removeLRUItem => drop 1 es
  | call_delete k => without_key k es
  | call_clear => []
  | call_find _ => es
  end.

(** The error a call answers with on the list. *)
Definition lru_raised (op : @call K V) (es : list (K * V)) : option Error :=
  match op with
  | call_get _ k => match assoc k es with Some _ => None | None => Some notFound end
  | _ => None
  end.

(** The inputs of [assign] that the list model covers: distinct keys, within
    the capacity, and not the empty input on a cache that holds entries. *)
Definition lru_fits (lim : Z) (op : @call K V) (es : list (K * V)) : Prop :=
  match op with
  | call_assign _ es' =>
      NoDup es'.*1 /\ (es' <> [] \/ es = []) /\
      (lim <= 0 \/ Z.of_nat (length es') <= lim)
  | _ => True
  end.

Fixpoint all_fit (lim : Z) (ops : list (@call K V)) (es : list (K * V)) : Prop :=
  match ops with
  | [] => True
  | op :: rest => lru_fits lim op es /\ all_fit lim rest (lru_exec lim op es)
  end.

End ListModel.

(** ** [lru.js] against the class *)

Section Embedding.
Context {K : Type} `{Countable K} {V : Type}.

(** An entry of [lru.js] as an entry of the class, and a map as a cache in
    which nothing expires: every time stamp is 0, and so is the lifetime. *)
Definition embed_entry (e : @LRUMap.Entry K V) : @Entry K V :=
  mkEntry (LRUMap.key e) (LRUMap.value e) 0 (LRUMap.PREVIOUS e) (LRUMap.NEXT e).

Definition same_entry (e : @LRUMap.Entry K V) (e' : @Entry K V) : Prop :=
  e' = embed_entry e.

Definition embed (m : @LRUMap.LRUMap K _ _ V) : @LRUCache K _ _ V :=
  mkCache 0 (LRUMap.size m) (LRUMap.limit m) (LRUMap.tail m) (LRUMap.newest m)
    (LRUMap._keymap m) None (embed_entry <$> LRUMap.heap m).

(** An answer of [lru.js] and an answer of the class that agree: the same
    error or related results, and states that [embed] relates. *)
Definition agrees {A B} (R : A -> B -> Prop)
    (x : outcome A * @LRUMap.LRUMap K _ _ V) (y : outcome B * @LRUCache K _ _ V) : Prop :=
  y.2 = embed x.2 /\
  match x.1, y.1 with
  | Return a, Return b => R a b
  | Throw e, Throw e' => e = e'
  | _, _ => False
  end.

Definition sim {A B} (R : A -> B -> Prop)
    (mm : M (@LRUMap.LRUMap K _ _ V) A) (mc : M (@LRUCache K _ _ V) B) : Prop :=
  forall m, agrees R (mm m) (mc (embed m)).

(** The invariants of the data model, for a map of [lru.js]. *)
Definition Rep_lru_js (m : @LRUMap.LRUMap K _ _ V) (l : list (handle * @item K V)) : Prop :=
  Rep (embed m) l.

Definition WF_lru_js (m : @LRUMap.LRUMap K _ _ V) : Prop := exists l, Rep_lru_js m l.

(** The calls of [lru.js] that the list model covers: those of the class,
    but a [set] of a new key needs a capacity of one or more, and
    [removeLRUItem] a map that does not hold exactly one entry. *)
Definition lru_js_fits (lim : Z) (op : @call K V) (es : list (K * V)) : Prop :=
  lru_fits lim op es /\
  match op with
  | call_set _ k _ => 1 <= lim \/ is_Some (assoc k es)
  | call_removeLRUItem => length es <> 1%nat
  | _ => True
  end.

Fixpoint all_fit_lru_js (lim : Z) (ops : list (@call K V)) (es : list (K * V)) : Prop :=
  match ops with
  | [] => True
  | op :: rest => lru_js_fits lim op es /\ all_fit_lru_js lim rest (lru_exec lim op es)
  end.

End Embedding.

(** ** Caches of the examples, keyed by strings *)

(** [new LRUMap(3)] of [lru.js], then [set("A", 10)], [set("B", 20)],
    [set("C", 30)]. *)
Definition three_entries_lru_js : @LRUMap.LRUMap string _ _ Z :=
  run_lru_js [call_set 0 "A"%string 10; call_set 0 "B"%string 20; call_set 0 "C"%string 30]
             (LRUMap.constructor (Some 3) None).2.


(** [new LRUCache(1, 3)] at time 0, then [set("k", 7)] at time 0. *)
Definition one_entry : @LRUCache string _ _ Z :=
  exec (call_set 0 "k"%string 7) (new_cache 0 1 (Some 3) None).

(** [new LRUCache(0, 3)], then [set("A", 10)], [set("B", 20)], [set("C", 30)]. *)
Definition three_entries : @LRUCache string _ _ Z :=
  run [call_set 1 "A"%string 10; call_set 2 "B"%string 20; call_set 3 "C"%string 30]
      (new_cache 0 0 (Some 3) None).

(** [new LRUCache(0, 2, [["x", 1], ["y", 2]])]. *)
Definition two_of_two : @LRUCache string _ _ Z :=
  new_cache 0 0 (Some 2) (Some [("x"%string, 1); ("y"%string, 2)]).

(** ** The [LRUMap] of [part_000] against the class *)

Section Projection.
Context {K : Type} `{Countable K} {V : Type}.

(** A cache of the class as a map of [part_000]: the class without the
    lifetime and the time stamps. *)
Definition strip_entry (e : @Entry K V) : @part_000_LRUMap.Entry K V :=
  part_000_LRUMap.mkEntry (key e) (value e) (PREVIOUS e) (NEXT e).

Definition strip (c : @LRUCache K _ _ V) : @part_000_LRUMap.LRUMap K _ _ V :=
  part_000_LRUMap.mkMap (size c) (limit c) (tail c) (head c) (_keymap c)
    (strip_entry <$> heap c).

Definition stripped_entry (e : @Entry K V) (e' : @part_000_LRUMap.Entry K V) : Prop :=
  e' = strip_entry e.

(** An answer of the class with expiry off and an answer of [part_000]'s
    map that agree: the same error or related results, and the state of the
    map is the state of the cache, stripped. *)
Definition follows {A B} (R : A -> B -> Prop)
    (x : outcome A * @LRUCache K _ _ V) (y : outcome B * @part_000_LRUMap.LRUMap K _ _ V)
    : Prop :=
  y.2 = strip x.2 /\ lifetime x.2 = 0 /\
  match x.1, y.1 with
  | Return a, Return b => R a b
  | Throw e, Throw e' => e = e'
  | _, _ => False
  end.

Definition sim_strip {A B} (R : A -> B -> Prop)
    (mc : M (@LRUCache K _ _ V) A) (mm : M (@part_000_LRUMap.LRUMap K _ _ V) B) : Prop :=
  forall c, lifetime c = 0 -> follows R (mc c) (mm (strip c)).

(** A map of [part_000] as a cache in which nothing expires: every time
    stamp is 0, and so is the lifetime. *)
Definition dress_entry (e : @part_000_LRUMap.Entry K V) : @Entry K V :=
  mkEntry (part_000_LRUMap.key e) (part_000_LRUMap.value e) 0
    (part_000_LRUMap.PREVIOUS e) (part_000_LRUMap.NEXT e).

Definition dress (m : @part_000_LRUMap.LRUMap K _ _ V) : @LRUCache K _ _ V :=
  mkCache 0 (part_000_LRUMap.size m) (part_000_LRUMap.limit m) (part_000_LRUMap.tail m)
    (part_000_LRUMap.head m) (part_000_LRUMap._keymap m) None
    (dress_entry <$> part_000_LRUMap.heap m).

(** The invariants of the data model, for a map of [part_000]. *)
Definition Rep_part_000 (m : @part_000_LRUMap.LRUMap K _ _ V)
    (l : list (handle * @item K V)) : Prop :=
  Rep (dress m) l.

Definition WF_part_000 (m : @part_000_LRUMap.LRUMap K _ _ V) : Prop :=
  exists l, Rep_part_000 m l.

(** The calls on the map of [part_000], which reads no clock. *)
Definition exec_part_000 (op : @call K V) (m : @part_000_LRUMap.LRUMap K _ _ V)
    : part_000_LRUMap.LRUMap :=
  match op with
  | call_assign _ es => snd (part_000_LRUMap.assign es m)
  | call_has _ k => snd (part_000_LRUMap.has k m)
  | call_get _ k => snd (part_000_LRUMap.get k m)
  | call_set _ k v => snd (part_000_LRUMap.set k v m)
  | call_removeLRUItem => snd (part_000_LRUMap.removeLRUItem m)
  | call_delete k => snd (part_000_LRUMap.delete_ k m)
  | call_clear => snd (part_000_LRUMap.clear m)
  | call_find k => snd (part_000_LRUMap.find k m)
  end.

Definition raised_part_000 (op : @call K V) (m : @part_000_LRUMap.LRUMap K _ _ V)
    : option Error :=
  let err {A} (o : outcome A) := match o with Return _ => None | Throw e => Some e end in
  match op with
  | call_assign _ es => err (fst (part_000_LRUMap.assign es m))
  | call_has _ k => err (fst (part_000_LRUMap.has k m))
  | call_get _ k => err (fst (part_000_LRUMap.get k m))
  | call_set _ k v => err (fst (part_000_LRUMap.set k v m))
  | call_removeLRUItem => err (fst (part_000_LRUMap.removeLRUItem m))
  | call_delete k => err (fst (part_000_LRUMap.delete_ k m))
  | call_clear => err (fst (part_000_LRUMap.clear m))
  | call_find k => err (fst (part_000_LRUMap.find k m))
  end.

Definition run_part_000 (ops : list (@call K V)) (m : @part_000_LRUMap.LRUMap K _ _ V)
    : part_000_LRUMap.LRUMap :=
  foldl (fun m op => exec_part_000 op m) m ops.

End Projection.

(** ** Relations that every step of a method keeps *)

Section Steps.
Context {S : Type} (R : S -> S -> Prop).
Hypothesis R_refl : forall c, R c c.
Hypothesis R_trans : forall c1 c2 c3, R c1 c2 -> R c2 c3 -> R c1 c3.

Lemma keeps_ret {A} (a : A) : keeps R (ret a).
Proof. intros c. apply R_refl. Qed.

Lemma keeps_throw {A} (e : Error) : keeps R (@throw S A e).
Proof. intros c. apply R_refl. Qed.

Lemma keeps_gets {A} (f : S -> A) : keeps R (gets f).
Proof. intros c. apply R_refl. Qed.

Lemma keeps_bind {A B} (m : M S A) (k : A -> M S B) :
  keeps R m -> (forall a, keeps R (k a)) -> keeps R (bind m k).
Proof.
  intros Hm Hk c. unfold bind.
  specialize (Hm c). destruct (m c) as [[a|e] c1]; simpl in *.
  - eapply R_trans; [exact Hm | apply Hk].
  - exact Hm.
Qed.

Lemma keeps_modify (f : S -> S) : (forall c, R c (f c)) -> keeps R (modify f).
Proof. intros Hf c. apply Hf. Qed.

End Steps.

(** ** What no method changes: keys, time stamps, configuration *)

Section Frames.
Context {K : Type} `{Countable K} {V : Type}.
Implicit Types (c : @LRUCache K _ _ V).



Lemma config_kept_refl c : config_kept c c.
Proof. by split. Qed.

Lemma config_kept_trans c1 c2 c3 :
  config_kept c1 c2 -> config_kept c2 c3 -> config_kept c1 c3.
Proof. intros [? ?] [? ?]. split; congruence. Qed.

Section AnyRelation.
Context (R : @LRUCache K _ _ V -> @LRUCache K _ _ V -> Prop).
Hypothesis R_refl : forall c, R c c.
Hypothesis R_trans : forall c1 c2 c3, R c1 c2 -> R c2 c3 -> R c1 c3.
Hypothesis R_tail : forall c r, R c (with_tail r c).
Hypothesis R_head : forall c r, R c (with_head r c).
Hypothesis R_keymap : forall c m, R c (with_keymap m c).
Hypothesis R_this_created_at : forall c t, R c (with_this_created_at t c).
Hypothesis R_decrement : forall c, R c (with_size (size c - 1) c).
Hypothesis R_store : forall c h e e', heap c !! h = Some e ->
  created_at e' = created_at e -> key e' = key e ->
  R c (with_heap (<[h := e']> (heap c)) c).
Hypothesis R_alloc : forall c e, R c (with_heap (heap c ++ [e]) c).

Lemma keeps_deref r : keeps R (deref r).
Proof.
  intros c. unfold deref. destruct r as [h|]; [|apply R_refl].
  destruct (heap c !! h); apply R_refl.
Qed.

Lemma keeps_update r f :
  (forall e, created_at (f e) = created_at e /\ key (f e) = key e) ->
  keeps R (update r f).
Proof.
  intros Hf c. unfold update, bind, deref.
  destruct r as [h|]; [|apply R_refl].
  destruct (heap c !! h) as [e|] eqn:He; [|apply R_refl].
  simpl. apply (R_store c h e (f e) He); apply Hf.
Qed.

Lemma keeps_new_Entry now k v : keeps R (new_Entry now k v).
Proof. intros c. apply R_alloc. Qed.

Lemma keeps_keymap_set k r : keeps R (keymap_set k r).
Proof.
  destruct r; simpl; [|apply keeps_throw, R_refl].
  apply keeps_modify. intros c. apply R_keymap.
Qed.

Lemma keeps_keymap_delete k : keeps R (keymap_delete k).
Proof. apply keeps_modify. intros c. apply R_keymap. Qed.

Local Ltac keeps_step :=
  first
    [ apply keeps_update; intros ?; split; reflexivity
    | apply keeps_bind; [exact R_trans | | intros ]
    | apply keeps_ret; exact R_refl
    | apply keeps_throw; exact R_refl
    | apply keeps_gets; exact R_refl
    | apply keeps_deref
    | apply keeps_update; intros ?; split; reflexivity
    | apply keeps_new_Entry
    | apply keeps_keymap_set
    | apply keeps_keymap_delete
    | apply keeps_modify; intros ?;
      first [ apply R_tail | apply R_head | apply R_keymap
            | apply R_this_created_at | apply R_decrement ]
    | case_decide
    | case_match ].

Local Ltac keeps_auto := unfold get_PREVIOUS, get_NEXT, set_PREVIOUS, set_NEXT,
  set_value, keymap_get; repeat keeps_step.

Lemma keeps_delete k : keeps R (delete_ k).
Proof. unfold delete_. keeps_auto. Qed.

Lemma keeps_has now k : keeps R (has now k).
Proof. unfold has. keeps_auto; apply keeps_delete. Qed.

Lemma keeps_markEntryAsUsed now entry renewAge : keeps R (_markEntryAsUsed now entry renewAge).
Proof. unfold _markEntryAsUsed. keeps_auto. Qed.

Lemma keeps_get now k : keeps R (get now k).
Proof.
  unfold get. apply keeps_bind; [exact R_trans | apply keeps_has | intros b].
  keeps_auto; apply keeps_markEntryAsUsed.
Qed.

Lemma keeps_removeLRUItem : keeps R removeLRUItem.
Proof. unfold removeLRUItem, _purgeRemovedEntry. keeps_auto. Qed.

Lemma keeps_find k : keeps R (find k).
Proof. unfold find. keeps_auto. Qed.

(** The methods that also raise or recount [size]. *)
Section Growing.
Hypothesis R_size : forall c z, R c (with_size z c).

Local Ltac keeps_grow :=
  repeat first [ keeps_step | apply keeps_modify; intros ?; apply R_size ].

Lemma keeps_assign_loop now es last lim : keeps R (assign_loop now es last lim).
Proof.
  revert last lim. induction es as [|itv es IH]; intros last lim; simpl.
  - apply keeps_ret, R_refl.
  - keeps_auto; keeps_grow; apply IH.
Qed.

Lemma keeps_assign now es : keeps R (assign now es).
Proof. unfold assign. keeps_auto; keeps_grow; apply keeps_assign_loop. Qed.

Lemma keeps_set now k v : keeps R (set now k v).
Proof.
  unfold set. keeps_auto; keeps_grow; try apply keeps_markEntryAsUsed; apply keeps_removeLRUItem.
Qed.

Lemma keeps_clear : keeps R clear.
Proof. unfold clear. keeps_auto; keeps_grow. Qed.

Lemma keeps_exec op c : R c (exec op c).
Proof.
  destruct op; simpl.
  - apply keeps_assign.
  - apply keeps_has.
  - apply keeps_get.
  - apply keeps_set.
  - apply keeps_removeLRUItem.
  - apply keeps_delete.
  - apply keeps_clear.
  - apply keeps_find.
Qed.

End Growing.

End AnyRelation.


Lemma config_kept_exec op c : config_kept c (exec op c).
Proof.
  apply keeps_exec.
  - apply config_kept_refl.
  - apply config_kept_trans.
  - by split.
  - by split.
  - by split.
  - by split.
  - by split.
  - by split.
  - by split.
  - by split.
Qed.

End Frames.

(** ** Doubly linked chains in the store *)

Section Lists.
Context {A : Type}.

Lemma NoDup_mid (l1 l2 : list A) (a : A) :
  NoDup (l1 ++ a :: l2) -> (a ∉ l1) /\ (a ∉ l2) /\ NoDup (l1 ++ l2).
Proof.
  intros Hnd. apply NoDup_app in Hnd as (Hnd1 & Hd & Hnd2).
  apply NoDup_cons in Hnd2 as (Ha & Hnd2).
  split; [|split; [done|]].
  - intros Hin. apply (Hd _ Hin). by left.
  - apply NoDup_app. split; [done|]. split; [|done].
    intros b Hb Hb2. apply (Hd _ Hb). by right.
Qed.

Lemma NoDup_move_last (l1 l2 : list A) (a : A) :
  NoDup (l1 ++ a :: l2) -> NoDup (l1 ++ l2 ++ [a]).
Proof.
  intros Hnd. eapply NoDup_Permutation_proper; [|exact Hnd].
  apply Permutation_app_head. symmetry. apply Permutation_cons_append.
Qed.

End Lists.

Section Chains.
Context {K : Type} `{Countable K} {V : Type}.
Implicit Types (c : @LRUCache K _ _ V) (hp : list (@Entry K V))
  (l : list (handle * @item K V)) (x : handle * @item K V).

Lemma first_or_app (hs1 hs2 : list handle) d :
  first_or (hs1 ++ hs2) d = first_or hs1 (first_or hs2 d).
Proof. by destruct hs1. Qed.

Lemma last_or_cons h (hs : list handle) d :
  last_or (h :: hs) d = last_or hs (Some h).
Proof.
  unfold last_or. destruct hs as [|h' hs]; [done|].
  rewrite last_cons_cons. destruct (last (h' :: hs)) eqn:E; [done|].
  by apply last_None in E.
Qed.

Lemma last_or_snoc (hs : list handle) h d : last_or (hs ++ [h]) d = Some h.
Proof. unfold last_or. by rewrite last_snoc. Qed.

Lemma last_or_nil d : last_or [] d = d.
Proof. done. Qed.

Lemma last_or_None (hs : list handle) : last_or hs None = last hs.
Proof. unfold last_or. by destruct (last hs). Qed.

Lemma last_or_app (hs1 hs2 : list handle) d :
  last_or (hs1 ++ hs2) d = last_or hs2 (last_or hs1 d).
Proof.
  revert d. induction hs1 as [|h hs1 IH]; intros d; simpl; [done|].
  by rewrite !last_or_cons, IH.
Qed.

Lemma first_or_elem (hs : list handle) d h :
  first_or hs d = Some h -> h ∈ hs \/ d = Some h.
Proof.
  destruct hs as [|h' hs]; simpl; [by right|].
  intros [= ->]. left. by left.
Qed.

Lemma dll_app hp o l1 l2 n :
  dll hp o (l1 ++ l2) n <->
  dll hp o l1 (first_or l2.*1 n) /\ dll hp (last_or l1.*1 o) l2 n.
Proof.
  revert o. induction l1 as [|x l1 IH]; intros o; simpl.
  - rewrite last_or_nil. tauto.
  - rewrite IH, fmap_app, first_or_app, last_or_cons. tauto.
Qed.

Lemma dll_bound hp o l n h : dll hp o l n -> h ∈ l.*1 -> (h < length hp)%nat.
Proof.
  revert o. induction l as [|x l IH]; intros o; simpl.
  - intros _ Hin. by apply elem_of_nil in Hin.
  - intros [Hx Hl] Hin. apply elem_of_cons in Hin as [->|Hin].
    + by eapply lookup_lt_Some.
    + by eapply IH.
Qed.

Lemma dll_insert_ne hp o l n h e :
  h ∉ l.*1 -> dll hp o l n -> dll (<[h := e]> hp) o l n.
Proof.
  revert o. induction l as [|x l IH]; intros o; simpl; [done|].
  intros Hnotin [Hx Hl]. apply not_elem_of_cons in Hnotin as [Hne Hnotin].
  split; [|by apply IH].
  by rewrite list_lookup_insert_ne.
Qed.

Lemma dll_alloc hp o l n e : dll hp o l n -> dll (hp ++ [e]) o l n.
Proof.
  revert o. induction l as [|x l IH]; intros o; simpl; [done|].
  intros [Hx Hl]. split; [|by apply IH]. by apply lookup_app_l_Some.
Qed.

Lemma chain_from_dll hp o l fuel :
  dll hp o l None -> (length l <= fuel)%nat ->
  chain_from fuel hp (first_or l.*1 None) = Some (entries_of l o None).
Proof.
  revert o fuel. induction l as [|x l IH]; intros o fuel; simpl; [by destruct fuel|].
  intros [Hx Hl] Hfuel. destruct fuel as [|fuel]; [lia|].
  simpl. rewrite Hx. simpl. rewrite (IH (Some x.1) fuel) by (done || lia). done.
Qed.

Lemma NoDup_bounded_length (hs : list handle) (n : nat) :
  NoDup hs -> (forall h, h ∈ hs -> (h < n)%nat) -> (length hs <= n)%nat.
Proof.
  intros Hnd Hb.
  assert (hs ⊆+ seq 0 n) as Hsub.
  { apply NoDup_submseteq; [done|]. intros h Hh. apply elem_of_seq. specialize (Hb h Hh). lia. }
  apply submseteq_length in Hsub. by rewrite length_seq in Hsub.
Qed.

Lemma key_entries_of l o n : key <$> entries_of l o n = key_of <$> items_of l.
Proof.
  revert o. induction l as [|x l IH]; intros o; simpl; [done|].
  by rewrite IH.
Qed.

Lemma value_entries_of l o n : value <$> entries_of l o n = value_of <$> items_of l.
Proof.
  revert o. induction l as [|x l IH]; intros o; simpl; [done|].
  by rewrite IH.
Qed.

Lemma pair_entries_of l o n :
  (fun e => (key e, value e)) <$> entries_of l o n = fst <$> items_of l.
Proof.
  revert o. induction l as [|[h [[k v] t]] l IH]; intros o; simpl; [done|].
  by rewrite IH.
Qed.

Lemma length_entries_of l o n : length (entries_of l o n) = length l.
Proof.
  revert o. induction l as [|x l IH]; intros o; simpl; [done|].
  by rewrite IH.
Qed.

Lemma Rep_chain c l : Rep c l -> chain c = Some (entries_of l None None).
Proof.
  intros [Hnd Hdll Htl _ _ _]. unfold chain. rewrite Htl.
  apply chain_from_dll; [done|].
  apply Nat.le_trans with (length (heap c)); [|lia].
  rewrite <- (length_fmap fst). apply NoDup_bounded_length; [done|].
  intros h Hh. by eapply dll_bound.
Qed.

Lemma Rep_keys c l : Rep c l -> keys c = Some (key_of <$> items_of l).
Proof. intros HR. unfold keys. by rewrite (Rep_chain c l HR), key_entries_of. Qed.

Lemma Rep_entries c l :
  Rep c l -> entries c = Some (fst <$> items_of l).
Proof. intros HR. unfold entries. by rewrite (Rep_chain c l HR), pair_entries_of. Qed.

End Chains.

(** ** The key map as an index of the chain *)

Section Keymaps.
Context {K : Type} `{Countable K} {V : Type}.
Implicit Types (km : gmap K handle) (l : list (handle * @item K V)) (x : handle * @item K V).

Lemma NoDup_handles_middle l1 x l2 :
  NoDup (l1 ++ x :: l2).*1 -> (x.1 ∉ (l1 ++ l2).*1) /\ NoDup (l1 ++ l2).*1.
Proof.
  rewrite !fmap_app, fmap_cons. intros Hnd.
  apply NoDup_app in Hnd as (Hnd1 & Hd & Hnd2).
  apply NoDup_cons in Hnd2 as (Hx & Hnd2).
  split.
  - rewrite not_elem_of_app. split; [|done]. intros Hin. apply (Hd _ Hin). by left.
  - apply NoDup_app. split; [done|]. split; [|done].
    intros h Hh Hh2. apply (Hd _ Hh). by right.
Qed.

Lemma indexes_delete km l1 x l2 :
  NoDup (l1 ++ x :: l2).*1 -> indexes km (l1 ++ x :: l2) ->
  indexes (delete (key_of x.2) km) (l1 ++ l2).
Proof.
  intros Hnd Hkm k h.
  destruct (NoDup_handles_middle _ _ _ Hnd) as [Hx _].
  destruct x as [hx [[kx vx] tx]]. simpl in *. unfold key_of; simpl.
  assert (km !! kx = Some hx) as Hkx.
  { apply Hkm. exists vx, tx. set_solver. }
  destruct (decide (kx = k)) as [->|Hne].
  - rewrite lookup_delete_eq. split; [done|]. intros (v & t & Hin). exfalso.
    assert (km !! k = Some h) as Hk. { apply Hkm. exists v, t. set_solver. }
    assert (h = hx) as -> by congruence.
    apply Hx. apply (list_elem_of_fmap_2 fst) in Hin. done.
  - rewrite lookup_delete_ne by done. rewrite (Hkm k h).
    split; intros (v & t & Hin); exists v, t.
    + apply elem_of_app in Hin as [Hin|Hin].
      * apply elem_of_app. by left.
      * apply elem_of_cons in Hin as [Hin|Hin]; [congruence|].
        apply elem_of_app. by right.
    + set_solver.
Qed.

Lemma indexes_insert km l k h v t :
  km !! k = None -> indexes km l -> indexes (<[k := h]> km) (l ++ [(h, (k, v, t))]).
Proof.
  intros Hk Hkm k' h'. destruct (decide (k = k')) as [<-|Hne].
  - rewrite lookup_insert_eq. split.
    + intros [= <-]. exists v, t. set_solver.
    + intros (v' & t' & Hin). apply elem_of_app in Hin as [Hin|Hin].
      * assert (km !! k = Some h') as Hk' by (apply Hkm; eauto). congruence.
      * apply list_elem_of_singleton in Hin. congruence.
  - rewrite lookup_insert_ne by done. rewrite (Hkm k' h').
    split; intros (v' & t' & Hin); exists v', t'; [set_solver|].
    apply elem_of_app in Hin as [Hin|Hin]; [done|].
    apply list_elem_of_singleton in Hin. congruence.
Qed.

Lemma indexes_move km l1 h k v t v' l2 :
  indexes km (l1 ++ (h, (k, v, t)) :: l2) ->
  indexes km (l1 ++ l2 ++ [(h, (k, v', t))]).
Proof.
  intros Hkm k0 h0. rewrite (Hkm k0 h0).
  split; intros (v0 & t0 & Hin).
  - apply elem_of_app in Hin as [Hin|Hin]; [exists v0, t0; set_solver|].
    apply elem_of_cons in Hin as [Hin|Hin]; [|exists v0, t0; set_solver].
    injection Hin as -> -> -> ->. exists v', t. set_solver.
  - apply elem_of_app in Hin as [Hin|Hin]; [exists v0, t0; set_solver|].
    apply elem_of_app in Hin as [Hin|Hin]; [exists v0, t0; set_solver|].
    apply list_elem_of_singleton in Hin. injection Hin as -> -> -> ->.
    exists v, t. set_solver.
Qed.

Lemma indexes_value km l1 h k v t v' l2 :
  indexes km (l1 ++ (h, (k, v, t)) :: l2) ->
  indexes km (l1 ++ (h, (k, v', t)) :: l2).
Proof.
  intros Hkm k0 h0. rewrite (Hkm k0 h0).
  split; intros (v0 & t0 & Hin).
  - apply elem_of_app in Hin as [Hin|Hin]; [exists v0, t0; set_solver|].
    apply elem_of_cons in Hin as [Hin|Hin]; [|exists v0, t0; set_solver].
    injection Hin as -> -> -> ->. exists v', t. set_solver.
  - apply elem_of_app in Hin as [Hin|Hin]; [exists v0, t0; set_solver|].
    apply elem_of_cons in Hin as [Hin|Hin]; [|exists v0, t0; set_solver].
    injection Hin as -> -> -> ->. exists v, t. set_solver.
Qed.

Lemma indexes_nil km : @indexes K _ _ V km [] <-> km = ∅.
Proof.
  split.
  - intros Hkm. apply map_eq. intros k. rewrite lookup_empty.
    destruct (km !! k) as [h|] eqn:E; [|done].
    apply Hkm in E as (v & t & Hin). by apply elem_of_nil in Hin.
  - intros -> k h. rewrite lookup_empty. split; [done|].
    intros (v & t & Hin). by apply elem_of_nil in Hin.
Qed.

End Keymaps.

(** ** Running a method step by step *)

Ltac msimpl :=
  cbv beta iota zeta delta [bind ret throw gets modify deref update get_PREVIOUS get_NEXT set_PREVIOUS
       set_NEXT set_value new_Entry keymap_set keymap_get keymap_delete
       _purgeRemovedEntry lifetime size limit tail head _keymap this_created_at heap
       with_size with_limit with_tail with_head with_keymap with_this_created_at
       with_heap key value created_at PREVIOUS NEXT with_PREVIOUS with_NEXT
       with_value entry_of]; cbn [fst snd].

Ltac len_solve := rewrite ?length_insert, ?length_app; simpl; lia.

Ltac lookup_step :=
  match goal with
  | |- context [ (<[?a := ?e]> ?hp) !! ?a ] =>
      rewrite (list_lookup_insert_eq hp a) by len_solve
  | |- context [ (<[?a := ?e]> ?hp) !! ?b ] =>
      rewrite (list_lookup_insert_ne hp a b) by (assumption || congruence || lia)
  | |- context [ (?hp ++ [?e]) !! (length ?hp) ] =>
      rewrite (list_lookup_middle hp [] _ (length hp) eq_refl)
  | |- context [ (?hp ++ [?e]) !! ?b ] =>
      rewrite (lookup_app_l hp _ b) by len_solve
  | H : ?hp !! ?h = _ |- context [ ?hp !! ?h ] => rewrite H
  end.

Ltac absurd_case := exfalso; (congruence || lia).

Ltac dec_step :=
  match goal with
  | |- context [decide ?P] =>
      first [ destruct (decide P) as [?|?]; [ absurd_case | ]
            | destruct (decide P) as [?|?]; [ | absurd_case ] ]
  end.

Ltac mrun := repeat (msimpl; first [lookup_step | dec_step]); msimpl.

Ltac nodup_facts H :=
  rewrite <- ?app_assoc in H; cbn [app] in H;
  repeat first
    [ match type of H with
      | NoDup (_ :: _) => let H1 := fresh "Hne" in apply NoDup_cons in H as [H1 H]
      end
    | match type of H with
      | NoDup (_ ++ _ :: _) =>
          let H1 := fresh "Hne" in let H2 := fresh "Hne" in
          apply NoDup_mid in H as (H1 & H2 & H)
      end
    | match type of H with
      | NoDup (?l1 ++ ?l2 ++ _ :: _) =>
          let H1 := fresh "Hne" in let H2 := fresh "Hne" in
          rewrite (app_assoc l1 l2) in H;
          apply NoDup_mid in H as (H1 & H2 & H);
          rewrite <- ?app_assoc in H
      end ].

Ltac facts :=
  repeat match goal with
  | H : _ ∉ _ ++ _ |- _ => apply not_elem_of_app in H as [? ?]
  | H : _ ∉ _ :: _ |- _ => apply not_elem_of_cons in H as [? ?]
  | H : _ ∉ [] |- _ => clear H
  end.

Ltac rsimpl :=
  rewrite <- ?app_assoc in *;
  repeat (progress rewrite ?fmap_app, ?fmap_cons, ?fmap_nil, ?first_or_app,
            ?last_or_app, ?last_or_cons, ?last_or_nil in *);
  cbn [lifetime size limit tail head _keymap this_created_at heap fst snd
       dll first_or app] in *.

Ltac dll_tac :=
  repeat (rewrite ?dll_app; rsimpl); repeat split; try done;
  first [ mrun; done
        | repeat (apply dll_insert_ne; [assumption|]);
          first [ done | by apply dll_alloc ] ].

(** ** The methods on a cache that satisfies the invariants *)

Section Ops.
Context {K : Type} `{Countable K} {V : Type}.
Implicit Types (c : @LRUCache K _ _ V) (hp : list (@Entry K V))
  (l : list (handle * @item K V)) (x : handle * @item K V).

Lemma removeLRUItem_nil c : Rep c [] -> removeLRUItem c = (Return None, c).
Proof.
  intros HR. unfold removeLRUItem. unfold bind at 1, gets at 1.
  rewrite (rep_size _ _ HR). simpl. done.
Qed.

Lemma removeLRUItem_cons c x l :
  Rep c (x :: l) ->
  exists c', removeLRUItem c = (Return (Some x.2.1), c') /\ Rep c' l /\
    this_created_at c' = this_created_at c.
Proof.
  intros [Hnd Hdll Htl Hhd Hsz Hkm].
  destruct c as [lt sz lim tl hd km tca hp]. simpl in *.
  destruct x as [h [[k v] t]]. simpl in *.
  destruct Hdll as [Hh Hdll].
  apply NoDup_cons in Hnd as [Hh_notin Hnd].
  pose proof (lookup_lt_Some _ _ _ Hh) as Hh_lt.
  pose proof (indexes_delete km [] (h, (k, v, t)) l) as Hkm'.
  simpl in Hkm'. unfold key_of in Hkm'. simpl in Hkm'.
  specialize (Hkm' ltac:(by apply NoDup_cons) Hkm).
  unfold removeLRUItem. subst tl.
  destruct l as [|y l'].
  - (* the only entry *)
    simpl in *. mrun.
    eexists. split; [reflexivity|]. split; [|done].
    split; simpl; try done. lia.
  - (* at least two entries *)
    destruct y as [h' [[k' v'] t']]. simpl in *.
    destruct Hdll as [Hh' Hdll].
    apply not_elem_of_cons in Hh_notin as [Hne Hh_notin].
    apply NoDup_cons in Hnd as [Hh'_notin Hnd].
    pose proof (lookup_lt_Some _ _ _ Hh') as Hh'_lt.
    simpl in *. mrun.
    eexists. split; [reflexivity|]. split; [|done].
    split; simpl.
    + by apply NoDup_cons.
    + split.
      * mrun. done.
      * do 3 (apply dll_insert_ne; [done|]). done.
    + done.
    + done.
    + lia.
    + done.
Qed.


Lemma set_new_insert c l now k v :
  Rep c l -> _keymap c !! k = None ->
  exists c1,
    set now k v c =
      (if decide (limit c < size c + 1) then removeLRUItem ;;; ret tt else ret tt) c1 /\
    Rep c1 (l ++ [(length (heap c), (k, v, now))]) /\
    limit c1 = limit c /\ lifetime c1 = lifetime c /\
    this_created_at c1 = this_created_at c.
Proof.
  intros [Hnd Hdll Htl Hhd Hsz Hkm] Hk.
  destruct c as [lt sz lim tl hd km tca hp]. simpl in *.
  pose proof (indexes_insert km l k (length hp) v now Hk Hkm) as Hkm'.
  assert (length hp ∉ l.*1) as Hfresh.
  { intros Hin. apply (dll_bound _ _ _ _ _ Hdll) in Hin. lia. }
  unfold set.
  destruct l as [|z l' _] using rev_ind.
  - simpl in *. subst. mrun.
    eexists. split; [case_decide; reflexivity|].
    split; [|done].
    split; simpl; try done.
    + apply NoDup_singleton.
    + split; [|done]. mrun. done.
  - destruct z as [hz [[kz vz] tz]]. rewrite fmap_app in *. simpl in *.
    apply dll_app in Hdll as [Hl' [Hz _]]. simpl in *.
    rewrite last_snoc in Hhd. rewrite length_app in Hsz. simpl in Hsz.
    pose proof (lookup_lt_Some _ _ _ Hz) as Hz_lt.
    apply not_elem_of_app in Hfresh as [Hfresh _].
    assert (hz ∉ l'.*1) as Hz_notin.
    { apply NoDup_app in Hnd as (_ & Hd & _). intros Hin. apply (Hd _ Hin). by left. }
    subst hd. mrun.
    eexists. split; [case_decide; reflexivity|].
    split; [|done].
    + split; simpl.
      * rewrite !fmap_app. simpl. apply NoDup_app. split; [done|].
        split; [|apply NoDup_singleton].
        intros h Hh Hh2. apply list_elem_of_singleton in Hh2 as ->.
        apply elem_of_app in Hh as [Hh|Hh]; [done|].
        apply list_elem_of_singleton in Hh. lia.
      * rewrite !dll_app. simpl. repeat split.
        -- do 2 (apply dll_insert_ne; [set_solver|]). by apply dll_alloc.
        -- mrun. done.
        -- mrun. rewrite fmap_app. simpl. by rewrite last_or_snoc.
      * rewrite Htl, !fmap_app. simpl. by rewrite <- !app_assoc, !first_or_app.
      * rewrite !fmap_app. simpl. by rewrite last_snoc.
      * rewrite !length_app. simpl. lia.
      * done.
Qed.


Lemma set_value_Rep c l1 h k v0 t l2 v :
  Rep c (l1 ++ (h, (k, v0, t)) :: l2) ->
  exists c1,
    set_value (Some h) v c = (Return tt, c1) /\
    Rep c1 (l1 ++ (h, (k, v, t)) :: l2) /\
    this_created_at c1 = this_created_at c.
Proof.
  intros [Hnd Hdll Htl Hhd Hsz Hkm].
  destruct c as [lt sz lim tl hd km tca hp]. simpl in *.
  apply dll_app in Hdll as [Hl1 [Hh Hl2]]. simpl in *.
  pose proof (lookup_lt_Some _ _ _ Hh) as Hh_lt.
  destruct (NoDup_handles_middle _ _ _ Hnd) as [Hh_notin _]. simpl in Hh_notin.
  rewrite fmap_app in Hh_notin. apply not_elem_of_app in Hh_notin as [Hh1 Hh2].
  unfold set_value. mrun.
  eexists. split; [reflexivity|]. split; [|done].
  split; simpl.
  - by rewrite fmap_app, fmap_cons in *.
  - apply dll_app. simpl. repeat split.
    + by apply dll_insert_ne.
    + mrun. done.
    + by apply dll_insert_ne.
  - by rewrite fmap_app, fmap_cons in *.
  - by rewrite fmap_app, fmap_cons in *.
  - rewrite length_app in *. simpl in *. done.
  - by eapply indexes_value.
Qed.

Lemma delete_Rep c l1 x l2 :
  Rep c (l1 ++ x :: l2) ->
  exists c',
    delete_ (key_of x.2) c = (Return (Some (value_of x.2)), c') /\
    Rep c' (l1 ++ l2) /\
    this_created_at c' = this_created_at c.
Proof.
  intros [Hnd Hdll Htl Hhd Hsz Hkm].
  destruct c as [lt sz lim tl hd km tca hp]. simpl in *.
  pose proof (indexes_delete km l1 x l2 Hnd Hkm) as Hkm'.
  destruct (NoDup_handles_middle _ _ _ Hnd) as [Hx_notin Hnd'].
  destruct x as [h [[k v] t]]. unfold key_of, value_of in *. simpl in *.
  assert (km !! k = Some h) as Hk.
  { apply Hkm. exists v, t. apply elem_of_app. right. by left. }
  rewrite fmap_app in Hx_notin. apply not_elem_of_app in Hx_notin as [Hx1 Hx2].
  rewrite length_app in Hsz. simpl in Hsz.
  apply dll_app in Hdll as [Hl1 [Hh Hl2]]. simpl in *.
  pose proof (lookup_lt_Some _ _ _ Hh) as Hh_lt.
  unfold delete_.
  destruct l2 as [|[hb [[kb vb] tb]] l2']; destruct l1 as [|[ha [[ka va] ta]] l1' _] using rev_ind;
    simpl in *.
  - (* the only entry *)
    rewrite last_or_nil in Hh.
    mrun. eexists. split; [reflexivity|]. split; [|done].
    split; simpl; try done. lia.
  - (* the newest of several *)
    rewrite ?fmap_app, ?last_or_snoc, ?app_nil_r in *. simpl in *.
    rewrite ?last_or_snoc in *.
    apply dll_app in Hl1 as [Hl1' [Ha _]]. simpl in *.
    pose proof (lookup_lt_Some _ _ _ Ha) as Ha_lt.
    apply not_elem_of_app in Hx1 as [Hx1 Hxa].
    apply not_elem_of_cons in Hxa as [Hxa _].
    assert (ha ∉ l1'.*1) as Ha_notin.
    { apply NoDup_app in Hnd' as (_ & Hd & _). intros Hin. apply (Hd _ Hin). by left. }
    mrun. eexists. split; [reflexivity|]. split; [|done].
    split; simpl; try done.
    + by rewrite fmap_app.
    + apply dll_app. simpl. repeat split.
      * by apply dll_insert_ne.
      * mrun. done.
    + rewrite Htl, !fmap_app. simpl. by rewrite <- app_assoc, !first_or_app.
    + rewrite fmap_app. simpl. by rewrite last_snoc.
    + rewrite length_app in *. simpl in *. lia.
  - (* the oldest of several *)
    rewrite last_or_nil in Hh.
    destruct Hl2 as [Hb Hl2'].
    pose proof (lookup_lt_Some _ _ _ Hb) as Hb_lt.
    apply not_elem_of_cons in Hx2 as [Hxb Hx2].
    pose proof (NoDup_cons_1_1 _ _ Hnd') as Hb_notin.
    mrun. eexists. split; [reflexivity|]. split; [|done].
    split; simpl; try done.
    + split; [mrun; done|]. by apply dll_insert_ne.
    + lia.
  - (* an entry between two others *)
    rewrite ?fmap_app, ?last_or_snoc in *. simpl in *.
    rewrite ?last_or_snoc in *.
    destruct Hl2 as [Hb Hl2'].
    apply dll_app in Hl1 as [Hl1' [Ha _]]. simpl in *.
    pose proof (lookup_lt_Some _ _ _ Ha) as Ha_lt.
    pose proof (lookup_lt_Some _ _ _ Hb) as Hb_lt.
    apply not_elem_of_app in Hx1 as [Hx1 Hxa].
    apply not_elem_of_cons in Hxa as [Hxa _].
    apply not_elem_of_cons in Hx2 as [Hxb Hx2].
    pose proof Hnd' as Hnd2.
    rewrite <- app_assoc in Hnd2. simpl in Hnd2.
    apply NoDup_app in Hnd2 as (_ & Hd & Hnd2).
    apply NoDup_cons in Hnd2 as (Ha' & Hnd2).
    apply NoDup_cons in Hnd2 as (Hb_notin & _).
    apply not_elem_of_cons in Ha' as [Hab Ha_l2].
    assert (ha ∉ l1'.*1) as Ha_notin.
    { intros Hin. apply (Hd _ Hin). by left. }
    assert (hb ∉ l1'.*1) as Hb_l1.
    { intros Hin. apply (Hd _ Hin). right. by left. }
    mrun. eexists. split; [reflexivity|]. split; [|done].
    split; simpl; try done.
    + rewrite !fmap_app. simpl. done.
    + rewrite <- !app_assoc. simpl. apply dll_app. simpl. repeat split.
      * do 2 (apply dll_insert_ne; [done|]). done.
      * mrun. done.
      * mrun. done.
      * do 2 (apply dll_insert_ne; [done|]). done.
    + rewrite Htl, !fmap_app. simpl. by rewrite <- !app_assoc, !first_or_app.
    + rewrite Hhd, !fmap_app. simpl. rewrite <- !app_assoc. simpl.
      rewrite !last_app. simpl. done.
    + rewrite !length_app in *. simpl in *. lia.
Qed.


Lemma Rep_this_created_at c l t : Rep c l -> Rep (with_this_created_at t c) l.
Proof. intros [? ? ? ? ? ?]. by split. Qed.

Ltac finish_mark t :=
  match goal with
  | |- exists c', (if ?b then _ else _) ?R = _ /\ Rep _ ?l /\ _ =>
      cut (Rep R l);
      [ intros HRep;
        exists (if b then with_this_created_at (Some t) R else R);
        split; [by destruct b|];
        split; [destruct b; [by apply Rep_this_created_at|done] | by destruct b]
      | ]
  end.

Lemma markEntryAsUsed_Rep c l1 x l2 now renewAge :
  Rep c (l1 ++ x :: l2) ->
  exists c',
    _markEntryAsUsed now (Some x.1) renewAge c = (Return tt, c') /\
    Rep c' (l1 ++ l2 ++ [x]) /\
    this_created_at c' =
      (if renewAge then match l2 with [] => this_created_at c | _ => Some now end
       else this_created_at c).
Proof.
  intros HR. pose proof HR as [Hnd Hdll Htl Hhd Hsz Hkm].
  destruct c as [lt sz lim tl hd km tca hp].
  destruct x as [h [[k v] t]].
  pose proof (indexes_move km l1 h k v t v l2 Hkm) as Hkm'.
  destruct (NoDup_handles_middle _ _ _ Hnd) as [Hx_notin Hnd'].
  assert (NoDup (l1 ++ l2 ++ [(h, (k, v, t))]).*1) as Hnd_new.
  { rewrite !fmap_app. rewrite fmap_app in Hnd. by apply NoDup_move_last. }
  assert (sz = Z.of_nat (length (l1 ++ l2 ++ [(h, (k, v, t))]))) as Hsz_new.
  { cbn [size] in Hsz. rewrite Hsz, !length_app. simpl. lia. }
  assert (Some h = last (l1 ++ l2 ++ [(h, (k, v, t))]).*1) as Hhd_new.
  { rewrite app_assoc, fmap_app. simpl. by rewrite last_snoc. }
  apply dll_app in Hdll as [Hl1 Hl2].
  rsimpl. destruct Hl2 as [Hh Hl2].
  apply not_elem_of_app in Hx_notin as [Hx1 Hx2].
  pose proof (lookup_lt_Some _ _ _ Hh) as Hh_lt.
  unfold _markEntryAsUsed.
  destruct l2 as [|[hz [[kz vz] tz]] l2' _] using rev_ind.
  - (* already the newest *)
    rsimpl. rewrite last_snoc in Hhd. subst hd.
    mrun. eexists. split; [reflexivity|]. split; [done|]. by destruct renewAge.
  - rsimpl.
    assert (hd = Some hz) as ->.
    { by rewrite Hhd, app_comm_cons, app_assoc, last_snoc. }
    apply not_elem_of_app in Hx2 as [Hx2 Hxz].
    apply not_elem_of_cons in Hxz as [Hxz _].
    apply dll_app in Hl2 as [Hl2' Hz]. rsimpl. destruct Hz as [Hz _].
    pose proof (lookup_lt_Some _ _ _ Hz) as Hz_lt.
    assert (hz ∉ l1.*1 ++ l2'.*1) as Hz_notin.
    { rewrite app_assoc in Hnd'. apply NoDup_app in Hnd' as (_ & Hd & _).
      intros Hin. apply (Hd _ Hin). by left. }
    apply not_elem_of_app in Hz_notin as [Hz1 Hz2].
    destruct l2' as [|[hb [[kb vb] tb]] l2'']; destruct l1 as [|[ha [[ka va] ta]] l1' _] using rev_ind;
      rsimpl.
    + (* [x; z] *)
      subst tl. facts. mrun. finish_mark now.
      split; rsimpl; try done. dll_tac.
    + (* l1' ++ [a; x; z] *)
      assert (tl <> Some h) as Htl_ne.
      { intros Heq. rewrite Heq in Htl. symmetry in Htl.
        rewrite <- ?app_assoc, ?first_or_app in Htl. facts.
        apply first_or_elem in Htl as [Hin|Hin]; [done|].
        simpl in Hin. congruence. }
      apply dll_app in Hl1 as [Hl1' Ha]. rsimpl. destruct Ha as [Ha _].
      pose proof (lookup_lt_Some _ _ _ Ha) as Ha_lt.
      pose proof Hnd as Hf. nodup_facts Hf. facts.
      mrun. finish_mark now.
      split; rsimpl; [done|dll_tac| |done..].
      by rewrite Htl, ?first_or_app.
    + (* x :: b :: l2'' ++ [z] *)
      subst tl. destruct Hl2' as [Hb Hl2''].
      pose proof (lookup_lt_Some _ _ _ Hb) as Hb_lt.
      pose proof Hnd as Hf. nodup_facts Hf. facts.
      mrun. finish_mark now.
      split; rsimpl; [done|dll_tac|done..].
    + (* l1' ++ a :: x :: b :: l2'' ++ [z] *)
      assert (tl <> Some h) as Htl_ne.
      { intros Heq. rewrite Heq in Htl. symmetry in Htl.
        rewrite <- ?app_assoc, ?first_or_app in Htl. facts.
        apply first_or_elem in Htl as [Hin|Hin]; [done|].
        simpl in Hin. congruence. }
      destruct Hl2' as [Hb Hl2''].
      pose proof (lookup_lt_Some _ _ _ Hb) as Hb_lt.
      apply dll_app in Hl1 as [Hl1' Ha]. rsimpl. destruct Ha as [Ha _].
      pose proof (lookup_lt_Some _ _ _ Ha) as Ha_lt.
      pose proof Hnd as Hf. nodup_facts Hf. facts.
      mrun. finish_mark now.
      split; rsimpl; [done|dll_tac| |done..].
      by rewrite Htl, ?first_or_app.
Qed.

End Ops.

(** ** assign *)

Section Assign.
Context {K : Type} `{Countable K} {V : Type}.
Implicit Types (c : @LRUCache K _ _ V) (hp : list (@Entry K V))
  (l : list (handle * @item K V)) (x : handle * @item K V).

Lemma assign_step now kv rest lastAdded lim c :
  (forall h, lastAdded = Some h -> (h < length (heap c))%nat) ->
  exists c1,
    assign_loop now (kv :: rest) lastAdded lim c =
      (if decide (lim = 0) then throw overflow
       else assign_loop now rest (Some (length (heap c))) (post_dec lim)) c1 /\
    length (heap c1) = S (length (heap c)) /\
    _keymap c1 = <[kv.1 := length (heap c)]> (_keymap c) /\
    size c1 = size c /\ head c1 = head c /\ limit c1 = limit c /\
    lifetime c1 = lifetime c /\ this_created_at c1 = this_created_at c /\
    (forall l, Linked c l -> lastAdded = last l.*1 -> _keymap c !! kv.1 = None ->
       Linked c1 (l ++ [(length (heap c), (kv, now))])).
Proof.
  intros Hvalid.
  destruct c as [lt sz lim0 tl hd km tca hp]. destruct kv as [k v].
  cbn [heap size limit tail head _keymap lifetime this_created_at fst snd] in *.
  cbn [assign_loop].
  destruct lastAdded as [hz|].
  - specialize (Hvalid hz eq_refl).
    destruct (lookup_lt_is_Some_2 _ _ Hvalid) as [ez Hez].
    mrun.
    eexists. split; [case_decide; reflexivity|].
    cbn [heap size limit tail head _keymap lifetime this_created_at].
    split_and!; try done.
    + rewrite !length_insert, length_app. simpl. lia.
    + intros l [Hnd Hdll Htl Hkm] Hlast Hk. rsimpl.
      destruct l as [|[hz' [[kz vz] tz]] l' _] using rev_ind.
      { by rewrite fmap_nil in Hlast. }
      rsimpl. rewrite last_snoc in Hlast. injection Hlast as <-.
      apply dll_app in Hdll as [Hl' Hz]. rsimpl. destruct Hz as [Hz _].
      rewrite Hz in Hez. injection Hez as <-.
      assert (length hp ∉ l'.*1) as Hfresh.
      { intros Hin. apply (dll_bound _ _ _ _ _ Hl') in Hin. lia. }
      pose proof Hnd as Hf. nodup_facts Hf. facts.
      split; rsimpl.
      * change (NoDup (l'.*1 ++ [hz] ++ [length hp])). rewrite app_assoc.
        apply NoDup_app. split; [done|]. split; [|apply NoDup_singleton].
        intros h Hh Hh2. apply list_elem_of_singleton in Hh2 as ->.
        apply elem_of_app in Hh as [Hh|Hh]; [done|].
        apply list_elem_of_singleton in Hh. lia.
      * dll_tac.
      * done.
      * pose proof (indexes_insert km _ k (length hp) v now Hk Hkm) as Hi.
        by rewrite <- app_assoc in Hi.
  - mrun.
    eexists. split; [case_decide; reflexivity|].
    cbn [heap size limit tail head _keymap lifetime this_created_at].
    split_and!; try done.
    + rewrite length_app. simpl. lia.
    + intros l [Hnd Hdll Htl Hkm] Hlast Hk. rsimpl.
      symmetry in Hlast. apply last_None in Hlast.
      apply fmap_nil_inv in Hlast. subst l. rsimpl.
      split; rsimpl.
      * apply NoDup_singleton.
      * dll_tac.
      * done.
      * by apply (indexes_insert km [] k (length hp) v now).
Qed.


Lemma assigned_cons lim (kv : K * V) rest :
  lim <> 0 ->
  @assigned K V lim (kv :: rest) = kv :: assigned (post_dec lim) rest.
Proof.
  intros Hne. unfold assigned, post_dec. cbn [length].
  destruct (decide (lim = MAX_VALUE)) as [->|Hmax].
  - rewrite !bool_decide_eq_false_2 by lia. done.
  - destruct (decide (0 <= lim < MAX_VALUE /\ lim < Z.of_nat (S (length rest)))) as [Hs|Hs].
    + rewrite !bool_decide_eq_true_2 by lia.
      replace (Z.to_nat lim) with (S (Z.to_nat (lim - 1))) by lia. done.
    + rewrite !bool_decide_eq_false_2 by lia. done.
Qed.

Lemma assigned_zero (kv : K * V) rest : @assigned K V 0 (kv :: rest) = [kv].
Proof.
  unfold assigned. cbn [length].
  assert (0 < MAX_VALUE) by (unfold MAX_VALUE; lia).
  rewrite bool_decide_eq_true_2 by lia. done.
Qed.

Lemma stops_cons lim (kv : K * V) rest :
  lim <> 0 -> stops lim (kv :: rest) <-> stops (post_dec lim) rest.
Proof.
  intros Hne. unfold stops, post_dec. cbn [length].
  destruct (decide (lim = MAX_VALUE)); lia.
Qed.

Lemma assign_loop_run now es lastAdded lim c :
  (forall h, lastAdded = Some h -> (h < length (heap c))%nat) ->
  exists o c',
    assign_loop now es lastAdded lim c = (o, c') /\
    (stops lim es -> o = Throw overflow) /\
    (~ stops lim es -> exists r, o = Return r) /\
    _keymap c' = index_from (length (heap c)) (assigned lim es) (_keymap c) /\
    size c' = size c /\ head c' = head c /\ limit c' = limit c /\
    lifetime c' = lifetime c /\ this_created_at c' = this_created_at c /\
    length (heap c') = (length (heap c) + length (assigned lim es))%nat.
Proof.
  revert lastAdded lim c. induction es as [|kv rest IH]; intros lastAdded lim c Hvalid.
  - exists (Return lastAdded), c. split; [done|]. split_and!; try done.
    + intros [? ?]. simpl in *. lia.
    + eauto.
    + unfold assigned. by case_bool_decide.
    + unfold assigned. case_bool_decide; cbn; lia.
  - destruct (assign_step now kv rest lastAdded lim c Hvalid)
      as (c1 & Heq & Hlen & Hkm & Hsz & Hhd & Hlim & Hlt & Htca & _).
    rewrite Heq. destruct (decide (lim = 0)) as [->|Hne].
    + exists (Throw overflow), c1. split; [done|].
      split_and!; try done; try (by rewrite assigned_zero).
      2: { rewrite assigned_zero. cbn. lia. }
      intros Hns. exfalso. apply Hns. unfold stops. cbn [length].
      assert (0 < MAX_VALUE) by (unfold MAX_VALUE; lia). lia.
    + destruct (IH (Some (length (heap c))) (post_dec lim) c1)
        as (o & c' & Hrun & Hstop & Hgo & Hkm' & Hsz' & Hhd' & Hlim' & Hlt' & Htca' & Hlen').
      { intros h [= <-]. lia. }
      exists o, c'. split; [done|]. split_and!; try congruence.
      * intros Hs. apply Hstop. by apply (proj1 (stops_cons lim kv rest Hne)).
      * intros Hs. apply Hgo. intros Hs'. apply Hs.
        by apply (proj2 (stops_cons lim kv rest Hne)).
      * rewrite Hkm', Hlen, Hkm, assigned_cons by done. done.
      * rewrite Hlen', Hlen, assigned_cons by done. cbn. lia.
Qed.

Lemma assign_loop_Linked now es lastAdded lim c l :
  Linked c l -> lastAdded = last l.*1 ->
  NoDup es.*1 -> (forall k, k ∈ es.*1 -> _keymap c !! k = None) ->
  ~ stops lim es ->
  exists c',
    assign_loop now es lastAdded lim c =
      (Return (last (l ++ fresh_chain (length (heap c)) now es).*1), c') /\
    Linked c' (l ++ fresh_chain (length (heap c)) now es).
Proof.
  revert lastAdded lim c l.
  induction es as [|kv rest IH]; intros lastAdded lim c l HL Hlast Hnd Hfresh Hns.
  - exists c. cbn [fresh_chain]. rewrite app_nil_r. by subst.
  - assert (forall h, lastAdded = Some h -> (h < length (heap c))%nat) as Hvalid.
    { intros h ->. symmetry in Hlast. apply last_Some_elem_of in Hlast.
      by eapply dll_bound; [apply HL|]. }
    destruct (assign_step now kv rest lastAdded lim c Hvalid)
      as (c1 & Heq & Hlen & Hkm & _ & _ & _ & _ & _ & HL1).
    rewrite fmap_cons in Hnd. apply NoDup_cons in Hnd as [Hk Hnd].
    specialize (HL1 l HL Hlast (Hfresh _ ltac:(rewrite fmap_cons; by left))).
    rewrite Heq. destruct (decide (lim = 0)) as [->|Hne].
    { exfalso. apply Hns. unfold stops. cbn [length].
      assert (0 < MAX_VALUE) by (unfold MAX_VALUE; lia). lia. }
    destruct (IH (Some (length (heap c))) (post_dec lim) c1 _ HL1)
      as (c' & Hrun & HL').
    + rewrite fmap_app. cbn [fmap list_fmap fst]. by rewrite last_snoc.
    + done.
    + intros k' Hk'. rewrite Hkm. rewrite lookup_insert_ne.
      * apply Hfresh. rewrite fmap_cons. by right.
      * intros <-. done.
    + intros Hs'. apply Hns. by apply (proj2 (stops_cons lim kv rest Hne)).
    + exists c'. rewrite Hlen in *. cbn [fresh_chain].
      replace (l ++ (length (heap c), (kv, now)) :: fresh_chain (S (length (heap c))) now rest)
        with ((l ++ [(length (heap c), (kv, now))]) ++ fresh_chain (S (length (heap c))) now rest)
        by (by rewrite <- app_assoc).
      done.
Qed.

End Assign.

(** ** The index and the chain count the same entries; assign and toJSON *)

Section BulkLoad.
Context {K : Type} `{Countable K} {V : Type}.
Implicit Types (c : @LRUCache K _ _ V) (hp : list (@Entry K V))
  (l : list (handle * @item K V)) (x : handle * @item K V) (km : gmap K handle).

Lemma indexes_keys km l :
  NoDup l.*1 -> indexes km l ->
  NoDup (key_of <$> items_of l) /\ base.size km = length l.
Proof.
  revert km. induction l as [|[h [[k v] t]] l IH]; intros km Hnd Hkm.
  - apply indexes_nil in Hkm as ->. split; [apply NoDup_nil_2|]. apply map_size_empty.
  - pose proof (indexes_delete km [] (h, (k, v, t)) l Hnd Hkm) as Hkm'.
    cbn [app] in Hkm'. unfold key_of in Hkm'. cbn [fst snd] in Hkm'.
    rewrite fmap_cons in Hnd. apply NoDup_cons in Hnd as [Hh Hnd].
    destruct (IH _ Hnd Hkm') as [Hkeys Hsize].
    assert (km !! k = Some h) as Hk.
    { apply Hkm. exists v, t. by left. }
    split.
    + unfold items_of in *. rewrite !fmap_cons. apply NoDup_cons. split; [|done].
      intros Hin. apply list_elem_of_fmap in Hin as ([[k' v'] t'] & Hk' & Hin).
      apply list_elem_of_fmap in Hin as ([h' it] & Hit & Hin).
      unfold key_of in Hk'. cbn [fst snd] in *. subst it k'.
      assert (km !! k = Some h') as Hk2.
      { apply Hkm. exists v', t'. by right. }
      assert (h' = h) as -> by congruence.
      apply Hh. by apply (list_elem_of_fmap_2 fst) in Hin.
    + cbn [length]. rewrite <- Hsize.
      rewrite <- (insert_delete_id km k h Hk) at 1.
      rewrite map_size_insert_None by apply lookup_delete_eq. done.
Qed.

Lemma Rep_keys_NoDup c l : Rep c l -> NoDup (key_of <$> items_of l).
Proof. intros [Hnd _ _ _ _ Hkm]. by apply (indexes_keys _ _ Hnd Hkm). Qed.

Lemma fresh_chain_items n now (es : list (K * V)) :
  items_of (fresh_chain n now es) = (fun kv => (kv, now)) <$> es.
Proof.
  revert n. induction es as [|kv es IH]; intros n; [done|].
  unfold items_of in *. cbn [fresh_chain]. rewrite !fmap_cons. by rewrite IH.
Qed.

Lemma fresh_chain_length n now (es : list (K * V)) :
  length (fresh_chain n now es) = length es.
Proof. revert n. induction es as [|kv es IH]; intros n; [done|]. simpl. by rewrite IH. Qed.

Lemma stops_assign_limit c (es : list (K * V)) :
  limit c <= 0 \/ Z.of_nat (length es) <= limit c -> ~ stops (assign_limit c) es.
Proof.
  unfold stops, assign_limit. intros Hlim [Hrange Hlen].
  destruct (decide (limit c = 0)); lia.
Qed.

Lemma assign_Rep c now es :
  NoDup es.*1 -> (es <> [] \/ tail c = None) ->
  limit c <= 0 \/ Z.of_nat (length es) <= limit c ->
  exists c',
    assign now es c = (Return tt, c') /\
    Rep c' (fresh_chain (length (heap c)) now es) /\
    limit c' = limit c /\ lifetime c' = lifetime c.
Proof.
  intros Hnd Htail Hlim. apply stops_assign_limit in Hlim.
  unfold assign_limit in Hlim.
  assert (Linked (with_keymap ∅ c) []) as HL.
  { split; cbn; [apply NoDup_nil_2|done|done|by apply indexes_nil]. }
  destruct (assign_loop_Linked now es None
              (if decide (limit c = 0) then MAX_VALUE else limit c)
              (with_keymap ∅ c) [] HL eq_refl Hnd) as (c' & Hrun & HL'); [|done|].
  { intros k _. apply lookup_empty. }
  destruct (assign_loop_run now es None
              (if decide (limit c = 0) then MAX_VALUE else limit c)
              (with_keymap ∅ c)) as (o & c'' & Hrun' & _ & _ & _ & _ & _ & Hl & Hlt & _).
  { done. }
  rewrite Hrun in Hrun'. injection Hrun' as <- <-.
  cbn [app heap with_keymap] in *.
  unfold assign. cbv beta iota zeta delta [bind gets modify].
  rewrite Hrun. eexists. split; [reflexivity|].
  destruct HL' as [Hnd' Hdll Htl Hkm].
  destruct (indexes_keys _ _ Hnd' Hkm) as [_ Hsize].
  split; [|done].
  split; cbn; try done.
  - rewrite Htl. destruct es as [|kv es]; [|done].
    cbn in Hrun. injection Hrun as <-. cbn. by destruct Htail.
  - by rewrite Hsize.
Qed.



End BulkLoad.

(** ** [size] against [limit] *)

Section Counting.
Context {K : Type} `{Countable K} {V : Type}.
Implicit Types (c : @LRUCache K _ _ V).

Lemma shrinks_refl c : shrinks c c.
Proof. split; [lia|done]. Qed.

Lemma shrinks_trans c1 c2 c3 : shrinks c1 c2 -> shrinks c2 c3 -> shrinks c1 c3.
Proof. intros [? ?] [? ?]. split; [lia|congruence]. Qed.

Local Ltac shrinks_hyps :=
  first [ exact shrinks_refl | exact shrinks_trans
        | by (intros; split; cbn; [lia|done]) ].




Lemma shrinks_removeLRUItem c : shrinks c (removeLRUItem c).2.
Proof. apply keeps_removeLRUItem; shrinks_hyps. Qed.











End Counting.

(** ** The errors a method throws *)

Section Throws.
Context {S : Type} (E : Error -> Prop).






End Throws.

Section SetThrows.
Context {K : Type} `{Countable K} {V : Type}.

Local Abbreviation crash := (fun e : Error => e = TypeError).










End SetThrows.

Section Reachable.
Context {K : Type} `{Countable K} {V : Type}.
Implicit Types (c : @LRUCache K _ _ V).




End Reachable.


(** ** has, get and set on a cache that satisfies the invariants *)

Lemma age_exceeds_spec now created lt :
  age_exceeds now created lt = true <-> 60000 * lt < now - created.
Proof.
  unfold age_exceeds, ageInMinutes. rewrite negb_true_iff.
  destruct (Qle_bool _ _) eqn:E.
  - apply Qle_bool_iff in E. unfold Qle in E. cbn in E. split; [done|lia].
  - split; [|done]. intros _.
    destruct (decide (60000 * lt < now - created)) as [?|Hn]; [done|].
    assert (Qle_bool (Qmake (now - created) 60000) (inject_Z lt) = true) as E'.
    { apply Qle_bool_iff. unfold Qle. cbn. lia. }
    congruence.
Qed.

Section Methods.
Context {K : Type} `{Countable K} {V : Type}.
Implicit Types (c : @LRUCache K _ _ V) (hp : list (@Entry K V))
  (l : list (handle * @item K V)) (x : handle * @item K V) (km : gmap K handle).

Lemma Rep_constructor now lt lim :
  exists c, @constructor K _ _ V now lt lim None = (Return tt, c) /\ Rep c [] /\
    limit c = default 0 lim /\ lifetime c = lt /\ heap c = [].
Proof.
  eexists. split; [reflexivity|]. split; [|done].
  split; cbn; [apply NoDup_nil_2|done..|by apply indexes_nil].
Qed.

Lemma Rep_lookup c l1 h k v t l2 :
  Rep c (l1 ++ (h, (k, v, t)) :: l2) ->
  _keymap c !! k = Some h /\
  heap c !! h = Some (mkEntry k v t (first_or l2.*1 None) (last l1.*1)).
Proof.
  intros [Hnd Hdll Htl Hhd Hsz Hkm]. split.
  - apply Hkm. exists v, t. apply elem_of_app. right. by left.
  - apply dll_app in Hdll as [_ [Hh _]]. by rewrite last_or_None in Hh.
Qed.

Lemma Rep_absent c l k :
  Rep c l -> k ∉ key_of <$> items_of l -> _keymap c !! k = None.
Proof.
  intros HR Hk. destruct (_keymap c !! k) as [h|] eqn:E; [|done].
  apply (rep_keymap _ _ HR) in E as (v & t & Hin). exfalso. apply Hk.
  unfold items_of. apply list_elem_of_fmap. exists (k, v, t). split; [done|].
  apply list_elem_of_fmap. by exists (h, (k, v, t)).
Qed.

Lemma Rep_present c l k h :
  Rep c l -> _keymap c !! k = Some h ->
  exists l1 v t l2, l = l1 ++ (h, (k, v, t)) :: l2.
Proof.
  intros HR Hk. apply (rep_keymap _ _ HR) in Hk as (v & t & Hin).
  apply list_elem_of_split in Hin as (l1 & l2 & ->). by exists l1, v, t, l2.
Qed.

(** *** has *)

Lemma has_absent c now k : _keymap c !! k = None -> has now k c = (Return false, c).
Proof.
  intros Hk. unfold has. cbv beta iota zeta delta [bind keymap_get gets]. by rewrite Hk.
Qed.

Lemma has_fresh c l1 h k v t l2 now :
  Rep c (l1 ++ (h, (k, v, t)) :: l2) ->
  lifetime c = 0 \/ now - t <= 60000 * lifetime c ->
  has now k c = (Return true, c).
Proof.
  intros HR Hage. destruct (Rep_lookup _ _ _ _ _ _ _ HR) as [Hk Hh].
  unfold has. cbv beta iota zeta delta [bind keymap_get gets deref ret]. rewrite Hk.
  cbv beta iota. destruct (decide (lifetime c = 0)) as [|Hlt]; [done|].
  rewrite Hh. cbn [created_at].
  destruct (age_exceeds now t (lifetime c)) eqn:E; [|done].
  apply age_exceeds_spec in E. lia.
Qed.

Lemma has_expired c l1 h k v t l2 now :
  Rep c (l1 ++ (h, (k, v, t)) :: l2) ->
  lifetime c <> 0 -> 60000 * lifetime c < now - t ->
  exists c', has now k c = (Return false, c') /\ Rep c' (l1 ++ l2) /\
    delete_ k c = (Return (Some v), c').
Proof.
  intros HR Hlt Hage. destruct (Rep_lookup _ _ _ _ _ _ _ HR) as [Hk Hh].
  destruct (delete_Rep _ _ _ _ HR) as (c' & Hdel & HR' & _).
  unfold key_of, value_of in Hdel. cbn [fst snd] in Hdel.
  exists c'. split; [|done].
  unfold has. cbv beta iota zeta delta [bind keymap_get gets deref ret]. rewrite Hk.
  cbv beta iota. destruct (decide (lifetime c = 0)) as [|_]; [done|].
  rewrite Hh. cbn [created_at].
  apply age_exceeds_spec in Hage. rewrite Hage, Hdel. done.
Qed.

(** *** get *)

Lemma get_absent c now k : _keymap c !! k = None -> get now k c = (Throw notFound, c).
Proof.
  intros Hk. unfold get. cbv beta iota zeta delta [bind]. by rewrite (has_absent c now k Hk).
Qed.

Lemma get_expired c l1 h k v t l2 now :
  Rep c (l1 ++ (h, (k, v, t)) :: l2) ->
  lifetime c <> 0 -> 60000 * lifetime c < now - t ->
  exists c', get now k c = (Throw notFound, c') /\ Rep c' (l1 ++ l2) /\
    has now k c = (Return false, c').
Proof.
  intros HR Hlt Hage.
  destruct (has_expired _ _ _ _ _ _ _ now HR Hlt Hage) as (c' & Hhas & HR' & _).
  exists c'. split; [|done].
  unfold get. cbv beta iota zeta delta [bind]. by rewrite Hhas.
Qed.

Lemma get_fresh c l1 h k v t l2 now :
  Rep c (l1 ++ (h, (k, v, t)) :: l2) ->
  lifetime c = 0 \/ now - t <= 60000 * lifetime c ->
  exists c', get now k c = (Return v, c') /\ Rep c' (l1 ++ l2 ++ [(h, (k, v, t))]) /\
    this_created_at c' = this_created_at c.
Proof.
  intros HR Hage. destruct (Rep_lookup _ _ _ _ _ _ _ HR) as [Hk Hh].
  destruct (markEntryAsUsed_Rep _ _ _ _ now false HR) as (c' & Hmark & HR' & Htca).
  cbn [fst] in Hmark.
  exists c'. split; [|done].
  assert (heap c' !! h = Some (mkEntry k v t None (last (l1 ++ l2).*1))) as Hh'.
  { rewrite app_assoc in HR'.
    destruct (Rep_lookup _ _ _ _ _ _ _ HR') as [_ Hh']. by rewrite Hh'. }
  unfold get. cbv beta iota zeta delta [bind keymap_get gets deref ret].
  rewrite (has_fresh _ _ _ _ _ _ _ now HR Hage). cbv beta iota zeta delta [negb].
  rewrite Hk, Hmark. cbv beta iota. rewrite Hh'. done.
Qed.

(** *** set *)

Lemma set_new_room c l now k v :
  Rep c l -> _keymap c !! k = None -> size c + 1 <= limit c ->
  exists c', set now k v c = (Return tt, c') /\
    Rep c' (l ++ [(length (heap c), (k, v, now))]) /\
    limit c' = limit c /\ lifetime c' = lifetime c.
Proof.
  intros HR Hk Hroom.
  destruct (set_new_insert c l now k v HR Hk) as (c1 & Hset & HR1 & Hl & Hlt & _).
  exists c1. rewrite Hset. destruct (decide (limit c < size c + 1)); [lia|done].
Qed.

Lemma set_new_full c l now k v :
  Rep c l -> _keymap c !! k = None -> limit c < size c + 1 ->
  exists c1 x rest r c',
    Rep c1 (l ++ [(length (heap c), (k, v, now))]) /\
    l ++ [(length (heap c), (k, v, now))] = x :: rest /\
    removeLRUItem c1 = (Return r, c') /\ r = Some x.2.1 /\
    set now k v c = (Return tt, c') /\
    Rep c' rest /\ limit c' = limit c /\ lifetime c' = lifetime c.
Proof.
  intros HR Hk Hfull.
  destruct (set_new_insert c l now k v HR Hk) as (c1 & Hset & HR1 & Hl & Hlt & _).
  destruct (l ++ [(length (heap c), (k, v, now))]) as [|x rest] eqn:El.
  { by destruct l. }
  destruct (removeLRUItem_cons c1 x rest HR1) as (c' & Hrem & HR' & _).
  exists c1, x, rest, (Some x.2.1), c'. split_and!; try done.
  - rewrite Hset. destruct (decide (limit c < size c + 1)); [|lia].
    cbv beta iota zeta delta [bind ret]. by rewrite Hrem.
  - destruct (config_kept_exec call_removeLRUItem c1) as [Hl' _].
    cbn [exec] in Hl'. rewrite Hrem in Hl'. cbn in Hl'. congruence.
  - destruct (config_kept_exec call_removeLRUItem c1) as [_ Hl'].
    cbn [exec] in Hl'. rewrite Hrem in Hl'. cbn in Hl'. congruence.
Qed.

Lemma set_existing c l1 h k v0 t l2 now v :
  Rep c (l1 ++ (h, (k, v0, t)) :: l2) ->
  exists c', set now k v c = (Return tt, c') /\
    Rep c' (l1 ++ l2 ++ [(h, (k, v, t))]) /\
    this_created_at c' = match l2 with [] => this_created_at c | _ => Some now end.
Proof.
  intros HR. destruct (Rep_lookup _ _ _ _ _ _ _ HR) as [Hk _].
  destruct (set_value_Rep _ _ _ _ _ _ _ v HR) as (c1 & Hval & HR1 & Htca1).
  destruct (markEntryAsUsed_Rep _ _ _ _ now true HR1) as (c' & Hmark & HR' & Htca).
  cbn [fst] in Hmark.
  exists c'. split; [|split; [done|]].
  - unfold set. cbv beta iota zeta delta [bind keymap_get gets]. rewrite Hk.
    cbv beta iota. rewrite Hval. cbv beta iota. by rewrite Hmark.
  - rewrite Htca, Htca1. done.
Qed.

End Methods.
(** ** Facts shared by the properties below *)

Section Invariant.
Context {K : Type} `{Countable K} {V : Type}.
Implicit Types (c : @LRUCache K _ _ V) (l : list (handle * @item K V)).

Lemma indexes_dom (km : gmap K handle) l :
  indexes km l -> dom km = list_to_set (key_of <$> items_of l).
Proof.
  intros Hkm. apply set_eq. intros k.
  rewrite elem_of_dom, elem_of_list_to_set. unfold items_of. split.
  - intros [h Hh]. apply Hkm in Hh as (v & t & Hin).
    apply list_elem_of_fmap. exists (k, v, t). split; [done|].
    apply list_elem_of_fmap. by exists (h, (k, v, t)).
  - intros Hin. apply list_elem_of_fmap in Hin as ([[k' v] t] & -> & Hin).
    apply list_elem_of_fmap in Hin as ([h it] & Hit & Hin). cbn in Hit. subst it.
    exists h. apply Hkm. by exists v, t.
Qed.

Lemma exec_set c now k v c' :
  set now k v c = (Return tt, c') ->
  exec (call_set now k v) c = c' /\ raised (call_set now k v) c = None.
Proof. intros Hrun. cbn [exec raised]. by rewrite Hrun. Qed.

Lemma Rep_empty c : is_empty c <-> Rep c [].
Proof.
  split.
  - intros (Hsz & Htl & Hhd & Hkm). split; cbn; try done.
    + apply NoDup_nil_2.
    + by apply indexes_nil.
  - intros [_ _ Htl Hhd Hsz Hkm]. apply indexes_nil in Hkm. by split_and!.
Qed.

Lemma Rep_new_cache now lt lim :
  Rep (@new_cache K _ _ V now lt lim None) [] /\
  limit (@new_cache K _ _ V now lt lim None) = default 0 lim /\
  lifetime (@new_cache K _ _ V now lt lim None) = lt.
Proof.
  destruct (@Rep_constructor K _ _ V now lt lim) as (c & Hc & HR & Hl & Hlt & _).
  unfold new_cache. by rewrite Hc.
Qed.


Lemma set_on_empty_zero c now k v :
  is_empty c -> limit c = 0 ->
  raised (call_set now k v) c = None /\
  is_empty (exec (call_set now k v) c) /\ limit (exec (call_set now k v) c) = 0.
Proof.
  intros Hemp Hl. apply Rep_empty in Hemp.
  destruct (set_new_full c [] now k v Hemp) as (c1 & x & rest & r & c' & _ & El & _ & _ & Hset & HR' & Hl' & _).
  { by apply (Rep_absent _ _ _ Hemp), not_elem_of_nil. }
  { rewrite (rep_size _ _ Hemp), Hl. cbn. lia. }
  cbn [app] in El. injection El as <- <-.
  destruct (exec_set _ _ _ _ _ Hset) as [-> ->].
  split; [done|]. split; [by apply Rep_empty|congruence].
Qed.


Lemma indexes_list_to_map (km : gmap K handle) l :
  NoDup (key_of <$> items_of l) ->
  km = list_to_map ((fun x => (key_of x.2, x.1)) <$> l) ->
  indexes km l.
Proof.
  intros Hnd -> k h.
  rewrite <- elem_of_list_to_map.
  - rewrite list_elem_of_fmap. split.
    + intros ([h' [[k' v] t]] & [= -> ->] & Hin). by exists v, t.
    + intros (v & t & Hin). by exists (h, (k, v, t)).
  - rewrite <- list_fmap_compose. unfold items_of in Hnd.
    rewrite <- list_fmap_compose in Hnd. exact Hnd.
Qed.

Lemma dom_index_from n (es : list (K * V)) (km : gmap K handle) :
  dom (index_from n es km) = dom km ∪ list_to_set es.*1.
Proof.
  revert n km. induction es as [|kv es IH]; intros n km; cbn [index_from].
  - cbn. set_solver.
  - rewrite IH, dom_insert_L, fmap_cons, list_to_set_cons. set_solver.
Qed.

(** What [Rep] says in the words of the interface: the traversal from the
    oldest end yields the keys of the index, each once, and [size] of them. *)
Lemma Rep_consistent c l :
  Rep c l ->
  exists ks, keys c = Some ks /\ NoDup ks /\
    dom (_keymap c) = list_to_set ks /\ Z.of_nat (length ks) = size c.
Proof.
  intros HR. exists (key_of <$> items_of l). split_and!.
  - by apply Rep_keys.
  - by eapply Rep_keys_NoDup.
  - apply indexes_dom, HR.
  - unfold items_of. rewrite !length_fmap. symmetry. apply HR.
Qed.

Lemma clear_Rep c : clear c = (Return tt, (clear c).2) /\ Rep (clear c).2 [].
Proof.
  split; [done|]. apply Rep_empty. by split_and!.
Qed.

Lemma find_same c l k : Rep c l -> (find k c).2 = c /\ exists r, (find k c).1 = Return r.
Proof.
  intros HR. unfold find. cbv beta iota zeta delta [bind keymap_get gets].
  destruct (_keymap c !! k) as [h|] eqn:Hk; cbn [fst snd]; [|by eauto].
  destruct (Rep_present c l k h HR Hk) as (l1 & v & t & l2 & ->).
  destruct (Rep_lookup c l1 h k v t l2 HR) as [_ Hh].
  unfold deref, throw, ret. cbn. rewrite Hh. cbn. eauto.
Qed.

(** Every call that fits keeps the representation, and throws nothing but
    the [notFound] of [get]. *)
Lemma WF_exec op c :
  WF c -> assign_fits c op ->
  WF (exec op c) /\ (raised op c = None \/ raised op c = Some notFound).
Proof.
  intros [l HR] Hfit.
  destruct op as [now es|now k|now k|now k v| |k| |k]; cbn [exec raised assign_fits] in *.
  - destruct Hfit as (Hnd & Hne & Hlim).
    destruct (assign_Rep c now es Hnd Hne Hlim) as (c' & -> & HR' & _).
    split; [by eexists|by left].
  - destruct (_keymap c !! k) as [h|] eqn:Hk.
    + destruct (Rep_present c l k h HR Hk) as (l1 & v & t & l2 & ->).
      destruct (decide (lifetime c = 0 \/ now - t <= 60000 * lifetime c)) as [Hfresh|Hold].
      * rewrite (has_fresh c l1 h k v t l2 now HR Hfresh). split; [by eexists|by left].
      * destruct (has_expired c l1 h k v t l2 now HR) as (c' & -> & HR' & _); [lia..|].
        split; [by eexists|by left].
    + rewrite (has_absent c now k Hk). split; [by eexists|by left].
  - destruct (_keymap c !! k) as [h|] eqn:Hk.
    + destruct (Rep_present c l k h HR Hk) as (l1 & v & t & l2 & ->).
      destruct (decide (lifetime c = 0 \/ now - t <= 60000 * lifetime c)) as [Hfresh|Hold].
      * destruct (get_fresh c l1 h k v t l2 now HR Hfresh) as (c' & -> & HR' & _).
        split; [by eexists|by left].
      * destruct (get_expired c l1 h k v t l2 now HR) as (c' & -> & HR' & _); [lia..|].
        split; [by eexists|by right].
    + rewrite (get_absent c now k Hk). split; [by eexists|by right].
  - destruct (_keymap c !! k) as [h|] eqn:Hk.
    + destruct (Rep_present c l k h HR Hk) as (l1 & v0 & t & l2 & ->).
      destruct (set_existing c l1 h k v0 t l2 now v HR) as (c' & -> & HR' & _).
      split; [by eexists|by left].
    + destruct (decide (limit c < size c + 1)) as [Hfull|Hroom].
      * destruct (set_new_full c l now k v HR Hk Hfull)
          as (c1 & x & rest & r & c' & _ & _ & _ & _ & -> & HR' & _).
        split; [by eexists|by left].
      * destruct (set_new_room c l now k v HR Hk) as (c' & -> & HR' & _); [lia|].
        split; [by eexists|by left].
  - destruct l as [|x l].
    + rewrite (removeLRUItem_nil c HR). split; [by eexists|by left].
    + destruct (removeLRUItem_cons c x l HR) as (c' & -> & HR' & _).
      split; [by eexists|by left].
  - destruct (_keymap c !! k) as [h|] eqn:Hk.
    + destruct (Rep_present c l k h HR Hk) as (l1 & v & t & l2 & ->).
      destruct (delete_Rep c l1 (h, (k, v, t)) l2 HR) as (c' & Hdel & HR' & _).
      unfold key_of in Hdel. cbn [fst snd] in Hdel. rewrite Hdel.
      split; [by eexists|by left].
    + unfold delete_. cbv beta iota zeta delta [bind keymap_get gets]. rewrite Hk.
      cbn. split; [by eexists|by left].
  - destruct (clear_Rep c) as [_ HR']. split; [by eexists|by left].
  - destruct (find_same c l k HR) as [-> [r ->]]. split; [by eexists|by left].
Qed.

(** [removeLRUItem] of the class on a cache that holds one entry, and the
    [set] that follows. *)
Lemma removeLRUItem_sole_entry c h k v t now k' v' :
  Rep c [(h, (k, v, t))] -> 0 < limit c ->
  exists c' c'',
    removeLRUItem c = (Return (Some (k, v)), c') /\ is_empty c' /\
    set now k' v' c' = (Return tt, c'') /\
    Rep c'' [(length (heap c'), (k', v', now))].
Proof.
  intros HR Hpos.
  destruct (removeLRUItem_cons c _ _ HR) as (c' & Hrem & HR' & _).
  pose proof (shrinks_removeLRUItem c) as [_ Hlim]. rewrite Hrem in Hlim. cbn in Hlim.
  assert (_keymap c' !! k' = None) as Hk by (by eapply Rep_absent; [exact HR'|set_solver]).
  destruct (set_new_room c' [] now k' v' HR' Hk) as (c'' & Hset & HR'' & _).
  { rewrite (rep_size _ _ HR'). cbn. lia. }
  exists c', c''. split_and!; try done. by apply Rep_empty.
Qed.

End Invariant.

(** The example caches are well formed. *)

Ltac rep_compute :=
  split;
  [ compute_done
  | vm_compute; repeat split
  | reflexivity
  | reflexivity
  | reflexivity
  | apply indexes_list_to_map; [compute_done | vm_compute; reflexivity] ].

Lemma Rep_one_entry : Rep one_entry ([] ++ (0%nat, ("k"%string, 7, 0)) :: []).
Proof. rep_compute. Qed.

Lemma Rep_three_entries :
  Rep three_entries
    [(0%nat, ("A"%string, 10, 1)); (1%nat, ("B"%string, 20, 2)); (2%nat, ("C"%string, 30, 3))].
Proof. rep_compute. Qed.


(** * The properties *)

Section Properties.
Context {K : Type} `{Countable K} {V : Type}.
Implicit Types (c : @LRUCache K _ _ V) (l : list (handle * @item K V)).

(** C1, in the form the code has.  In a well-formed cache with lifetime
    [L > 0] that holds key [k], [has(k)] called at clock value [now] returns
    [false] and removes the entry of [k] (from the index and from the chain,
    the other entries keeping their order) exactly when more than [L] minutes
    have passed since the entry was created, [now - created_at > 60000 * L];
    otherwise it returns [true] and leaves the cache as it is.  A [get] of
    [k] that returns moves the entry to the newest end and does not restart
    that clock: the entry keeps its creation time. *)
Theorem has_expires_by_creation_time c l1 h k v t l2 now :
  Rep c (l1 ++ (h, (k, v, t)) :: l2) -> 0 < lifetime c ->
  (if decide (60000 * lifetime c < now - t)
   then exists c', has now k c = (Return false, c') /\
          Rep c' (l1 ++ l2) /\ _keymap c' !! k = None /\
          keys c' = Some (key_of <$> items_of (l1 ++ l2)) /\
          k ∉ key_of <$> items_of (l1 ++ l2)
   else has now k c = (Return true, c)) /\
  (forall now1 v1 c1, get now1 k c = (Return v1, c1) ->
     v1 = v /\ Rep c1 (l1 ++ l2 ++ [(h, (k, v, t))])).
Proof.
  intros HR Hlt. split.
  - destruct (decide (60000 * lifetime c < now - t)) as [Hexp|Hfresh].
    + destruct (has_expired _ _ _ _ _ _ _ now HR ltac:(lia) Hexp) as (c' & Hhas & HR' & _).
      assert (k ∉ key_of <$> items_of (l1 ++ l2)) as Hk.
      { pose proof (Rep_keys_NoDup _ _ HR) as Hnd. unfold items_of in *.
        rewrite !fmap_app, !fmap_cons in Hnd. apply NoDup_mid in Hnd as (Hk1 & Hk2 & _).
        rewrite !fmap_app. apply not_elem_of_app. by split. }
      exists c'. split_and!; try done.
      * by apply (Rep_absent _ _ _ HR').
      * by apply Rep_keys.
    + apply (has_fresh _ _ _ _ _ _ _ now HR). lia.
  - intros now1 v1 c1 Hget.
    destruct (decide (60000 * lifetime c < now1 - t)) as [Hexp|Hfresh].
    + destruct (get_expired _ _ _ _ _ _ _ now1 HR ltac:(lia) Hexp) as (c' & Hget' & _).
      congruence.
    + destruct (get_fresh _ _ _ _ _ _ _ now1 HR ltac:(lia)) as (c' & Hget' & HR' & _).
      rewrite Hget in Hget'. by injection Hget' as -> ->.
Qed.

(** C2, in the form the code has.  A cache constructed with capacity 0 and
    without initial entries holds nothing: every [set] of every sequence of
    [set] calls returns, and after the sequence the cache is empty ([size]
    is 0, both ends undefined, the index empty), the traversal yields no
    entry and [find] answers no key.  Each [set] evicts the entry it has just
    inserted; capacity 0 stands for no bound only in the loop of [assign]. *)
Theorem capacity_zero_holds_nothing now lt (sets : list (Z * K * V)) :
  let calls := (fun s => call_set s.1.1 s.1.2 s.2) <$> sets in
  let c0 := @new_cache K _ _ V now lt (Some 0) None in
  let c := run calls c0 in
  all_return calls c0 /\
  is_empty c /\ entries c = Some [] /\
  (forall k, (find k c).1 = Return None).
Proof.
  cbn zeta.
  destruct (@Rep_new_cache K _ _ V now lt (Some 0)) as (HR0 & Hl0 & _).
  apply Rep_empty in HR0. cbn [default] in Hl0.
  revert HR0 Hl0. generalize (@new_cache K _ _ V now lt (Some 0) None).
  induction sets as [|[[t k] v] sets IH]; intros c Hemp Hl.
  - cbn. split; [done|]. split; [done|]. apply Rep_empty in Hemp as HR.
    split; [by rewrite (Rep_entries _ _ HR)|].
    intros k. unfold find. cbv beta iota zeta delta [bind keymap_get gets].
    destruct Hemp as (_ & _ & _ & ->). by rewrite lookup_empty.
  - rewrite fmap_cons. cbn [run foldl all_return fst snd].
    destruct (set_on_empty_zero c t k v Hemp Hl) as (Hret & Hemp' & Hl').
    destruct (IH _ Hemp' Hl') as (Hall & Hfinal).
    split; [by split|]. exact Hfinal.
Qed.


(** C4, in the form the code has.  For the class [LRUCache], in a
    well-formed state: [get(key)] throws [notFound] if and only if the key is
    not in the index or its entry has expired (expiry is switched on and the
    age of the entry exceeds the lifetime); when it throws, [has(key)] would
    have returned [false] and left the same state, so the expired entry has
    been deleted; when it returns, [has(key)] would have returned [true], the
    value is the stored one, the entry has moved to the newest end of the
    chain with the order of the others kept, and [size] is unchanged.  For
    [LRUMap] of [lru.js], [get] of a key that is not in the index returns
    [undefined] and throws nothing. *)
Theorem get_raises_notFound c l now k :
  Rep c l ->
  ((get now k c).1 = Throw notFound <->
     _keymap c !! k = None \/
     exists h e, _keymap c !! k = Some h /\ heap c !! h = Some e /\
       lifetime c <> 0 /\ age_exceeds now (created_at e) (lifetime c) = true) /\
  ((get now k c).1 = Throw notFound ->
     (has now k c).1 = Return false /\ (get now k c).2 = (has now k c).2) /\
  (forall v c', get now k c = (Return v, c') ->
     has now k c = (Return true, c) /\ (find k c).1 = Return (Some v) /\
     size c' = size c /\
     exists l1 h t l2, l = l1 ++ (h, (k, v, t)) :: l2 /\
       Rep c' (l1 ++ l2 ++ [(h, (k, v, t))]) /\
       keys c' = Some ((key_of <$> items_of (l1 ++ l2)) ++ [k])) /\
  (forall (m : @LRUMap.LRUMap K _ _ V) k',
     LRUMap._keymap m !! k' = None -> LRUMap.get k' m = (Return None, m)).
Proof.
  intros HR.
  assert (forall (m : @LRUMap.LRUMap K _ _ V) k',
     LRUMap._keymap m !! k' = None -> LRUMap.get k' m = (Return None, m)) as Hmap.
  { intros m k' Hk'. unfold LRUMap.get.
    cbv beta iota zeta delta [bind LRUMap.keymap_get gets]. by rewrite Hk'. }
  destruct (_keymap c !! k) as [h|] eqn:Hk.
  - destruct (Rep_present _ _ _ _ HR Hk) as (l1 & v & t & l2 & ->).
    destruct (Rep_lookup _ _ _ _ _ _ _ HR) as [_ Hh].
    destruct (decide (lifetime c <> 0 /\ 60000 * lifetime c < now - t)) as [[Hlt Hexp]|Hfresh].
    + destruct (get_expired _ _ _ _ _ _ _ now HR Hlt Hexp) as (c' & Hget & HR' & Hhas).
      rewrite Hget, Hhas. cbn [fst snd]. split_and!; try done.
      split; [|done]. intros _. right. eexists _, _. split_and!; try done.
      by apply age_exceeds_spec.
    + destruct (get_fresh _ _ _ _ _ _ _ now HR ltac:(lia)) as (c' & Hget & HR' & _).
      rewrite Hget. cbn [fst snd]. split_and!; try done.
      * split; [done|]. intros [?|(h' & e & Hk' & He & Hlt & Hage)]; [done|].
        injection Hk' as <-. rewrite Hh in He. injection He as <-.
        apply age_exceeds_spec in Hage. cbn in Hage. lia.
      * intros v' c'' [= <- <-]. split_and!.
        -- apply (has_fresh _ _ _ _ _ _ _ now HR). lia.
        -- unfold find. cbv beta iota zeta delta [bind keymap_get gets deref ret].
           by rewrite Hk, Hh.
        -- rewrite (rep_size _ _ HR'), (rep_size _ _ HR).
           repeat (rewrite ?length_app; cbn [length]). lia.
        -- exists l1, h, t, l2. split_and!; try done.
           rewrite (Rep_keys _ _ HR'). unfold items_of. by rewrite app_assoc, !fmap_app.
  - rewrite (get_absent c now k Hk), (has_absent c now k Hk). cbn [fst snd].
    split_and!; try done. split; [by left|done].
Qed.

(** C5.  In a cache of capacity 3 the calls [set(A)], [set(B)], [set(C)],
    [set(D)] with four distinct keys all return; afterwards the traversal
    from oldest to newest yields exactly [B], [C], [D] with their values, the
    index holds exactly the keys [B], [C], [D] and [size] is 3; a call of
    [removeLRUItem] made just before [set(D)] returns [A] with its value. *)
Theorem capacity_three_evicts_oldest now lt (a b c d : K) (va vb vc vd : V) t1 t2 t3 t4 :
  NoDup [a; b; c; d] ->
  let s3 := run [call_set t1 a va; call_set t2 b vb; call_set t3 c vc]
                (new_cache now lt (Some 3) None) in
  let s4 := exec (call_set t4 d vd) s3 in
  all_return [call_set t1 a va; call_set t2 b vb; call_set t3 c vc; call_set t4 d vd]
             (new_cache now lt (Some 3) None) /\
  entries s4 = Some [(b, vb); (c, vc); (d, vd)] /\
  dom (_keymap s4) = {[b; c; d]} /\
  size s4 = 3 /\
  (removeLRUItem s3).1 = Return (Some (a, va)).
Proof.
  intros Hnd. cbn [run foldl all_return].
  destruct (@Rep_new_cache K _ _ V now lt (Some 3)) as (HR0 & Hl0 & _).
  set (s0 := new_cache now lt (Some 3) None) in *. cbn [default] in Hl0.
  apply NoDup_cons in Hnd as [Ha Hnd]. apply NoDup_cons in Hnd as [Hb Hnd].
  apply NoDup_cons in Hnd as [Hc _].
  destruct (set_new_room s0 [] t1 a va HR0) as (s1 & E1 & HR1 & Hl1 & _).
  { apply (Rep_absent _ _ _ HR0). cbn. apply not_elem_of_nil. }
  { rewrite (rep_size _ _ HR0), Hl0. cbn. lia. }
  destruct (exec_set _ _ _ _ _ E1) as [-> ->]. cbn [app] in HR1.
  destruct (set_new_room s1 _ t2 b vb HR1) as (s2 & E2 & HR2 & Hl2 & _).
  { apply (Rep_absent _ _ _ HR1). cbn. set_solver. }
  { rewrite (rep_size _ _ HR1), Hl1, Hl0. cbn. lia. }
  destruct (exec_set _ _ _ _ _ E2) as [-> ->]. cbn [app] in HR2.
  destruct (set_new_room s2 _ t3 c vc HR2) as (s3 & E3 & HR3 & Hl3 & _).
  { apply (Rep_absent _ _ _ HR2). cbn. set_solver. }
  { rewrite (rep_size _ _ HR2), Hl2, Hl1, Hl0. cbn. lia. }
  destruct (exec_set _ _ _ _ _ E3) as [-> ->]. cbn [app] in HR3.
  destruct (set_new_full s3 _ t4 d vd HR3) as (s3i & x & rest & r & s4 & _ & El & _ & _ & E4 & HR4 & _).
  { apply (Rep_absent _ _ _ HR3). cbn. set_solver. }
  { rewrite (rep_size _ _ HR3), Hl3, Hl2, Hl1, Hl0. cbn. lia. }
  destruct (exec_set _ _ _ _ _ E4) as [-> ->].
  cbn [app] in El. injection El as <- <-.
  destruct (removeLRUItem_cons s3 _ _ HR3) as (s3' & Erem & _).
  split_and!; try done.
  - by rewrite (Rep_entries _ _ HR4).
  - rewrite (indexes_dom _ _ (rep_keymap _ _ HR4)). cbn. set_solver.
  - by rewrite (rep_size _ _ HR4).
  - by rewrite Erem.
Qed.



(** C10.  [assign] is not atomic.  On a cache with a positive capacity
    [limit], with an input longer than [limit] whose first [limit + 1] keys
    are distinct, [assign] throws [overflow] after it has cleared the index
    and indexed the first [limit + 1] pairs of the input: the index then
    holds exactly those [limit + 1] keys, [size] and the newest end are the
    ones from before the call, and the state differs from the state before
    the call. *)
Theorem assign_overflow_leaves_partial_state c now es :
  0 < limit c -> limit c < MAX_VALUE -> limit c < Z.of_nat (length es) ->
  NoDup (take (S (Z.to_nat (limit c))) es).*1 ->
  exists c',
    assign now es c = (Throw overflow, c') /\
    _keymap c' = index_from (length (heap c)) (take (S (Z.to_nat (limit c))) es) ∅ /\
    dom (_keymap c') = list_to_set (take (S (Z.to_nat (limit c))) es).*1 /\
    Z.of_nat (base.size (_keymap c')) = limit c + 1 /\
    size c' = size c /\ head c' = head c /\
    length (heap c') = (length (heap c) + S (Z.to_nat (limit c)))%nat /\
    c' <> c.
Proof.
  intros Hpos Hmax Hlen Hnd.
  destruct (assign_loop_run now es None (limit c) (with_keymap ∅ c))
    as (o & c' & Hrun & Hstop & _ & Hkm & Hsz & Hhd & _ & _ & _ & Hheap); [done|].
  rewrite (Hstop ltac:(split; lia)) in Hrun.
  unfold assigned in *. rewrite bool_decide_eq_true_2 in * by lia.
  cbn [heap _keymap size head with_keymap] in *.
  assert (length (take (S (Z.to_nat (limit c))) es) = S (Z.to_nat (limit c))) as Htake.
  { rewrite length_take. lia. }
  rewrite Htake in Hheap.
  exists c'. split_and!; try done.
  - unfold assign. cbv beta iota zeta delta [bind gets modify].
    destruct (decide (limit c = 0)); [lia|]. by rewrite Hrun.
  - rewrite Hkm, dom_index_from, dom_empty_L. set_solver.
  - rewrite <- size_dom, Hkm, dom_index_from, dom_empty_L, (left_id_L ∅ (∪)).
    rewrite size_list_to_set by done. rewrite length_fmap, Htake. lia.
  - intros ->. lia.
Qed.

End Properties.

(** ** The properties on the example caches *)

Local Open Scope string_scope.

Lemma has_expires_by_creation_time_witness :
  Rep one_entry ([] ++ (0%nat, ("k", 7, 0)) :: []) /\ 0 < lifetime one_entry /\
  (has 90000 "k" one_entry).1 = Return false.
Proof.
  assert (0 < lifetime one_entry) as Hlt by (by vm_compute).
  split; [exact Rep_one_entry|]. split; [exact Hlt|].
  destruct (has_expires_by_creation_time one_entry [] 0%nat "k" 7 0 [] 90000
              Rep_one_entry Hlt) as [Hhas _].
  destruct (decide (60000 * lifetime one_entry < 90000 - 0)) as [_|Hn].
  - destruct Hhas as (c' & -> & _). reflexivity.
  - exfalso. apply Hn. by vm_compute.
Defined.

(** Lifetime one minute; [set("k", 7)] at 0 ms, [get("k")] at 60000 ms
    returns, and [has("k")] at 90000 ms, half a minute after that [get],
    returns [false] and has removed the entry. *)
Lemma has_after_get_counterexample :
  let c2 := exec (call_get 60000 "k") one_entry in
  raised (call_get 60000 "k") one_entry = None /\
  ~ (60000 * lifetime c2 < 90000 - 60000) /\
  (has 90000 "k" c2).1 = Return false /\
  _keymap (has 90000 "k" c2).2 !! "k" = None.
Proof. vm_compute. split_and!; done. Qed.

(** [new LRUCache(0, 0)], then [set("a", 1)]: the call returns, [size] is 0
    and not 1, and ["a"] is not retrievable. *)
Lemma capacity_zero_counterexample :
  let c := exec (call_set 0 "a" 1) (@new_cache string _ _ Z 0 0 (Some 0) None) in
  raised (call_set 0 "a" 1) (@new_cache string _ _ Z 0 0 (Some 0) None) = None /\
  size c = 0 /\ size c <> 1 /\ (find "a" c).1 = Return None /\ (has 0 "a" c).1 = Return false.
Proof. vm_compute. split_and!; done. Qed.


(** Why [reachable] stops at a TypeError.  [new LRUCache(0, 1)], [set("a", 1)],
    then [assign([["x", 1], ["y", 2]])] throws [overflow] and leaves a chain
    that ends early; [set("z", 3)] returns; [set("w", 4)] has counted the new
    entry when its [removeLRUItem] dies on [this.tail[NEXT]] with a
    TypeError; after that [size] is 2 with [limit] 1, and a [set] on the
    key ["z"] returns without changing it. *)
Lemma set_after_TypeError :
  let c0 := @new_cache string _ _ Z 0 0 (Some 1) None in
  let c1 := exec (call_set 0 "a" 1) c0 in
  let c2 := exec (call_assign 0 [("x", 1); ("y", 2)]) c1 in
  let c3 := exec (call_set 0 "z" 3) c2 in
  let c4 := exec (call_set 0 "w" 4) c3 in
  let c5 := exec (call_set 0 "z" 5) c4 in
  raised (call_set 0 "a" 1) c0 = None /\
  raised (call_assign 0 [("x", 1); ("y", 2)]) c1 = Some overflow /\
  raised (call_set 0 "z" 3) c2 = None /\ size c3 = 1 /\
  raised (call_set 0 "w" 4) c3 = Some TypeError /\
  raised (call_set 0 "z" 5) c4 = None /\
  size c5 = 2 /\ limit c5 = 1.
Proof. vm_compute. split_and!; done. Qed.

Lemma get_raises_notFound_witness :
  Rep one_entry ([] ++ (0%nat, ("k", 7, 0)) :: []) /\
  (get 90000 "k" one_entry).1 = Throw notFound.
Proof.
  split; [exact Rep_one_entry|].
  destruct (get_raises_notFound one_entry _ 90000 "k" Rep_one_entry) as [Hiff _].
  apply Hiff. right. exists 0%nat, (mkEntry "k" 7 0 None None).
  split_and!; by vm_compute.
Defined.

(** [new LRUMap(3)] of [lru.js], then [get("x")]: the key is absent and the
    call returns [undefined]. *)
Lemma lru_js_get_counterexample :
  let m := (@LRUMap.constructor string _ _ Z (Some 3) None).2 in
  LRUMap._keymap m !! "x" = None /\
  (LRUMap.get "x" m).1 = Return None /\
  (LRUMap.get "x" m).1 <> Throw notFound.
Proof. vm_compute. split_and!; done. Qed.

Lemma capacity_three_evicts_oldest_witness :
  NoDup ["A"; "B"; "C"; "D"] /\
  let s3 := run [call_set 1 "A" 10; call_set 2 "B" 20; call_set 3 "C" 30]
                (new_cache 0 0 (Some 3) None) in
  let s4 := exec (call_set 4 "D" 40) s3 in
  all_return [call_set 1 "A" 10; call_set 2 "B" 20; call_set 3 "C" 30; call_set 4 "D" 40]
             (new_cache 0 0 (Some 3) None) /\
  entries s4 = Some [("B", 20); ("C", 30); ("D", 40)] /\
  dom (_keymap s4) = {["B"; "C"; "D"]} /\
  size s4 = 3 /\
  (removeLRUItem s3).1 = Return (Some ("A", 10)).
Proof.
  assert (NoDup ["A"; "B"; "C"; "D"]) as Hnd by compute_done.
  split; [exact Hnd|].
  exact (capacity_three_evicts_oldest 0 0 "A" "B" "C" "D" 10 20 30 40 1 2 3 4 Hnd).
Defined.

(** C6.  [assign] with an input that repeats a key leaves chain and index
    apart.  [new LRUCache(0, 5, [["a", 1], ["a", 2]])] returns; the traversal
    from the oldest end then yields two entries, both with key ["a"], while
    [size] is 1 and the index holds the one key ["a"].  After
    [new LRUCache(0, 5, [["a", 1], ["b", 2], ["a", 3]])], [removeLRUItem]
    returns [("a", 1)] and leaves a chain with the keys ["b"], ["a"] over an
    index that holds ["b"] only, with [size] 1. *)
Theorem assign_duplicate_keys :
  let c := @new_cache string _ _ Z 0 0 (Some 5) (Some [("a", 1); ("a", 2)]) in
  let c' := @new_cache string _ _ Z 0 0 (Some 5) (Some [("a", 1); ("b", 2); ("a", 3)]) in
  (constructor 0 0 (Some 5) (Some [("a", 1); ("a", 2)])).1 = Return tt /\
  keys c = Some ["a"; "a"] /\ size c = 1 /\ dom (_keymap c) = {["a"]} /\
  (constructor 0 0 (Some 5) (Some [("a", 1); ("b", 2); ("a", 3)])).1 = Return tt /\
  (removeLRUItem c').1 = Return (Some ("a", 1)) /\
  keys (removeLRUItem c').2 = Some ["b"; "a"] /\
  dom (_keymap (removeLRUItem c').2) = {["b"]} /\
  size (removeLRUItem c').2 = 1.
Proof. vm_compute. split_and!; done. Qed.

(** The same for [LRUMap] of [lru.js]. *)
Lemma lru_js_assign_duplicate_keys :
  let m := (@LRUMap.constructor string _ _ Z (Some 5) (Some [("a", 1); ("a", 2)])).2 in
  LRUMap.entries m = Some [("a", 1); ("a", 2)] /\ LRUMap.size m = 1 /\
  dom (LRUMap._keymap m) = {["a"]}.
Proof. vm_compute. split_and!; done. Qed.

(** C7.  [removeLRUItem] of [lru.js] on a map that holds one entry returns
    that entry's key and value and empties index and [size], clears [tail],
    but leaves [newest] pointing at the removed entry: it writes a property
    [head] that nothing else in [lru.js] reads.  The [set("b", 2)] that
    follows returns, but links the new entry behind the removed one and
    does not set [tail]: [size] is 1 and [has("b")] is [true], while the
    traversal from [tail] yields nothing and the next [removeLRUItem] throws
    a [TypeError].  On a map that is empty from the start the same [set]
    yields the one entry. *)
Theorem lru_js_removeLRUItem_leaves_newest :
  let m0 := (@LRUMap.constructor string _ _ Z (Some 3) None).2 in
  let m1 := (LRUMap.set "a" 1 m0).2 in
  let r := LRUMap.removeLRUItem m1 in
  let m3 := (LRUMap.set "b" 2 r.2).2 in
  LRUMap.size m1 = 1 /\
  r.1 = Return (Some ("a", 1)) /\
  LRUMap.size r.2 = 0 /\ LRUMap._keymap r.2 = ∅ /\ LRUMap.tail r.2 = None /\
  LRUMap.newest r.2 = Some 0%nat /\
  (LRUMap.set "b" 2 r.2).1 = Return tt /\
  LRUMap.size m3 = 1 /\ LRUMap.tail m3 = None /\
  LRUMap.entries m3 = Some [] /\
  (LRUMap.has "b" m3).1 = Return true /\
  (LRUMap.removeLRUItem m3).1 = Throw TypeError /\
  LRUMap.entries (LRUMap.set "b" 2 m0).2 = Some [("b", 2)] /\
  (LRUMap.removeLRUItem m0).1 = Return None /\ (LRUMap.removeLRUItem m0).2 = m0.
Proof. vm_compute. split_and!; done. Qed.



Lemma assign_overflow_leaves_partial_state_witness :
  0 < limit two_of_two /\ limit two_of_two < MAX_VALUE /\
  limit two_of_two < Z.of_nat (length [("a", 1); ("b", 2); ("c", 3); ("d", 4)]) /\
  NoDup (take (S (Z.to_nat (limit two_of_two)))
           [("a", 1); ("b", 2); ("c", 3); ("d", 4)]).*1 /\
  exists c',
    assign 5 [("a", 1); ("b", 2); ("c", 3); ("d", 4)] two_of_two = (Throw overflow, c') /\
    Z.of_nat (base.size (_keymap c')) = limit two_of_two + 1 /\
    size c' = size two_of_two /\ head c' = head two_of_two /\ c' <> two_of_two.
Proof.
  assert (0 < limit two_of_two) as Hpos by (by vm_compute).
  assert (limit two_of_two < MAX_VALUE) as Hmax by (by vm_compute).
  assert (limit two_of_two < Z.of_nat (length [("a", 1); ("b", 2); ("c", 3); ("d", 4)]))
    as Hlen by (by vm_compute).
  assert (NoDup (take (S (Z.to_nat (limit two_of_two)))
            [("a", 1); ("b", 2); ("c", 3); ("d", 4)]).*1) as Hnd by compute_done.
  split_and!; try assumption.
  destruct (assign_overflow_leaves_partial_state two_of_two 5 _ Hpos Hmax Hlen Hnd)
    as (c' & Hrun & _ & _ & Hsize & Hsz & Hhd & _ & Hne).
  exists c'. by split_and!.
Defined.
(** * More about the class *)

Local Close Scope string_scope.

(** ** The pairs of a chain *)

Section Pairs.
Context {K : Type} `{Countable K} {V : Type}.
Implicit Types (c : @LRUCache K _ _ V) (l : list (handle * @item K V))
  (es : list (K * V)).

Lemma assoc_None k es : assoc k es = None <-> k ∉ es.*1.
Proof.
  induction es as [|[k' v] es IH]; cbn.
  - split; [intros _; apply not_elem_of_nil|done].
  - destruct (decide (k' = k)) as [->|Hne].
    + split; [done|]. intros Hn. exfalso. apply Hn. by left.
    + rewrite IH. rewrite not_elem_of_cons. naive_solver.
Qed.

Lemma assoc_app_fresh k es1 es2 : k ∉ es1.*1 -> assoc k (es1 ++ es2) = assoc k es2.
Proof.
  induction es1 as [|[k' v] es1 IH]; cbn; [done|].
  rewrite not_elem_of_cons. intros [Hne Hk]. destruct (decide (k' = k)); [done|eauto].
Qed.

Lemma assoc_mid k v es1 es2 : k ∉ es1.*1 -> assoc k (es1 ++ (k, v) :: es2) = Some v.
Proof. intros Hk. rewrite assoc_app_fresh by done. cbn. by rewrite decide_True. Qed.

Lemma without_key_fresh k es : k ∉ es.*1 -> without_key k es = es.
Proof.
  induction es as [|[k' v] es IH]; [done|]. rewrite fmap_cons, not_elem_of_cons.
  intros [Hne Hk]. unfold without_key in *. rewrite filter_cons_True by (cbn in *; congruence).
  by rewrite IH.
Qed.

Lemma without_key_mid k v es1 es2 :
  k ∉ es1.*1 -> k ∉ es2.*1 -> without_key k (es1 ++ (k, v) :: es2) = es1 ++ es2.
Proof.
  intros H1 H2. unfold without_key. rewrite filter_app, filter_cons_False by (cbn; tauto).
  fold (without_key k es1). fold (without_key k es2).
  by rewrite !without_key_fresh.
Qed.

Lemma pairs_keys l : (pairs_of l).*1 = key_of <$> items_of l.
Proof. unfold pairs_of, items_of, key_of. by rewrite <- !list_fmap_compose. Qed.

Lemma pairs_app l1 l2 : pairs_of (l1 ++ l2) = pairs_of l1 ++ pairs_of l2.
Proof. unfold pairs_of, items_of. by rewrite !fmap_app. Qed.

(** A well-formed cache whose traversal yields [es]. *)
Lemma WF_entries c es :
  WF c -> entries c = Some es -> exists l, Rep c l /\ pairs_of l = es.
Proof.
  intros [l HR] He. exists l. split; [done|].
  rewrite (Rep_entries c l HR) in He. by injection He.
Qed.

(** Where key [k] sits in the chain of a well-formed cache. *)
Lemma Rep_find_key c l k :
  Rep c l ->
  (assoc k (pairs_of l) = None /\ (k ∉ key_of <$> items_of l) /\ _keymap c !! k = None) \/
  (exists l1 h v t l2, l = l1 ++ (h, (k, v, t)) :: l2 /\
     assoc k (pairs_of l) = Some v /\
     (k ∉ (pairs_of l1).*1) /\ (k ∉ (pairs_of l2).*1) /\ _keymap c !! k = Some h).
Proof.
  intros HR. destruct (_keymap c !! k) as [h|] eqn:Hk.
  - right. destruct (Rep_present c l k h HR Hk) as (l1 & v & t & l2 & ->).
    pose proof (Rep_keys_NoDup c _ HR) as Hnd. rewrite <- pairs_keys, pairs_app in Hnd.
    cbn in Hnd. rewrite fmap_app, fmap_cons in Hnd.
    apply NoDup_mid in Hnd as (H1 & H2 & _). cbn in H1, H2.
    exists l1, h, v, t, l2. split_and!; try done.
    rewrite pairs_app. cbn. by apply assoc_mid.
  - left. assert (k ∉ key_of <$> items_of l) as Hn.
    { intros Hin. apply list_elem_of_fmap in Hin as ([[k' v] t] & Hk' & Hin).
      apply list_elem_of_fmap in Hin as ([h it] & Hit & Hin). cbn in Hit, Hk'. subst.
      assert (_keymap c !! k' = Some h) as E; [|unfold key_of in *; cbn in *; congruence].
      apply (rep_keymap _ _ HR). by exists v, t. }
    split_and!; try done. apply assoc_None. by rewrite pairs_keys.
Qed.

Lemma Rep_size_pairs c l : Rep c l -> size c = Z.of_nat (length (pairs_of l)).
Proof.
  intros HR. unfold pairs_of, items_of. rewrite !length_fmap. apply HR.
Qed.

Lemma pairs_mid l1 h k v t l2 :
  pairs_of (l1 ++ (h, (k, v, t)) :: l2) = pairs_of l1 ++ (k, v) :: pairs_of l2.
Proof. by rewrite pairs_app. Qed.

Lemma pairs_snoc l h k v t : pairs_of (l ++ [(h, (k, v, t))]) = pairs_of l ++ [(k, v)].
Proof. by rewrite pairs_app. Qed.

Lemma Rep_pairs c l : Rep c l -> entries c = Some (pairs_of l).
Proof. apply Rep_entries. Qed.

Lemma Rep_find c l k : Rep c l -> find k c = (Return (assoc k (pairs_of l)), c).
Proof.
  intros HR. unfold find. cbv beta iota zeta delta [bind keymap_get gets].
  destruct (Rep_find_key c l k HR) as [(Ha & Hn & Hk)|(l1 & h & v & t & l2 & -> & Ha & H1 & H2 & Hk)].
  - by rewrite Hk, Ha.
  - rewrite Hk, Ha. destruct (Rep_lookup c l1 h k v t l2 HR) as [_ Hh].
    unfold deref, ret. cbn. by rewrite Hh.
Qed.

(** One call on a well-formed cache in which nothing expires. *)
Lemma exec_follows_the_list op c l :
  Rep c l -> lifetime c = 0 -> lru_fits (limit c) op (pairs_of l) ->
  exists l', Rep (exec op c) l' /\
    pairs_of l' = lru_exec (limit c) op (pairs_of l) /\
    raised op c = lru_raised op (pairs_of l).
Proof.
  intros HR Hlt Hfit.
  destruct op as [now es|now k|now k|now k v| |k| |k];
    cbn [exec raised lru_exec lru_raised lru_fits] in *.
  - destruct Hfit as (Hnd & Hne & Hlim).
    destruct (assign_Rep c now es Hnd) as (c' & Hrun & HR' & _); [|done|].
    { destruct Hne as [?|Hnil]; [by left|right].
      destruct l; [|discriminate]. by rewrite (rep_tail _ _ HR). }
    rewrite Hrun. eexists. split; [exact HR'|]. split; [|done].
    unfold pairs_of. rewrite fresh_chain_items, <- list_fmap_compose. apply list_fmap_id.
  - destruct (Rep_find_key c l k HR) as [(Ha & Hn & Hk)|(l1 & h & v & t & l2 & -> & Ha & H1 & H2 & Hk)].
    + rewrite (has_absent c now k Hk). by exists l.
    + rewrite (has_fresh c l1 h k v t l2 now HR (or_introl Hlt)). by eexists.
  - unfold lru_get.
    destruct (Rep_find_key c l k HR) as [(Ha & Hn & Hk)|(l1 & h & v & t & l2 & -> & Ha & H1 & H2 & Hk)].
    + rewrite (get_absent c now k Hk), Ha. by exists l.
    + destruct (get_fresh c l1 h k v t l2 now HR (or_introl Hlt)) as (c' & -> & HR' & _).
      rewrite Ha. eexists. split; [exact HR'|]. split; [|done].
      rewrite pairs_mid, without_key_mid by done.
      by rewrite !pairs_app, app_assoc.
  - unfold lru_set.
    destruct (Rep_find_key c l k HR) as [(Ha & Hn & Hk)|(l1 & h & v0 & t & l2 & -> & Ha & H1 & H2 & Hk)].
    + rewrite Ha, <- (Rep_size_pairs c l HR).
      destruct (decide (limit c < size c + 1)) as [Hfull|Hroom].
      * destruct (set_new_full c l now k v HR Hk Hfull)
          as (c1 & x & rest & r & c' & _ & El & _ & _ & -> & HR' & _).
        exists rest. split; [done|]. split; [|done].
        rewrite <- (pairs_snoc l (length (heap c)) k v now), El. done.
      * destruct (set_new_room c l now k v HR Hk) as (c' & -> & HR' & _); [lia|].
        eexists. split; [exact HR'|]. split; [|done]. apply pairs_snoc.
    + destruct (set_existing c l1 h k v0 t l2 now v HR) as (c' & -> & HR' & _).
      rewrite Ha. eexists. split; [exact HR'|]. split; [|done].
      rewrite pairs_mid, without_key_mid by done.
      by rewrite !pairs_app, app_assoc.
  - destruct l as [|x l].
    + rewrite (removeLRUItem_nil c HR). by exists [].
    + destruct (removeLRUItem_cons c x l HR) as (c' & -> & HR' & _). by exists l.
  - destruct (Rep_find_key c l k HR) as [(Ha & Hn & Hk)|(l1 & h & v & t & l2 & -> & Ha & H1 & H2 & Hk)].
    + exists l. unfold delete_. cbv beta iota zeta delta [bind keymap_get gets]. rewrite Hk.
      split; [done|]. split; [|done]. symmetry. apply without_key_fresh. by rewrite pairs_keys.
    + destruct (delete_Rep c l1 (h, (k, v, t)) l2 HR) as (c' & Hdel & HR' & _).
      unfold key_of in Hdel. cbn [fst snd] in Hdel. rewrite Hdel.
      eexists. split; [exact HR'|]. split; [|done].
      by rewrite pairs_mid, without_key_mid, pairs_app.
  - destruct (clear_Rep c) as [_ HR']. by exists [].
  - destruct (find_same c l k HR) as [-> [r ->]]. by exists l.
Qed.

(** A sequence of calls on a well-formed cache in which nothing expires. *)
Lemma run_follows_the_list ops c l :
  Rep c l -> lifetime c = 0 -> all_fit (limit c) ops (pairs_of l) ->
  exists l', Rep (run ops c) l' /\
    pairs_of l' = foldl (fun es op => lru_exec (limit c) op es) (pairs_of l) ops.
Proof.
  remember (limit c) as lim eqn:Elim.
  revert c l Elim. induction ops as [|op ops IH]; intros c l Elim HR Hlt Hfit.
  - by exists l.
  - destruct Hfit as [Hfit Hrest]. cbn [run foldl].
    rewrite Elim in Hfit.
    destruct (exec_follows_the_list op c l HR Hlt Hfit) as (l1 & HR1 & El1 & _).
    destruct (config_kept_exec op c) as [Hl Hlt'].
    destruct (IH (exec op c) l1) as (l' & HR' & El'); [congruence|done|congruence| |].
    + by rewrite El1, <- Elim.
    + exists l'. split; [done|]. by rewrite El', El1, <- Elim.
Qed.

End Pairs.

(** ** Traversals, step by step *)

Lemma string_app_assoc (s1 s2 s3 : string) : ((s1 +:+ s2) +:+ s3 = s1 +:+ s2 +:+ s3)%string.
Proof.
  induction s1 as [|a s1 IH]; [done|].
  change (String a ((s1 +:+ s2) +:+ s3) = String a (s1 +:+ s2 +:+ s3))%string. by f_equal.
Qed.

Lemma string_app_nil_r (s : string) : (s +:+ "" = s)%string.
Proof.
  induction s as [|a s IH]; [done|].
  change (String a (s +:+ "") = String a s)%string. by f_equal.
Qed.

Section ClassLemmas.
Context {K : Type} `{Countable K} {V : Type}.
Implicit Types (c : @LRUCache K _ _ V) (hp : list (@Entry K V))
  (l : list (handle * @item K V)) (x : handle * @item K V) (es : list (K * V)).

Lemma for_of_S {A} (next : Iterator -> outcome (option A) * Iterator) fuel it :
  for_of next (S fuel) it =
  match next it with
  | (Return (Some a), it') =>
      match for_of next fuel it' with
      | Some (xs, it'') => Some (a :: xs, it'')
      | None => None
      end
  | (Return None, it') => Some ([], it')
  | (Throw _, _) => None
  end.
Proof. done. Qed.

Lemma for_of_dll {A} (yield : @Entry K V -> A) c o l (extra : nat) :
  dll (heap c) o l None ->
  for_of (iterator_next yield c) (S (length l) + extra) (mkIterator (first_or l.*1 None))
  = Some (yield <$> entries_of l o None, mkIterator None).
Proof.
  revert o. induction l as [|x l IH]; intros o Hdll; [done|].
  destruct Hdll as [Hx Hdll].
  cbn [length Nat.add]. rewrite for_of_S.
  cbn [fmap list_fmap first_or fst].
  unfold iterator_next at 1. cbn [it_entry]. rewrite Hx.
  change (PREVIOUS (entry_of x.2 (first_or l.*1 None) o)) with (first_or l.*1 None).
  pose proof (IH _ Hdll) as IH'. cbn [Nat.add] in IH'. rewrite IH'. done.
Qed.

Lemma entries_of_keys l o n : key <$> entries_of l o n = (pairs_of l).*1.
Proof. by rewrite key_entries_of, pairs_keys. Qed.

Lemma entries_of_values l o n : value <$> entries_of l o n = (pairs_of l).*2.
Proof.
  rewrite value_entries_of. unfold pairs_of, value_of.
  by rewrite <- list_fmap_compose.
Qed.

Lemma entries_of_pairs l o n :
  (fun e => (key e, value e)) <$> entries_of l o n = pairs_of l.
Proof. apply pair_entries_of. Qed.

(** eviction under an iterator *)
Lemma removeLRUItem_purges c x l :
  Rep c (x :: l) ->
  exists c', removeLRUItem c = (Return (Some x.2.1), c') /\ Rep c' l /\
    heap c' !! x.1 = Some (entry_of x.2 None None).
Proof.
  intros [Hnd Hdll Htl Hhd Hsz Hkm].
  destruct c as [lt sz lim tl hd km tca hp]. simpl in *.
  destruct x as [h [[k v] t]]. simpl in *.
  destruct Hdll as [Hh Hdll].
  apply NoDup_cons in Hnd as [Hh_notin Hnd].
  pose proof (lookup_lt_Some _ _ _ Hh) as Hh_lt.
  pose proof (indexes_delete km [] (h, (k, v, t)) l) as Hkm'.
  simpl in Hkm'. unfold key_of in Hkm'. simpl in Hkm'.
  specialize (Hkm' ltac:(by apply NoDup_cons) Hkm).
  unfold removeLRUItem. subst tl.
  destruct l as [|y l'].
  - simpl in *. mrun.
    eexists. split; [reflexivity|]. split; [|mrun; done].
    split; simpl; try done. lia.
  - destruct y as [h' [[k' v'] t']]. simpl in *.
    destruct Hdll as [Hh' Hdll].
    apply not_elem_of_cons in Hh_notin as [Hne Hh_notin].
    apply NoDup_cons in Hnd as [Hh'_notin Hnd].
    pose proof (lookup_lt_Some _ _ _ Hh') as Hh'_lt.
    simpl in *. mrun.
    eexists. split; [reflexivity|]. split; [|mrun; done].
    split; simpl.
    + by apply NoDup_cons.
    + split.
      * mrun. done.
      * do 3 (apply dll_insert_ne; [done|]). done.
    + done.
    + done.
    + lia.
    + done.
Qed.

(** forEach *)
Lemma forEach_loop_S {A} fuel (fun_ : V -> K -> A -> M LRUCache A) h a c :
  forEach_loop (S fuel) fun_ (Some h) a c =
  match (e <- deref (Some h) ;;
         a' <- fun_ (value e) (key e) a ;;
         p <- get_PREVIOUS (Some h) ;;
         ret (a', p)) c with
  | (Return (a', p), c') => forEach_loop fuel fun_ p a' c'
  | (Throw err, c') => Some (Throw err, c')
  end.
Proof. done. Qed.

Lemma forEach_loop_dll {A} (f : V -> K -> A -> A) c o l (extra : nat) a :
  dll (heap c) o l None ->
  forEach_loop (length l + extra) (fun v k a => ret (f v k a)) (first_or l.*1 None) a c
  = Some (Return (foldl (fun a kv => f kv.2 kv.1 a) a (pairs_of l)), c).
Proof.
  revert o a. induction l as [|x l IH]; intros o a Hdll; [by destruct extra|].
  destruct Hdll as [Hx Hdll].
  cbn [length Nat.add fmap list_fmap first_or fst]. rewrite forEach_loop_S.
  cbv beta iota zeta delta [bind deref get_PREVIOUS ret]. rewrite Hx.
  cbv beta iota. rewrite Hx. cbv beta iota.
  change (PREVIOUS (entry_of x.2 (first_or l.*1 None) o)) with (first_or l.*1 None).
  pose proof (IH (Some x.1) (f (value (entry_of x.2 (first_or l.*1 None) o))
                               (key (entry_of x.2 (first_or l.*1 None) o)) a) Hdll) as IH'.
  cbv beta iota zeta delta [ret] in IH'. rewrite IH'. destruct x as [h [[k v] t]]. done.
Qed.

(** The constructor with initial entries. *)
Lemma constructor_entries now lt (lim : option Z) es :
  NoDup es.*1 -> default 0 lim < MAX_VALUE ->
  if decide (1 <= default 0 lim < Z.of_nat (length es))
  then (constructor now lt lim (Some es)).1 = Throw overflow
  else exists c,
    constructor now lt lim (Some es) = (Return tt, c) /\
    WF c /\ entries c = Some es /\ size c = Z.of_nat (length es) /\
    lifetime c = lt /\
    limit c = (if decide (default 0 lim < 1) then Z.of_nat (length es) else default 0 lim).
Proof.
  intros Hnd Hmax. set (m := default 0 lim) in *.
  set (this := @mkCache K _ _ V lt 0 m None None ∅ None []).
  assert (constructor now lt lim (Some es) =
    (assign now es ;;;
       if decide (m < 1) then modify (fun c => with_limit (size c) c) else ret tt) this) as Hc
    by done.
  destruct (decide (1 <= m < Z.of_nat (length es))) as [Hover|Hfits].
  - rewrite Hc.
    destruct (assign_loop_run now es None m (with_keymap ∅ this))
      as (o & c' & Hrun & Hstop & _); [done|].
    rewrite (Hstop ltac:(split; lia)) in Hrun.
    unfold assign. cbv beta iota zeta delta [bind gets modify]. cbn [limit this].
    destruct (decide (m = 0)); [lia|]. by rewrite Hrun.
  - destruct (assign_Rep this now es Hnd) as (c' & Hrun & HR' & Hl & Hlt).
    { by right. }
    { cbn. lia. }
    assert (pairs_of (fresh_chain (length (heap this)) now es) = es) as El.
    { unfold pairs_of. rewrite fresh_chain_items, <- list_fmap_compose. apply list_fmap_id. }
    rewrite Hc. cbv beta iota zeta delta [bind]. rewrite Hrun.
    destruct (decide (m < 1)) as [Hlow|Hhigh].
    + eexists. split; [reflexivity|].
      assert (Rep (with_limit (size c') c') (fresh_chain (length (heap this)) now es)) as HR''.
      { by destruct HR'. }
      split_and!.
      * by eexists.
      * by rewrite (Rep_pairs _ _ HR''), El.
      * by rewrite (Rep_size_pairs _ _ HR''), El.
      * done.
      * cbn. by rewrite (Rep_size_pairs _ _ HR'), El.
    + exists c'. split_and!; try done.
      * by eexists.
      * by rewrite (Rep_pairs _ _ HR'), El.
      * by rewrite (Rep_size_pairs _ _ HR'), El.
Qed.

End ClassLemmas.

Section ToStringLemmas.
Context {K : Type} `{Countable K} {V : Type}.
Variables (String_key : K -> string) (String_value : V -> string)
  (toLocaleString : Z -> string).
Implicit Types (c : @LRUCache K _ _ V) (hp : list (@Entry K V))
  (l : list (handle * @item K V)) (x : handle * @item K V) (es : list (K * V)).

Lemma toString_loop_S fuel withDate hp h output :
  toString_loop String_key String_value toLocaleString (S fuel) withDate hp (Some h) output =
  match hp !! h with
  | Some e =>
      toString_loop String_key String_value toLocaleString fuel withDate hp (PREVIOUS e)
        (match PREVIOUS e with
         | Some _ => ((output +:+ entryString String_key String_value toLocaleString withDate e) +:+ " < ")%string
         | None => (output +:+ entryString String_key String_value toLocaleString withDate e)%string
         end)
  | None => None
  end.
Proof. done. Qed.

Lemma toString_loop_dll withDate hp o l (extra : nat) output :
  dll hp o l None ->
  toString_loop String_key String_value toLocaleString (length l + extra) withDate hp
    (first_or l.*1 None) output
  = Some (output +:+ String.concat " < "
            (entryString String_key String_value toLocaleString withDate
               <$> entries_of l o None))%string.
Proof.
  revert o output. induction l as [|x l IH]; intros o output Hdll.
  - cbn. rewrite string_app_nil_r. by destruct extra.
  - destruct Hdll as [Hx Hdll].
    cbn [length Nat.add fmap list_fmap first_or fst]. rewrite toString_loop_S, Hx.
    change (PREVIOUS (entry_of x.2 (first_or l.*1 None) o)) with (first_or l.*1 None).
    rewrite (IH _ _ Hdll). cbn [entries_of].
    destruct l as [|y l]; cbn [first_or fmap list_fmap fst entries_of String.concat].
    + by rewrite string_app_nil_r.
    + by rewrite !string_app_assoc.
Qed.

Lemma Rep_toString withDate c l :
  Rep c l ->
  toString String_key String_value toLocaleString withDate c
  = Some (String.concat " < "
      ((fun x : @item K V =>
          if withDate
          then (String_key x.1.1 +:+ ":" +:+ String_value x.1.2 +:+
                " (" +:+ toLocaleString x.2 +:+ ")")%string
          else (String_key x.1.1 +:+ ":" +:+ String_value x.1.2)%string)
       <$> items_of l)).
Proof.
  intros HR. unfold toString. rewrite (rep_tail _ _ HR).
  assert (length l <= length (heap c))%nat as Hlen.
  { rewrite <- (length_fmap fst). apply NoDup_bounded_length; [apply HR|].
    intros h Hh. eapply dll_bound; [apply HR|done]. }
  assert (S (length (heap c)) = length l + (S (length (heap c)) - length l))%nat as -> by lia.
  rewrite (toString_loop_dll withDate (heap c) None l _ "" (rep_dll _ _ HR)).
  f_equal. change ("" +:+ ?s)%string with s. f_equal.
  generalize (@None handle) at 2. generalize (@None handle).
  clear HR Hlen. unfold items_of. induction l as [|[h [[k v] t]] l IH]; intros o n; [done|].
  cbn [entries_of fmap list_fmap]. f_equal; [|apply IH].
  unfold entryString. cbn [entry_of key value created_at fst snd].
  destruct withDate; [|done]. by rewrite !string_app_assoc.
Qed.

End ToStringLemmas.

(** * [lru.js] through the class *)

Ltac msimpl_js :=
  cbv beta iota zeta delta [bind ret throw gets modify LRUMap.deref LRUMap.update
       LRUMap.get_PREVIOUS LRUMap.get_NEXT LRUMap.set_PREVIOUS
       LRUMap.set_NEXT LRUMap.set_value LRUMap.new_Entry LRUMap.keymap_set
       LRUMap.keymap_get LRUMap.keymap_delete
       LRUMap.purgeRemovedEntry LRUMap.size LRUMap.limit LRUMap.tail LRUMap.newest
       LRUMap.head LRUMap._keymap LRUMap.heap
       LRUMap.with_size LRUMap.with_limit LRUMap.with_tail LRUMap.with_newest
       LRUMap.with_head LRUMap.with_keymap
       LRUMap.with_heap LRUMap.key LRUMap.value LRUMap.PREVIOUS LRUMap.NEXT
       LRUMap.with_PREVIOUS LRUMap.with_NEXT LRUMap.with_value]; cbn [fst snd].

Ltac mrun_js := repeat (msimpl_js; first [lookup_step | dec_step]); msimpl_js.

(** ** Steps of [lru.js] and of the class that agree *)

Section Sim.
Context {K : Type} `{Countable K} {V : Type}.
Implicit Types (m : @LRUMap.LRUMap K _ _ V) (c : @LRUCache K _ _ V).


Lemma sim_ret {A B} (R : A -> B -> Prop) a b :
  R a b -> sim R (ret a : M (@LRUMap.LRUMap K _ _ V) A) (ret b).
Proof. intros HR m. by split. Qed.

Lemma sim_throw {A B} (R : A -> B -> Prop) e :
  sim R (throw e : M (@LRUMap.LRUMap K _ _ V) A) (throw e : M (@LRUCache K _ _ V) B).
Proof. intros m. by split. Qed.

Lemma sim_bind {A B A' B'} (R : A -> B -> Prop) (R' : A' -> B' -> Prop)
    (mm : M (@LRUMap.LRUMap K _ _ V) A) (mc : M (@LRUCache K _ _ V) B) km kc :
  sim R mm mc -> (forall a b, R a b -> sim R' (km a) (kc b)) ->
  sim R' (bind mm km) (bind mc kc).
Proof.
  intros Hm Hk m. unfold bind. destruct (Hm m) as [Hst Hres].
  destruct (mm m) as [[a|e] m1]; destruct (mc (embed m)) as [[b|e'] c1];
    cbn in *; try done; subst c1; first [by apply Hk|by split].
Qed.

Lemma sim_gets {A B} (R : A -> B -> Prop) (f : @LRUMap.LRUMap K _ _ V -> A) (g : @LRUCache K _ _ V -> B) :
  (forall m, R (f m) (g (embed m))) -> sim R (gets f) (gets g).
Proof. intros Hfg m. split; [done|apply Hfg]. Qed.

Lemma sim_modify (f : @LRUMap.LRUMap K _ _ V -> LRUMap.LRUMap) (g : @LRUCache K _ _ V -> LRUCache) :
  (forall m, g (embed m) = embed (f m)) -> sim eq (modify f) (modify g).
Proof. intros Hfg m. split; [apply Hfg|done]. Qed.

Lemma sim_deref r : @sim K _ _ V _ _ same_entry (LRUMap.deref r) (deref r).
Proof.
  intros m. unfold LRUMap.deref, deref. destruct r as [h|]; [|by split].
  cbn [heap embed]. rewrite list_lookup_fmap.
  destruct (LRUMap.heap m !! h); by split.
Qed.

Lemma sim_update r f g :
  (forall e, g (embed_entry e) = embed_entry (f e)) ->
  @sim K _ _ V _ _ eq (LRUMap.update r f) (update r g).
Proof.
  intros Hfg. unfold LRUMap.update, update.
  apply (sim_bind same_entry); [apply sim_deref|]. intros e e' ->.
  destruct r as [h|]; [|apply sim_throw].
  apply sim_modify. intros m. unfold embed, with_heap, LRUMap.with_heap. cbn.
  f_equal. by rewrite list_fmap_insert, Hfg.
Qed.

Lemma sim_get_PREVIOUS r : @sim K _ _ V _ _ eq (LRUMap.get_PREVIOUS r) (get_PREVIOUS r).
Proof.
  apply (sim_bind same_entry); [apply sim_deref|]. intros e e' ->. by apply sim_ret.
Qed.

Lemma sim_get_NEXT r : @sim K _ _ V _ _ eq (LRUMap.get_NEXT r) (get_NEXT r).
Proof.
  apply (sim_bind same_entry); [apply sim_deref|]. intros e e' ->. by apply sim_ret.
Qed.

Lemma sim_set_PREVIOUS r v : @sim K _ _ V _ _ eq (LRUMap.set_PREVIOUS r v) (set_PREVIOUS r v).
Proof. by apply sim_update. Qed.

Lemma sim_set_NEXT r v : @sim K _ _ V _ _ eq (LRUMap.set_NEXT r v) (set_NEXT r v).
Proof. by apply sim_update. Qed.

Lemma sim_set_value r v : @sim K _ _ V _ _ eq (LRUMap.set_value r v) (set_value r v).
Proof. by apply sim_update. Qed.

Lemma sim_new_Entry k v : @sim K _ _ V _ _ eq (LRUMap.new_Entry k v) (new_Entry 0 k v).
Proof.
  intros m. split; cbn.
  - unfold embed, with_heap. cbn. f_equal. by rewrite fmap_app.
  - by rewrite length_fmap.
Qed.

Lemma sim_keymap_get k : @sim K _ _ V _ _ eq (LRUMap.keymap_get k) (keymap_get k).
Proof. by apply sim_gets. Qed.

Lemma sim_keymap_set k r : @sim K _ _ V _ _ eq (LRUMap.keymap_set k r) (keymap_set k r).
Proof. destruct r; [by apply sim_modify|apply sim_throw]. Qed.

Lemma sim_keymap_delete k : @sim K _ _ V _ _ eq (LRUMap.keymap_delete k) (keymap_delete k).
Proof. by apply sim_modify. Qed.

Ltac sim_step :=
  first
    [ progress subst
    | match goal with H : same_entry _ _ |- _ => red in H end
    | apply sim_get_PREVIOUS | apply sim_get_NEXT
    | apply sim_set_PREVIOUS | apply sim_set_NEXT | apply sim_set_value
    | apply sim_keymap_get | apply sim_keymap_set | apply sim_keymap_delete
    | apply sim_new_Entry
    | apply sim_deref
    | apply sim_throw
    | apply sim_ret; (reflexivity || done)
    | apply sim_modify; intros ?; reflexivity
    | apply (sim_gets eq); intros ?; reflexivity
    | eapply sim_bind; [ | intros ? ? ? ]
    | case_decide
    | case_match ].

Lemma sim_delete k : @sim K _ _ V _ _ eq (LRUMap.delete_ k) (delete_ k).
Proof. unfold LRUMap.delete_, delete_. repeat sim_step. Qed.

Lemma sim_find k : @sim K _ _ V _ _ eq (LRUMap.find k) (find k).
Proof. unfold LRUMap.find, find. repeat sim_step. Qed.

Lemma sim_clear : @sim K _ _ V _ _ eq LRUMap.clear clear.
Proof. unfold LRUMap.clear, clear. repeat sim_step. Qed.

Lemma sim_purgeRemovedEntry r : @sim K _ _ V _ _ eq (LRUMap.purgeRemovedEntry r) (_purgeRemovedEntry r).
Proof. unfold LRUMap.purgeRemovedEntry, _purgeRemovedEntry. repeat sim_step. Qed.

Lemma sim_assign_loop es r lim :
  @sim K _ _ V _ _ eq (LRUMap.assign_loop es r lim) (assign_loop 0 es r lim).
Proof.
  revert r lim. induction es as [|kv es IH]; intros r lim; cbn [LRUMap.assign_loop assign_loop].
  - by apply sim_ret.
  - repeat sim_step. apply IH.
Qed.

Lemma sim_assign es : @sim K _ _ V _ _ eq (LRUMap.assign es) (assign 0 es).
Proof.
  unfold LRUMap.assign, assign.
  apply (sim_bind eq); [apply (sim_gets eq); intros ?; reflexivity|]. intros ? ? <-.
  eapply sim_bind; [apply sim_modify; intros ?; reflexivity|]. intros _ _ _.
  eapply sim_bind; [apply sim_assign_loop|]. intros ? ? <-.
  eapply sim_bind; [apply sim_modify; intros ?; reflexivity|]. intros _ _ _.
  apply sim_modify. intros ?. reflexivity.
Qed.

Lemma sim_has k m : agrees eq (LRUMap.has k m) (has 0 k (embed m)).
Proof.
  unfold LRUMap.has, has. cbv beta iota zeta delta [bind LRUMap.keymap_get keymap_get gets ret].
  cbn [_keymap embed lifetime]. destruct (LRUMap._keymap m !! k); by split.
Qed.


(** Agreement at one state. *)
Lemma agrees_bind {A B A' B'} (R : A -> B -> Prop) (R' : A' -> B' -> Prop)
    (mm : M (@LRUMap.LRUMap K _ _ V) A) (mc : M (@LRUCache K _ _ V) B) km kc m :
  agrees R (mm m) (mc (embed m)) ->
  (forall a b m1, mm m = (Return a, m1) -> R a b -> agrees R' (km a m1) (kc b (embed m1))) ->
  agrees R' (bind mm km m) (bind mc kc (embed m)).
Proof.
  intros [Hst Hres] Hk. unfold bind.
  destruct (mm m) as [[a|e] m1]; destruct (mc (embed m)) as [[b|e'] c1];
    cbn in *; try done; subst c1; first [by apply Hk|by split].
Qed.

Lemma sim_removeLRUItem m :
  LRUMap.size m <> 1 -> agrees eq (LRUMap.removeLRUItem m) (removeLRUItem (embed m)).
Proof.
  intros Hsz. unfold LRUMap.removeLRUItem, removeLRUItem.
  apply (agrees_bind eq); [by apply (sim_gets eq)|].
  intros sz ? m1 [= <- <-] <-.
  destruct (decide (LRUMap.size m = 0)); [by split|].
  destruct (decide (LRUMap.size m = 1)); [done|].
  cut (@sim K _ _ V _ _ eq
    (entry <- gets LRUMap.tail ;;
     (tl <- gets LRUMap.tail ;; p <- LRUMap.get_PREVIOUS tl ;;
      modify (LRUMap.with_tail p) ;;; tl' <- gets LRUMap.tail ;; LRUMap.set_NEXT tl' None) ;;;
     modify (fun m0 => LRUMap.with_size (LRUMap.size m0 - 1) m0) ;;;
     LRUMap.purgeRemovedEntry entry ;;;
     e <- LRUMap.deref entry ;; ret (Some (LRUMap.key e, LRUMap.value e)))
    (entry <- gets tail ;;
     (tl <- gets tail ;; p <- get_PREVIOUS tl ;;
      modify (with_tail p) ;;; tl' <- gets tail ;; set_NEXT tl' None) ;;;
     modify (fun c => with_size (size c - 1) c) ;;;
     _purgeRemovedEntry entry ;;;
     e <- deref entry ;; ret (Some (key e, value e)))).
  { intros Hsim. apply Hsim. }
  repeat first [apply sim_purgeRemovedEntry | sim_step].
Qed.

End Sim.

(** ** The methods of [lru.js] on a map that satisfies the invariants *)

Section MapOps.
Context {K : Type} `{Countable K} {V : Type}.
Implicit Types (m : @LRUMap.LRUMap K _ _ V) (hp : list (@LRUMap.Entry K V))
  (l : list (handle * @item K V)) (x : handle * @item K V) (es : list (K * V)).

Lemma lookup_embed hp h k v t p n :
  (embed_entry <$> hp) !! h = Some (mkEntry k v t p n) ->
  hp !! h = Some (LRUMap.mkEntry k v p n) /\ t = 0.
Proof.
  rewrite list_lookup_fmap. destruct (hp !! h) as [[k' v' p' n']|]; [|done].
  cbn. unfold embed_entry. cbn. by intros [= -> -> <- -> ->].
Qed.

Ltac to_js H H' :=
  let E := fresh "Et" in
  pose proof H as H'; unfold entry_of in H'; cbn [fst snd] in H';
  apply lookup_embed in H' as [H' E];
  match type of E with ?t = _ => try subst t end.

Ltac embed_goal :=
  unfold embed;
  cbn [LRUMap.size LRUMap.limit LRUMap.tail LRUMap.newest LRUMap._keymap LRUMap.heap];
  rewrite ?list_fmap_insert, ?fmap_app;
  cbn [embed_entry LRUMap.key LRUMap.value LRUMap.PREVIOUS LRUMap.NEXT fmap list_fmap].

Lemma markEntryAsUsed_lru_js m l1 x l2 :
  Rep (embed m) (l1 ++ x :: l2) ->
  exists m',
    LRUMap._markEntryAsUsed (Some x.1) m = (Return tt, m') /\
    Rep (embed m') (l1 ++ l2 ++ [x]).
Proof.
  intros HR. pose proof HR as [Hnd Hdll Htl Hhd Hsz Hkm].
  destruct m as [sz lim tl nw hd0 km hp].
  unfold embed in Hnd, Hdll, Htl, Hhd, Hsz, Hkm.
  cbn [LRUMap.size LRUMap.limit LRUMap.tail LRUMap.newest LRUMap._keymap LRUMap.heap
       size limit tail head _keymap heap] in Hnd, Hdll, Htl, Hhd, Hsz, Hkm.
  destruct x as [h [[k v] t]].
  pose proof (indexes_move km l1 h k v t v l2 Hkm) as Hkm'.
  destruct (NoDup_handles_middle _ _ _ Hnd) as [Hx_notin Hnd'].
  assert (NoDup (l1 ++ l2 ++ [(h, (k, v, t))]).*1) as Hnd_new.
  { rewrite !fmap_app. rewrite fmap_app in Hnd. by apply NoDup_move_last. }
  assert (sz = Z.of_nat (length (l1 ++ l2 ++ [(h, (k, v, t))]))) as Hsz_new.
  { rewrite Hsz, !length_app. simpl. lia. }
  assert (Some h = last (l1 ++ l2 ++ [(h, (k, v, t))]).*1) as Hhd_new.
  { rewrite app_assoc, fmap_app. simpl. by rewrite last_snoc. }
  apply dll_app in Hdll as [Hl1 Hl2].
  rsimpl. destruct Hl2 as [Hh Hl2].
  apply not_elem_of_app in Hx_notin as [Hx1 Hx2].
  pose proof (lookup_lt_Some _ _ _ Hh) as Hh_lt.
  assert (length (embed_entry <$> hp) = length hp) as Hlen by apply length_fmap.
  unfold LRUMap._markEntryAsUsed.
  destruct l2 as [|[hz [[kz vz] tz]] l2' _] using rev_ind.
  - (* already the newest *)
    rsimpl. rewrite last_snoc in Hhd. subst nw.
    mrun_js. eexists. split; [reflexivity|]. done.
  - rsimpl.
    assert (nw = Some hz) as ->.
    { by rewrite Hhd, app_comm_cons, app_assoc, last_snoc. }
    apply not_elem_of_app in Hx2 as [Hx2 Hxz].
    apply not_elem_of_cons in Hxz as [Hxz _].
    apply dll_app in Hl2 as [Hl2' Hz]. rsimpl. destruct Hz as [Hz _].
    pose proof (lookup_lt_Some _ _ _ Hz) as Hz_lt.
    assert (hz ∉ l1.*1 ++ l2'.*1) as Hz_notin.
    { rewrite app_assoc in Hnd'. apply NoDup_app in Hnd' as (_ & Hd & _).
      intros Hin. apply (Hd _ Hin). by left. }
    apply not_elem_of_app in Hz_notin as [Hz1 Hz2].
    destruct l2' as [|[hb [[kb vb] tb]] l2'']; destruct l1 as [|[ha [[ka va] ta]] l1' _] using rev_ind;
      rsimpl.
    + (* [x; z] *)
      subst tl. facts.
      to_js Hh Hh'. to_js Hz Hz'.
      mrun_js. eexists. split; [reflexivity|]. embed_goal.
      split; rsimpl; try done. dll_tac.
    + (* l1' ++ [a; x; z] *)
      assert (tl <> Some h) as Htl_ne.
      { intros Heq. rewrite Heq in Htl. symmetry in Htl.
        rewrite <- ?app_assoc, ?first_or_app in Htl. facts.
        apply first_or_elem in Htl as [Hin|Hin]; [done|].
        simpl in Hin. congruence. }
      apply dll_app in Hl1 as [Hl1' Ha]. rsimpl. destruct Ha as [Ha _].
      pose proof (lookup_lt_Some _ _ _ Ha) as Ha_lt.
      pose proof Hnd as Hf. nodup_facts Hf. facts.
      to_js Hh Hh'. to_js Hz Hz'. to_js Ha Ha'.
      mrun_js. eexists. split; [reflexivity|]. embed_goal.
      split; rsimpl; [done|dll_tac| |done..].
      by rewrite Htl, ?first_or_app.
    + (* x :: b :: l2'' ++ [z] *)
      subst tl. destruct Hl2' as [Hb Hl2''].
      pose proof (lookup_lt_Some _ _ _ Hb) as Hb_lt.
      pose proof Hnd as Hf. nodup_facts Hf. facts.
      to_js Hh Hh'. to_js Hz Hz'. to_js Hb Hb'.
      mrun_js. eexists. split; [reflexivity|]. embed_goal.
      split; rsimpl; [done|dll_tac|done..].
    + (* l1' ++ a :: x :: b :: l2'' ++ [z] *)
      assert (tl <> Some h) as Htl_ne.
      { intros Heq. rewrite Heq in Htl. symmetry in Htl.
        rewrite <- ?app_assoc, ?first_or_app in Htl. facts.
        apply first_or_elem in Htl as [Hin|Hin]; [done|].
        simpl in Hin. congruence. }
      destruct Hl2' as [Hb Hl2''].
      pose proof (lookup_lt_Some _ _ _ Hb) as Hb_lt.
      apply dll_app in Hl1 as [Hl1' Ha]. rsimpl. destruct Ha as [Ha _].
      pose proof (lookup_lt_Some _ _ _ Ha) as Ha_lt.
      pose proof Hnd as Hf. nodup_facts Hf. facts.
      to_js Hh Hh'. to_js Hz Hz'. to_js Ha Ha'. to_js Hb Hb'.
      mrun_js. eexists. split; [reflexivity|]. embed_goal.
      split; rsimpl; [done|dll_tac| |done..].
      by rewrite Htl, ?first_or_app.
Qed.


Lemma set_new_lru_js m l k v :
  Rep (embed m) l -> LRUMap._keymap m !! k = None ->
  exists m1,
    LRUMap.set k v m =
      (if decide (LRUMap.limit m < LRUMap.size m + 1)
       then LRUMap.removeLRUItem ;;; ret tt else ret tt) m1 /\
    Rep (embed m1) (l ++ [(length (LRUMap.heap m), (k, v, 0))]) /\
    LRUMap.limit m1 = LRUMap.limit m.
Proof.
  intros [Hnd Hdll Htl Hhd Hsz Hkm] Hk.
  destruct m as [sz lim tl nw hd0 km hp].
  unfold embed in Hnd, Hdll, Htl, Hhd, Hsz, Hkm.
  cbn [LRUMap.size LRUMap.limit LRUMap.tail LRUMap.newest LRUMap._keymap LRUMap.heap
       size limit tail head _keymap heap] in *.
  pose proof (indexes_insert km l k (length hp) v 0 Hk Hkm) as Hkm'.
  assert (length (embed_entry <$> hp) = length hp) as Hlen by apply length_fmap.
  assert (length hp ∉ l.*1) as Hfresh.
  { intros Hin. apply (dll_bound _ _ _ _ _ Hdll) in Hin. lia. }
  rewrite <- Hlen in Hkm', Hfresh.
  unfold LRUMap.set.
  destruct l as [|z l' _] using rev_ind.
  - simpl in *. subst. mrun_js.
    eexists. split; [case_decide; reflexivity|].
    split; [|done]. embed_goal. rewrite <- Hlen.
    split; simpl; try done.
    + apply NoDup_singleton.
    + split; [|done]. mrun. done.
  - destruct z as [hz [[kz vz] tz]]. rewrite fmap_app in *. simpl in *.
    apply dll_app in Hdll as [Hl' [Hz _]]. simpl in *.
    rewrite last_snoc in Hhd. rewrite length_app in Hsz. simpl in Hsz.
    pose proof (lookup_lt_Some _ _ _ Hz) as Hz_lt.
    apply not_elem_of_app in Hfresh as [Hfresh _].
    assert (hz ∉ l'.*1) as Hz_notin.
    { apply NoDup_app in Hnd as (_ & Hd & _). intros Hin. apply (Hd _ Hin). by left. }
    subst nw. to_js Hz Hz'. mrun_js.
    eexists. split; [case_decide; reflexivity|].
    split; [|done]. embed_goal. rewrite <- Hlen.
    split; simpl.
    * rewrite !fmap_app. simpl. apply NoDup_app. split; [done|].
      split; [|apply NoDup_singleton].
      intros h Hh Hh2. apply list_elem_of_singleton in Hh2 as ->.
      apply elem_of_app in Hh as [Hh|Hh]; [done|].
      apply list_elem_of_singleton in Hh. lia.
    * rewrite !dll_app. simpl. repeat split.
      -- do 2 (apply dll_insert_ne; [set_solver|]). by apply dll_alloc.
      -- mrun. done.
      -- mrun. rewrite fmap_app. simpl. by rewrite last_or_snoc.
    * rewrite Htl, !fmap_app. simpl. by rewrite <- !app_assoc, !first_or_app.
    * rewrite !fmap_app. simpl. by rewrite last_snoc.
    * rewrite !length_app. simpl. lia.
    * done.
Qed.


Lemma embed_limit m : limit (embed m) = LRUMap.limit m.
Proof. done. Qed.

Lemma embed_size m : size (embed m) = LRUMap.size m.
Proof. done. Qed.

Lemma agrees_Return {A} (om : outcome A) m' (a : A) c' :
  agrees eq (om, m') (Return a, c') -> om = Return a /\ c' = embed m'.
Proof. intros [Hst Hres]. cbn in *. destruct om; [by subst|done]. Qed.

Lemma chain_from_embed fuel hp entry :
  chain_from fuel (embed_entry <$> hp) entry
  = fmap (M:=option) (fmap (M:=list) embed_entry) (LRUMap.chain_from fuel hp entry).
Proof.
  revert entry. induction fuel as [|fuel IH]; intros [h|]; cbn; try done.
  rewrite list_lookup_fmap. destruct (hp !! h) as [e|]; cbn; [|done].
  rewrite IH. change (PREVIOUS (embed_entry e)) with (LRUMap.PREVIOUS e).
  by destruct (LRUMap.chain_from fuel hp (LRUMap.PREVIOUS e)).
Qed.

Lemma chain_embed m :
  chain (embed m)
  = fmap (M:=option) (fmap (M:=list) embed_entry)
      (LRUMap.chain_from (S (length (LRUMap.heap m))) (LRUMap.heap m) (LRUMap.tail m)).
Proof.
  unfold chain. cbn [heap tail embed]. rewrite length_fmap. apply chain_from_embed.
Qed.

Lemma entries_embed m : LRUMap.entries m = entries (embed m).
Proof.
  unfold LRUMap.entries, entries. rewrite chain_embed.
  destruct (LRUMap.chain_from _ _ _) as [es|]; cbn; [|done].
  by rewrite <- list_fmap_compose.
Qed.

(** One call of [lru.js] on a well-formed map. *)
Lemma exec_lru_js_follows_the_list op m l :
  Rep (embed m) l -> lru_js_fits (LRUMap.limit m) op (pairs_of l) ->
  exists l', Rep (embed (exec_lru_js op m)) l' /\
    pairs_of l' = lru_exec (LRUMap.limit m) op (pairs_of l) /\
    LRUMap.limit (exec_lru_js op m) = LRUMap.limit m.
Proof.
  intros HR [Hfit Hjs].
  destruct op as [now es|now k|now k|now k v| |k| |k];
    cbn [exec_lru_js lru_exec lru_fits] in *.
  - destruct Hfit as (Hnd & Hne & Hlim).
    destruct (assign_Rep (embed m) 0 es Hnd) as (c' & Hrun & HR' & Hl & _); [|done|].
    { destruct Hne as [?|Hnil]; [by left|right].
      destruct l; [|discriminate]. by rewrite (rep_tail _ _ HR). }
    pose proof (sim_assign es m) as Hag. rewrite Hrun in Hag.
    destruct (LRUMap.assign es m) as [om m'].
    apply agrees_Return in Hag as [-> ->]. cbn [snd].
    eexists. split; [exact HR'|]. split; [|done].
    unfold pairs_of. rewrite fresh_chain_items, <- list_fmap_compose. apply list_fmap_id.
  - exists l. by split_and!.
  - unfold lru_get, LRUMap.get. cbv beta iota zeta delta [bind LRUMap.keymap_get gets].
    destruct (Rep_find_key (embed m) l k HR) as [(Ha & Hn & Hk)|(l1 & h & v & t & l2 & -> & Ha & H1 & H2 & Hk)];
      cbn [_keymap embed] in Hk; rewrite Hk, Ha.
    + exists l. by split_and!.
    + destruct (markEntryAsUsed_lru_js m l1 (h, (k, v, t)) l2 HR) as (m' & Hmark & HR').
      cbn [fst] in Hmark. rewrite Hmark. cbv beta iota.
      assert (LRUMap.limit m' = LRUMap.limit m) as Hl.
      { revert Hmark. clear. destruct m as [sz lim tl nw hd0 km hp].
        unfold LRUMap._markEntryAsUsed.
        cbv beta iota zeta delta [bind ret throw gets modify LRUMap.deref LRUMap.update
          LRUMap.get_PREVIOUS LRUMap.get_NEXT LRUMap.set_PREVIOUS LRUMap.set_NEXT
          LRUMap.with_heap LRUMap.with_tail LRUMap.with_newest].
        cbn [LRUMap.tail LRUMap.newest LRUMap.heap LRUMap.size LRUMap.limit
             LRUMap.head LRUMap._keymap].
        intros Hrun.
        repeat (case_match; simplify_eq/=; try done). }
      assert (pairs_of (l1 ++ l2 ++ [(h, (k, v, t))])
              = without_key k (pairs_of (l1 ++ (h, (k, v, t)) :: l2)) ++ [(k, v)]) as El.
      { rewrite pairs_mid, without_key_mid by done. by rewrite !pairs_app, app_assoc. }
      unfold LRUMap.deref, ret.
      destruct (LRUMap.heap m' !! h); cbn [snd]; by eexists.
  - unfold lru_set, LRUMap.set.
    destruct (Rep_find_key (embed m) l k HR) as [(Ha & Hn & Hk)|(l1 & h & v0 & t & l2 & -> & Ha & H1 & H2 & Hk)];
      cbn [_keymap embed] in Hk; rewrite Ha.
    + fold (LRUMap.set k v).
      destruct (set_new_lru_js m l k v HR Hk) as (m1 & Hset & HR1 & Hl1).
      rewrite Hset. rewrite <- (Rep_size_pairs (embed m) l HR).
      change (size (embed m)) with (LRUMap.size m).
      destruct (decide (LRUMap.limit m < LRUMap.size m + 1)) as [Hfull|Hroom].
      * assert (LRUMap.size m1 <> 1) as Hsz1.
        { rewrite <- embed_size, (rep_size _ _ HR1), length_app. cbn.
          destruct Hjs as [Hlim|[? Hs]]; [|congruence].
          rewrite <- embed_size, (rep_size _ _ HR) in Hfull. lia. }
        pose proof (sim_removeLRUItem m1 Hsz1) as Hag.
        destruct l as [|y l]; cbn [app] in HR1.
        { rewrite <- embed_size, (rep_size _ _ HR) in Hfull. cbn in Hfull.
          destruct Hjs as [Hlim|[? Hs]]; [lia|congruence]. }
        destruct (removeLRUItem_cons (embed m1) _ _ HR1) as (c' & Hrem & HR' & _).
        rewrite Hrem in Hag.
        cbv beta iota zeta delta [bind ret].
        destruct (LRUMap.removeLRUItem m1) as [om m'] eqn:Erem.
        apply agrees_Return in Hag as [-> ->]. cbn [snd].
        eexists. split; [exact HR'|]. split.
        -- by rewrite <- (pairs_snoc (y :: l) (length (LRUMap.heap m)) k v 0).
        -- pose proof (config_kept_exec call_removeLRUItem (embed m1)) as [Hc _].
           cbn [exec] in Hc. rewrite Hrem in Hc. cbn [snd] in Hc.
           rewrite !embed_limit in Hc. congruence.
      * cbn [ret snd]. eexists. split; [exact HR1|]. split; [apply pairs_snoc|done].
    + cbv beta iota zeta delta [bind LRUMap.keymap_get gets]. rewrite Hk. cbv beta iota.
      destruct (set_value_Rep (embed m) l1 h k v0 t l2 v HR) as (c1 & Hsv & HR1 & _).
      pose proof (sim_set_value (Some h) v m) as Hag. rewrite Hsv in Hag.
      destruct (LRUMap.set_value (Some h) v m) as [om m1] eqn:Esv.
      apply agrees_Return in Hag as [-> ->].
      destruct (markEntryAsUsed_lru_js m1 l1 (h, (k, v, t)) l2 HR1) as (m' & Hmark & HR').
      cbn [fst] in Hmark. rewrite Hmark. cbn [snd].
      eexists. split; [exact HR'|]. split.
      * rewrite pairs_mid, without_key_mid by done. by rewrite !pairs_app, app_assoc.
      * assert (config_kept (embed m) (set_value (Some h) v (embed m)).2) as [Hc1 _].
        { unfold set_value. apply (keeps_update config_kept); [apply config_kept_refl| |done].
          intros. by split. }
        rewrite Hsv in Hc1. cbn [snd] in Hc1.
        rewrite !embed_limit in Hc1. rewrite <- Hc1.
        revert Hmark. clear. destruct m1 as [sz lim tl nw hd0 km hp].
        unfold LRUMap._markEntryAsUsed.
        cbv beta iota zeta delta [bind ret throw gets modify LRUMap.deref LRUMap.update
          LRUMap.get_PREVIOUS LRUMap.get_NEXT LRUMap.set_PREVIOUS LRUMap.set_NEXT
          LRUMap.with_heap LRUMap.with_tail LRUMap.with_newest].
        cbn [LRUMap.tail LRUMap.newest LRUMap.heap LRUMap.size LRUMap.limit
             LRUMap.head LRUMap._keymap].
        intros Hrun.
        repeat (case_match; simplify_eq/=; try done).
  - assert (LRUMap.size m <> 1) as Hsz1.
    { rewrite <- embed_size, (Rep_size_pairs _ _ HR). lia. }
    pose proof (sim_removeLRUItem m Hsz1) as Hag.
    destruct (LRUMap.removeLRUItem m) as [om m'] eqn:Erem.
    destruct l as [|x l].
    + rewrite (removeLRUItem_nil (embed m) HR) in Hag.
      apply agrees_Return in Hag as [-> Hm]. cbn [snd].
      exists []. rewrite <- Hm. split; [done|]. split; [done|].
      by rewrite <- !embed_limit, <- Hm.
    + destruct (removeLRUItem_cons (embed m) x l HR) as (c' & Hrem & HR' & _).
      rewrite Hrem in Hag. apply agrees_Return in Hag as [-> ->]. cbn [snd].
      exists l. split; [done|]. split; [done|].
      pose proof (config_kept_exec call_removeLRUItem (embed m)) as [Hc _].
      cbn [exec] in Hc. rewrite Hrem in Hc. cbn [snd] in Hc.
      by rewrite !embed_limit in Hc.
  - pose proof (sim_delete k m) as Hag.
    destruct (LRUMap.delete_ k m) as [om m'] eqn:Edel. cbn [snd].
    pose proof (config_kept_exec (call_delete k) (embed m)) as [Hc _]. cbn [exec] in Hc.
    destruct (Rep_find_key (embed m) l k HR) as [(Ha & Hn & Hk)|(l1 & h & v & t & l2 & -> & Ha & H1 & H2 & Hk)].
    + assert (delete_ k (embed m) = (Return None, embed m)) as Hdel.
      { unfold delete_. cbv beta iota zeta delta [bind keymap_get gets]. by rewrite Hk. }
      rewrite Hdel in Hag, Hc. apply agrees_Return in Hag as [-> Hm]. cbn [snd] in Hc.
      exists l. rewrite <- Hm. split; [done|]. split.
      * symmetry. apply without_key_fresh. by rewrite pairs_keys.
      * by rewrite <- !embed_limit, <- Hm.
    + destruct (delete_Rep (embed m) l1 (h, (k, v, t)) l2 HR) as (c' & Hdel & HR' & _).
      unfold key_of in Hdel. cbn [fst snd] in Hdel. rewrite Hdel in Hag, Hc.
      apply agrees_Return in Hag as [-> ->]. cbn [snd] in Hc.
      eexists. split; [exact HR'|]. split.
      * by rewrite pairs_mid, without_key_mid, pairs_app.
      * by rewrite !embed_limit in Hc.
  - pose proof (sim_clear m) as Hag. destruct (clear_Rep (embed m)) as [Hc HR'].
    rewrite Hc in Hag. destruct (LRUMap.clear m) as [om m'] eqn:Eclr.
    apply agrees_Return in Hag as [-> Hm]. cbn [snd].
    exists []. rewrite <- Hm. split; [done|]. split; [done|].
    by injection Eclr as <-.
  - exists l. assert ((LRUMap.find k m).2 = m) as ->.
    { unfold LRUMap.find. cbv beta iota zeta delta [bind LRUMap.keymap_get gets LRUMap.deref ret].
      destruct (LRUMap._keymap m !! k) as [h|]; [|done]. by destruct (LRUMap.heap m !! h). }
    by split_and!.
Qed.

Lemma WF_lru_js_entries m es :
  WF_lru_js m -> LRUMap.entries m = Some es -> exists l, Rep (embed m) l /\ pairs_of l = es.
Proof.
  intros Hwf He. rewrite entries_embed in He. by apply WF_entries.
Qed.

Lemma find_embed k m : LRUMap.find k m = ((find k (embed m)).1, m).
Proof.
  unfold LRUMap.find, find.
  cbv beta iota zeta delta [bind LRUMap.keymap_get keymap_get gets LRUMap.deref deref ret].
  cbn [_keymap heap embed]. destruct (LRUMap._keymap m !! k) as [h|]; [|done].
  change (heap (embed m)) with (embed_entry <$> LRUMap.heap m).
  rewrite list_lookup_fmap. by destruct (LRUMap.heap m !! h).
Qed.

Lemma Rep_chain_lru_js m l :
  Rep (embed m) l ->
  exists ents,
    LRUMap.chain_from (S (length (LRUMap.heap m))) (LRUMap.heap m) (LRUMap.tail m) = Some ents /\
    embed_entry <$> ents = entries_of l None None.
Proof.
  intros HR. pose proof (Rep_chain _ _ HR) as Hc. rewrite chain_embed in Hc.
  destruct (LRUMap.chain_from _ _ _) as [ents|]; [|done]. exists ents. split; [done|].
  by injection Hc.
Qed.

Lemma toString_loop_embed (String_key : K -> string) (String_value : V -> string)
    (toLocaleString : Z -> string) fuel hp entry s :
  LRUMap.toString_loop String_key String_value fuel hp entry s
  = toString_loop String_key String_value toLocaleString fuel false (embed_entry <$> hp) entry s.
Proof.
  revert entry s. induction fuel as [|fuel IH]; intros [h|] s; cbn; try done.
  rewrite list_lookup_fmap. destruct (hp !! h) as [e|]; cbn; [|done].
  by rewrite IH.
Qed.

Lemma forEach_loop_S_lru_js {A} fuel (fun_ : V -> K -> A -> M (@LRUMap.LRUMap K _ _ V) A) h a m :
  LRUMap.forEach_loop (S fuel) fun_ (Some h) a m =
  match (e <- LRUMap.deref (Some h) ;;
         a' <- fun_ (LRUMap.value e) (LRUMap.key e) a ;;
         p <- LRUMap.get_PREVIOUS (Some h) ;;
         ret (a', p)) m with
  | (Return (a', p), m') => LRUMap.forEach_loop fuel fun_ p a' m'
  | (Throw err, m') => Some (Throw err, m')
  end.
Proof. done. Qed.

Lemma forEach_loop_dll_lru_js {A} (f : V -> K -> A -> A) m o l (extra : nat) a :
  dll (embed_entry <$> LRUMap.heap m) o l None ->
  LRUMap.forEach_loop (length l + extra) (fun v k a => ret (f v k a)) (first_or l.*1 None) a m
  = Some (Return (foldl (fun a kv => f kv.2 kv.1 a) a (pairs_of l)), m).
Proof.
  revert o a. induction l as [|x l IH]; intros o a Hdll; [by destruct extra|].
  destruct Hdll as [Hx Hdll]. destruct x as [h [[k v] t]].
  unfold entry_of in Hx. cbn [fst snd] in Hx. apply lookup_embed in Hx as [Hx _].
  cbn [length Nat.add fmap list_fmap first_or fst]. rewrite forEach_loop_S_lru_js.
  cbv beta iota zeta delta [bind LRUMap.deref LRUMap.get_PREVIOUS ret]. rewrite Hx.
  cbv beta iota. rewrite Hx. cbv beta iota. cbn [LRUMap.PREVIOUS LRUMap.value LRUMap.key].
  pose proof (IH (Some h) (f v k a) Hdll) as IH'.
  cbv beta iota zeta delta [ret] in IH'. cbn [fst] in IH'. rewrite IH'. done.
Qed.

(** The constructors. *)
Lemma agrees_constructor (lim : option Z) (oes : option (list (K * V))) :
  agrees eq (LRUMap.constructor lim oes) (@constructor K _ _ V 0 0 lim oes).
Proof.
  unfold constructor, LRUMap.constructor. destruct oes as [es|]; [|by split].
  set (this := @LRUMap.mkMap K _ _ V 0 (default 0 lim) None None None ∅ []).
  change (@mkCache K _ _ V 0 0 (default 0 lim) None None ∅ None []) with (embed this).
  assert (@sim K _ _ V _ _ eq
    (LRUMap.assign es ;;;
     if decide (default 0 lim < 1)
     then modify (fun m0 => LRUMap.with_limit (LRUMap.size m0) m0)
     else ret tt)
    (assign 0 es ;;;
     if decide (default 0 lim < 1) then modify (fun c => with_limit (size c) c) else ret tt))
    as Hs.
  { eapply sim_bind; [apply sim_assign|]. intros _ _ _.
    destruct (decide (default 0 lim < 1)); [|by apply sim_ret].
    by apply sim_modify. }
  apply Hs.
Qed.

End MapOps.

(** * The [LRUMap] of [part_000] through the class *)

(** ** Steps of the class and of the map that agree *)

Section StripSim.
Context {K : Type} `{Countable K} {V : Type}.
Implicit Types (c : @LRUCache K _ _ V) (m : @part_000_LRUMap.LRUMap K _ _ V).

Lemma sim_strip_ret {A B} (R : A -> B -> Prop) a b :
  R a b -> sim_strip R (ret a : M (@LRUCache K _ _ V) A) (ret b).
Proof. intros HR c Hlt. by split. Qed.

Lemma sim_strip_throw {A B} (R : A -> B -> Prop) e :
  sim_strip R (throw e : M (@LRUCache K _ _ V) A)
    (throw e : M (@part_000_LRUMap.LRUMap K _ _ V) B).
Proof. intros c Hlt. by split. Qed.

Lemma sim_strip_bind {A B A' B'} (R : A -> B -> Prop) (R' : A' -> B' -> Prop)
    (mc : M (@LRUCache K _ _ V) A) (mm : M (@part_000_LRUMap.LRUMap K _ _ V) B) kc km :
  sim_strip R mc mm -> (forall a b, R a b -> sim_strip R' (kc a) (km b)) ->
  sim_strip R' (bind mc kc) (bind mm km).
Proof.
  intros Hm Hk c Hlt. unfold bind. destruct (Hm c Hlt) as (Hst & Hlt' & Hres).
  destruct (mc c) as [[a|e] c1]; destruct (mm (strip c)) as [[b|e'] m1];
    cbn in *; try done; subst m1; first [by apply Hk|by split].
Qed.

Lemma sim_strip_gets {A B} (R : A -> B -> Prop)
    (f : @LRUCache K _ _ V -> A) (g : @part_000_LRUMap.LRUMap K _ _ V -> B) :
  (forall c, R (f c) (g (strip c))) -> sim_strip R (gets f) (gets g).
Proof. intros Hfg c Hlt. split; [done|]. split; [done|apply Hfg]. Qed.

Lemma sim_strip_modify (f : @LRUCache K _ _ V -> LRUCache)
    (g : @part_000_LRUMap.LRUMap K _ _ V -> part_000_LRUMap.LRUMap) :
  (forall c, g (strip c) = strip (f c) /\ lifetime (f c) = lifetime c) ->
  sim_strip eq (modify f) (modify g).
Proof.
  intros Hfg c Hlt. destruct (Hfg c) as [Hs Hl]. unfold follows, modify. cbn [fst snd].
  split; [exact Hs|]. split; [congruence|done].
Qed.

(** A step of the class that the map does not have: it writes what
    [strip] forgets. *)
Lemma sim_strip_tail {A B} (R : A -> B -> Prop)
    (mc : M (@LRUCache K _ _ V) A) (mm : M (@part_000_LRUMap.LRUMap K _ _ V) B)
    (kc : A -> M (@LRUCache K _ _ V) A) :
  sim_strip R mc mm ->
  (forall a c, exists c', kc a c = (Return a, c') /\ strip c' = strip c /\
     lifetime c' = lifetime c) ->
  sim_strip R (bind mc kc) mm.
Proof.
  intros Hm Hk c Hlt. unfold bind. destruct (Hm c Hlt) as (Hst & Hlt' & Hres).
  destruct (mc c) as [[a|e] c1]; [|by split].
  destruct (Hk a c1) as (c' & -> & Hs & Hl). unfold follows in *. cbn [fst snd] in *.
  split; [congruence|]. split; [congruence|done].
Qed.

Lemma sim_strip_deref r :
  @sim_strip K _ _ V _ _ stripped_entry (deref r) (part_000_LRUMap.deref r).
Proof.
  intros c Hlt. unfold part_000_LRUMap.deref, deref. destruct r as [h|]; [|by split].
  cbn [part_000_LRUMap.heap strip]. rewrite list_lookup_fmap.
  destruct (heap c !! h); by split.
Qed.

Lemma sim_strip_update r f g :
  (forall e, g (strip_entry e) = strip_entry (f e)) ->
  @sim_strip K _ _ V _ _ eq (update r f) (part_000_LRUMap.update r g).
Proof.
  intros Hfg. unfold part_000_LRUMap.update, update.
  apply (sim_strip_bind stripped_entry); [apply sim_strip_deref|]. intros e e' ->.
  destruct r as [h|]; [|apply sim_strip_throw].
  apply sim_strip_modify. intros c. split; [|done].
  unfold strip, with_heap, part_000_LRUMap.with_heap. cbn.
  f_equal. by rewrite list_fmap_insert, Hfg.
Qed.

Lemma sim_strip_get_PREVIOUS r :
  @sim_strip K _ _ V _ _ eq (get_PREVIOUS r) (part_000_LRUMap.get_PREVIOUS r).
Proof.
  apply (sim_strip_bind stripped_entry); [apply sim_strip_deref|].
  intros e e' ->. by apply sim_strip_ret.
Qed.

Lemma sim_strip_get_NEXT r :
  @sim_strip K _ _ V _ _ eq (get_NEXT r) (part_000_LRUMap.get_NEXT r).
Proof.
  apply (sim_strip_bind stripped_entry); [apply sim_strip_deref|].
  intros e e' ->. by apply sim_strip_ret.
Qed.

Lemma sim_strip_set_PREVIOUS r v :
  @sim_strip K _ _ V _ _ eq (set_PREVIOUS r v) (part_000_LRUMap.set_PREVIOUS r v).
Proof. by apply sim_strip_update. Qed.

Lemma sim_strip_set_NEXT r v :
  @sim_strip K _ _ V _ _ eq (set_NEXT r v) (part_000_LRUMap.set_NEXT r v).
Proof. by apply sim_strip_update. Qed.

Lemma sim_strip_set_value r v :
  @sim_strip K _ _ V _ _ eq (set_value r v) (part_000_LRUMap.set_value r v).
Proof. by apply sim_strip_update. Qed.

Lemma sim_strip_new_Entry now k v :
  @sim_strip K _ _ V _ _ eq (new_Entry now k v) (part_000_LRUMap.new_Entry k v).
Proof.
  intros c Hlt. split; [|split; [done|]]; cbn.
  - unfold strip, with_heap. cbn. f_equal. by rewrite fmap_app.
  - by rewrite length_fmap.
Qed.

Lemma sim_strip_keymap_get k :
  @sim_strip K _ _ V _ _ eq (keymap_get k) (part_000_LRUMap.keymap_get k).
Proof. by apply sim_strip_gets. Qed.

Lemma sim_strip_keymap_set k r :
  @sim_strip K _ _ V _ _ eq (keymap_set k r) (part_000_LRUMap.keymap_set k r).
Proof. destruct r; [by apply sim_strip_modify|apply sim_strip_throw]. Qed.

Lemma sim_strip_keymap_delete k :
  @sim_strip K _ _ V _ _ eq (keymap_delete k) (part_000_LRUMap.keymap_delete k).
Proof. by apply sim_strip_modify. Qed.

Ltac strip_step :=
  first
    [ progress subst
    | match goal with H : stripped_entry _ _ |- _ => red in H end
    | apply sim_strip_get_PREVIOUS | apply sim_strip_get_NEXT
    | apply sim_strip_set_PREVIOUS | apply sim_strip_set_NEXT | apply sim_strip_set_value
    | apply sim_strip_keymap_get | apply sim_strip_keymap_set | apply sim_strip_keymap_delete
    | apply sim_strip_new_Entry
    | apply sim_strip_deref
    | apply sim_strip_throw
    | apply sim_strip_ret; (reflexivity || done)
    | apply sim_strip_modify; intros ?; split; reflexivity
    | apply (sim_strip_gets eq); intros ?; reflexivity
    | eapply sim_strip_bind; [ | intros ? ? ? ]
    | case_decide
    | case_match ].

Lemma sim_strip_delete k :
  @sim_strip K _ _ V _ _ eq (delete_ k) (part_000_LRUMap.delete_ k).
Proof. unfold part_000_LRUMap.delete_, delete_. repeat strip_step. Qed.

Lemma sim_strip_find k : @sim_strip K _ _ V _ _ eq (find k) (part_000_LRUMap.find k).
Proof. unfold part_000_LRUMap.find, find. repeat strip_step. Qed.

Lemma sim_strip_clear : @sim_strip K _ _ V _ _ eq clear part_000_LRUMap.clear.
Proof. unfold part_000_LRUMap.clear, clear. repeat strip_step. Qed.

Lemma sim_strip_purgeRemovedEntry r :
  @sim_strip K _ _ V _ _ eq (_purgeRemovedEntry r) (part_000_LRUMap.purgeRemovedEntry r).
Proof. unfold part_000_LRUMap.purgeRemovedEntry, _purgeRemovedEntry. repeat strip_step. Qed.

Lemma sim_strip_removeLRUItem :
  @sim_strip K _ _ V _ _ eq removeLRUItem part_000_LRUMap.removeLRUItem.
Proof.
  unfold part_000_LRUMap.removeLRUItem, removeLRUItem.
  repeat first [apply sim_strip_purgeRemovedEntry | strip_step].
Qed.

Lemma sim_strip_assign_loop now es r lim :
  @sim_strip K _ _ V _ _ eq (assign_loop now es r lim) (part_000_LRUMap.assign_loop es r lim).
Proof.
  revert r lim. induction es as [|kv es IH]; intros r lim;
    cbn [part_000_LRUMap.assign_loop assign_loop].
  - by apply sim_strip_ret.
  - repeat strip_step. apply IH.
Qed.

Lemma sim_strip_assign now es :
  @sim_strip K _ _ V _ _ eq (assign now es) (part_000_LRUMap.assign es).
Proof.
  unfold part_000_LRUMap.assign, assign.
  apply (sim_strip_bind eq); [apply (sim_strip_gets eq); intros ?; reflexivity|].
  intros ? ? <-.
  eapply sim_strip_bind; [apply sim_strip_modify; intros ?; split; reflexivity|].
  intros _ _ _.
  eapply sim_strip_bind; [apply sim_strip_assign_loop|]. intros ? ? <-.
  eapply sim_strip_bind; [apply sim_strip_modify; intros ?; split; reflexivity|].
  intros _ _ _.
  apply sim_strip_modify. intros ?. split; reflexivity.
Qed.

Lemma sim_strip_has now k :
  @sim_strip K _ _ V _ _ eq (has now k) (part_000_LRUMap.has k).
Proof.
  intros c Hlt. unfold part_000_LRUMap.has, part_000_LRUMap.keymap_has, has.
  cbv beta iota zeta delta [bind keymap_get gets ret].
  cbn [part_000_LRUMap._keymap strip].
  destruct (_keymap c !! k) as [h|]; [|by split].
  destruct (decide (lifetime c = 0)); [by split|done].
Qed.

Lemma sim_strip_markEntryAsUsed now entry renewAge :
  @sim_strip K _ _ V _ _ eq (_markEntryAsUsed now entry renewAge)
    (part_000_LRUMap._markEntryAsUsed entry).
Proof.
  unfold part_000_LRUMap._markEntryAsUsed, _markEntryAsUsed.
  eapply sim_strip_bind; [apply (sim_strip_gets eq); intros ?; reflexivity|].
  intros hd ? <-. destruct (decide (entry = hd)); [by apply sim_strip_ret|].
  do 12 (eapply sim_strip_bind; [repeat strip_step|intros ? ? ?]).
  apply (sim_strip_tail eq (modify (with_head entry))
           (modify (part_000_LRUMap.with_head entry))
           (fun _ => if renewAge then modify (with_this_created_at (Some now)) else ret tt)).
  - apply sim_strip_modify. intros ?. split; reflexivity.
  - intros [] c. destruct renewAge; by eexists.
Qed.

Lemma sim_strip_get now k :
  @sim_strip K _ _ V _ _ eq (get now k) (part_000_LRUMap.get k).
Proof.
  unfold part_000_LRUMap.get, get.
  eapply sim_strip_bind; [apply sim_strip_has|]. intros b ? <-.
  destruct (negb b); [apply sim_strip_throw|].
  repeat first [apply sim_strip_markEntryAsUsed | strip_step].
Qed.

Lemma sim_strip_set now k v :
  @sim_strip K _ _ V _ _ eq (set now k v) (part_000_LRUMap.set k v).
Proof.
  intros c Hlt. unfold part_000_LRUMap.set, set, keymap_get, part_000_LRUMap.keymap_has.
  change (bind (gets ?f) ?kc c) with (kc (f c) c).
  change (bind (gets ?g) ?km (strip c)) with (km (g (strip c)) (strip c)).
  cbn [part_000_LRUMap._keymap strip].
  destruct (_keymap c !! k) as [h|] eqn:Hk.
  - rewrite bool_decide_eq_true_2 by done. cbv beta iota.
    unfold part_000_LRUMap.keymap_get.
    change (bind (gets ?g) ?km (strip c)) with (km (g (strip c)) (strip c)).
    cbn [part_000_LRUMap._keymap strip]. rewrite Hk.
    match goal with |- follows eq (?mc c) (?mm (strip c)) =>
      cut (@sim_strip K _ _ V _ _ eq mc mm); [intros Hs; exact (Hs c Hlt)|] end.
    repeat first [apply sim_strip_markEntryAsUsed | strip_step].
  - rewrite bool_decide_eq_false_2 by (by intros [? ?]). cbv beta iota.
    match goal with |- follows eq (?mc c) (?mm (strip c)) =>
      cut (@sim_strip K _ _ V _ _ eq mc mm); [intros Hs; exact (Hs c Hlt)|] end.
    repeat first [apply sim_strip_removeLRUItem | strip_step].
Qed.

End StripSim.

(** ** The map as the class without time stamps *)

Section Part000Lemmas.
Context {K : Type} `{Countable K} {V : Type}.
Implicit Types (c : @LRUCache K _ _ V) (m : @part_000_LRUMap.LRUMap K _ _ V)
  (l : list (handle * @item K V)) (es : list (K * V)).

Lemma strip_dress m : strip (dress m) = m.
Proof.
  destruct m as [sz lim tl hd km hp]. unfold strip, dress. cbn. f_equal.
  rewrite <- list_fmap_compose. rewrite <- (list_fmap_id hp) at 2.
  apply list_fmap_ext. by intros i [k v p n] _.
Qed.

Lemma follows_Return {A} (a : A) c' (om : outcome A) m' :
  follows eq (Return a, c') (om, m') -> om = Return a /\ m' = strip c' /\ lifetime c' = 0.
Proof. intros (Hst & Hlt & Hres). cbn in *. destruct om; [by subst|done]. Qed.

Lemma follows_Throw {A} e c' (om : outcome A) m' :
  follows (@eq A) (Throw e, c') (om, m') -> om = Throw e /\ m' = strip c' /\ lifetime c' = 0.
Proof. intros (Hst & Hlt & Hres). cbn in *. destruct om; [done|by subst]. Qed.

(** The invariants do not read the time stamps. *)
Lemma dll_restamp (hp : list (@Entry K V)) o l n :
  dll hp o l n ->
  dll (dress_entry <$> (strip_entry <$> hp)) o ((fun x : handle * @item K V => (x.1, (x.2.1, 0) : @item K V)) <$> l) n.
Proof.
  revert o. induction l as [|[h [[k v] t]] l IH]; intros o; [done|].
  intros [Hx Hdll]. split.
  - cbn [fst snd fmap list_fmap] in *. rewrite !list_lookup_fmap, Hx. cbn.
    unfold dress_entry, strip_entry, entry_of. cbn. do 3 f_equal.
    by rewrite <- list_fmap_compose.
  - apply (IH _ Hdll).
Qed.

Lemma Rep_restamp c l :
  Rep c l -> exists l', Rep (dress (strip c)) l' /\ pairs_of l' = pairs_of l.
Proof.
  intros [Hnd Hdll Htl Hhd Hsz Hkm].
  set (l' := (fun x : handle * @item K V => (x.1, (x.2.1, 0) : @item K V)) <$> l).
  assert (l'.*1 = l.*1) as Hfst.
  { unfold l'. rewrite <- list_fmap_compose. done. }
  exists l'. split.
  - split.
    + by rewrite Hfst.
    + by apply dll_restamp.
    + cbn. by rewrite Hfst.
    + cbn. by rewrite Hfst.
    + cbn. unfold l'. by rewrite length_fmap.
    + intros k h. cbn. rewrite (Hkm k h). split.
      * intros (v & t & Hin). exists v, 0. unfold l'.
        apply list_elem_of_fmap. by exists (h, (k, v, t)).
      * intros (v & t & Hin). unfold l' in Hin.
        apply list_elem_of_fmap in Hin as ([h0 [[k0 v0] t0]] & [= -> -> -> ->] & Hin).
        by exists v0, t0.
  - unfold pairs_of, items_of, l'. rewrite <- !list_fmap_compose. done.
Qed.

Lemma WF_strip c : WF c -> WF_part_000 (strip c).
Proof. intros [l HR]. destruct (Rep_restamp c l HR) as (l' & HR' & _). by exists l'. Qed.

Lemma chain_from_strip fuel (hp : list (@Entry K V)) entry :
  part_000_LRUMap.chain_from fuel (strip_entry <$> hp) entry
  = fmap (M:=option) (fmap (M:=list) strip_entry) (chain_from fuel hp entry).
Proof.
  revert entry. induction fuel as [|fuel IH]; intros [h|]; cbn; try done.
  rewrite list_lookup_fmap. destruct (hp !! h) as [e|]; cbn; [|done].
  change (part_000_LRUMap.PREVIOUS (strip_entry e)) with (PREVIOUS e). rewrite IH.
  by destruct (chain_from fuel hp (PREVIOUS e)).
Qed.

Lemma chain_strip c :
  part_000_LRUMap.chain_from (S (length (part_000_LRUMap.heap (strip c))))
    (part_000_LRUMap.heap (strip c)) (part_000_LRUMap.tail (strip c))
  = fmap (M:=option) (fmap (M:=list) strip_entry) (chain c).
Proof. cbn [part_000_LRUMap.heap part_000_LRUMap.tail strip]. rewrite length_fmap. apply chain_from_strip. Qed.

Lemma entries_strip c : part_000_LRUMap.entries (strip c) = entries c.
Proof.
  unfold part_000_LRUMap.entries, entries. rewrite chain_strip.
  destruct (chain c) as [ents|]; cbn; [|done]. by rewrite <- list_fmap_compose.
Qed.

Lemma entries_dress m : part_000_LRUMap.entries m = entries (dress m).
Proof. by rewrite <- entries_strip, strip_dress. Qed.

Lemma WF_part_000_entries m es :
  WF_part_000 m -> part_000_LRUMap.entries m = Some es ->
  exists l, Rep (dress m) l /\ pairs_of l = es.
Proof. intros Hwf He. rewrite entries_dress in He. by apply WF_entries. Qed.

Lemma exec_strip op c :
  lifetime c = 0 ->
  exec_part_000 op (strip c) = strip (exec op c) /\
  raised_part_000 op (strip c) = raised op c /\
  lifetime (exec op c) = 0.
Proof.
  intros Hlt.
  assert (forall A (x : outcome A * @LRUCache K _ _ V)
            (y : outcome A * @part_000_LRUMap.LRUMap K _ _ V),
    follows eq x y ->
    y.2 = strip x.2 /\
    match y.1 with Return _ => None | Throw e => Some e end
    = match x.1 with Return _ => None | Throw e => Some e end /\
    lifetime x.2 = 0) as Hf.
  { intros A [[a|e] c'] [[b|e'] m'] (Hst & Hl & Hres); cbn in *; try done.
    by subst. }
  destruct op as [now es|now k|now k|now k v| |k| |k]; cbn [exec_part_000 exec raised_part_000 raised].
  - apply (Hf _ _ _ (sim_strip_assign now es c Hlt)).
  - apply (Hf _ _ _ (sim_strip_has now k c Hlt)).
  - apply (Hf _ _ _ (sim_strip_get now k c Hlt)).
  - apply (Hf _ _ _ (sim_strip_set now k v c Hlt)).
  - apply (Hf _ _ _ (sim_strip_removeLRUItem c Hlt)).
  - apply (Hf _ _ _ (sim_strip_delete k c Hlt)).
  - apply (Hf _ _ _ (sim_strip_clear c Hlt)).
  - apply (Hf _ _ _ (sim_strip_find k c Hlt)).
Qed.

Lemma run_strip ops c :
  lifetime c = 0 ->
  run_part_000 ops (strip c) = strip (run ops c) /\ lifetime (run ops c) = 0.
Proof.
  revert c. induction ops as [|op ops IH]; intros c Hlt; [done|].
  cbn [run_part_000 run foldl]. destruct (exec_strip op c Hlt) as (-> & _ & Hlt').
  apply (IH _ Hlt').
Qed.

Lemma toString_loop_strip (String_key : K -> string) (String_value : V -> string)
    (toLocaleString : Z -> string) fuel (hp : list (@Entry K V)) entry s :
  part_000_LRUMap.toString_loop String_key String_value fuel (strip_entry <$> hp) entry s
  = toString_loop String_key String_value toLocaleString fuel false hp entry s.
Proof.
  revert entry s. induction fuel as [|fuel IH]; intros [h|] s; cbn; try done.
  rewrite list_lookup_fmap. destruct (hp !! h) as [e|]; cbn; [|done].
  by rewrite IH.
Qed.

Lemma forEach_loop_strip {A} fuel
    (fc : V -> K -> A -> M (@LRUCache K _ _ V) A)
    (fm : V -> K -> A -> M (@part_000_LRUMap.LRUMap K _ _ V) A) entry a c :
  (forall v k a, sim_strip eq (fc v k a) (fm v k a)) ->
  lifetime c = 0 ->
  match forEach_loop fuel fc entry a c,
        part_000_LRUMap.forEach_loop fuel fm entry a (strip c) with
  | Some x, Some y => follows eq x y
  | None, None => True
  | _, _ => False
  end.
Proof.
  intros Hf. revert entry a c. induction fuel as [|fuel IH]; intros [h|] a c Hlt;
    cbn [forEach_loop part_000_LRUMap.forEach_loop]; try done.
  assert (@sim_strip K _ _ V _ _ eq
    (e <- deref (Some h) ;; a' <- fc (value e) (key e) a ;;
     p <- get_PREVIOUS (Some h) ;; ret (a', p))
    (e <- part_000_LRUMap.deref (Some h) ;;
     a' <- fm (part_000_LRUMap.value e) (part_000_LRUMap.key e) a ;;
     p <- part_000_LRUMap.get_PREVIOUS (Some h) ;; ret (a', p))) as Hstep.
  { eapply sim_strip_bind; [apply sim_strip_deref|]. intros e e' ->.
    eapply sim_strip_bind; [apply Hf|]. intros a1 ? <-.
    eapply sim_strip_bind; [apply sim_strip_get_PREVIOUS|]. intros p ? <-.
    by apply sim_strip_ret. }
  specialize (Hstep c Hlt).
  destruct ((e <- deref (Some h) ;; a' <- fc (value e) (key e) a ;;
             p <- get_PREVIOUS (Some h) ;; ret (a', p)) c) as [[[a1 p1]|e1] c1];
  destruct ((e <- part_000_LRUMap.deref (Some h) ;;
             a' <- fm (part_000_LRUMap.value e) (part_000_LRUMap.key e) a ;;
             p <- part_000_LRUMap.get_PREVIOUS (Some h) ;; ret (a', p)) (strip c))
    as [[[a2 p2]|e2] m2]; destruct Hstep as (Hst & Hlt1 & Hres); cbn in *; try done.
  injection Hres as <- <-. subst m2. by apply IH.
Qed.

End Part000Lemmas.

(** * Further properties *)

(** ** The class *)

Section ClassProperties.
Context {K : Type} `{Countable K} {V : Type}.
Implicit Types (c : @LRUCache K _ _ V) (hp : list (@Entry K V))
  (l : list (handle * @item K V)) (x : handle * @item K V) (es : list (K * V)).

(** X1.  The constructor with initial entries of distinct keys.  With a capacity
    of one or more that is less than the number of entries it throws
    [overflow].  Otherwise it returns a well-formed cache that holds the
    entries in the order given, the first as the oldest; [limit] is the
    capacity passed, or the number of entries when the capacity is omitted
    or less than 1. *)
Theorem constructor_loads_the_entries now lt (lim : option Z) es :
  NoDup es.*1 -> default 0 lim < MAX_VALUE ->
  if decide (1 <= default 0 lim < Z.of_nat (length es))
  then (constructor now lt lim (Some es)).1 = Throw overflow
  else exists c,
    constructor now lt lim (Some es) = (Return tt, c) /\
    WF c /\ entries c = Some es /\ size c = Z.of_nat (length es) /\
    lifetime c = lt /\
    limit c = (if decide (default 0 lim < 1) then Z.of_nat (length es) else default 0 lim).
Proof. apply constructor_entries. Qed.

(** X2.  [assign] with a non-empty input of distinct keys that fits the capacity
    (or with a capacity of 0 or less) returns from any state, well-formed or
    not, and leaves a well-formed cache that holds exactly the input, in
    order: [size] is its length and [find] answers with its values and with
    nothing else. *)
Theorem assign_replaces_the_contents c now es :
  NoDup es.*1 -> es <> [] ->
  limit c <= 0 \/ Z.of_nat (length es) <= limit c ->
  exists c',
    assign now es c = (Return tt, c') /\
    WF c' /\ entries c' = Some es /\ size c' = Z.of_nat (length es) /\
    (forall k, find k c' = (Return (assoc k es), c')) /\
    limit c' = limit c /\ lifetime c' = lifetime c.
Proof.
  intros Hnd Hne Hlim.
  destruct (assign_Rep c now es Hnd (or_introl Hne) Hlim) as (c' & Hrun & HR' & Hl & Hlt).
  assert (pairs_of (fresh_chain (length (heap c)) now es) = es) as El.
  { unfold pairs_of. rewrite fresh_chain_items, <- list_fmap_compose. apply list_fmap_id. }
  exists c'. split_and!; try done.
  - by eexists.
  - by rewrite (Rep_pairs c' _ HR'), El.
  - by rewrite (Rep_size_pairs c' _ HR'), El.
  - intros k. by rewrite (Rep_find c' _ k HR'), El.
Qed.

(** X3.  [assign([])] on a well-formed cache that holds entries empties the index
    and sets [size] to 0 and the newest end to [undefined], but leaves the
    oldest end where it was: the traversal still yields the old entries,
    while [find] answers no key, and the state is not well-formed. *)
Theorem assign_of_nothing_keeps_the_chain c l now :
  Rep c l -> l <> [] ->
  exists c',
    assign now [] c = (Return tt, c') /\
    size c' = 0 /\ _keymap c' = ∅ /\ head c' = None /\
    tail c' = tail c /\ tail c' <> None /\
    entries c' = entries c /\ entries c' <> Some [] /\
    (forall k, find k c' = (Return None, c')) /\
    ~ WF c'.
Proof.
  intros HR Hne.
  set (c' := with_size (Z.of_nat (base.size (∅ : gmap K handle)))
               (with_head None (with_keymap ∅ c))).
  assert (assign now [] c = (Return tt, c')) as Hrun by done.
  assert (tail c <> None) as Htl.
  { rewrite (rep_tail _ _ HR). destruct l; [done|]. by cbn. }
  assert (entries c <> Some []) as Hent.
  { rewrite (Rep_pairs c l HR). destruct l; [done|]. by cbn. }
  assert (size c' = 0) as Hsz by (cbn; by rewrite map_size_empty).
  exists c'. split_and!; try done.
  intros [l' HR']. apply Htl.
    pose proof (rep_size _ _ HR') as Hsz'. rewrite Hsz in Hsz'.
    destruct l'; [|cbn in Hsz'; lia]. exact (rep_tail _ _ HR').
Qed.

(** X4.  [delete(k)] on a well-formed cache returns the value of [k], or
    [undefined] if [k] is absent, and leaves a well-formed cache with the
    other entries in their order and [size] counting them; [k] is not found
    afterwards.  An absent key leaves the cache as it is; deleting the only
    entry leaves both ends [undefined]. *)
Theorem delete_removes_the_key c es k :
  WF c -> entries c = Some es ->
  exists c',
    delete_ k c = (Return (assoc k es), c') /\
    WF c' /\ entries c' = Some (without_key k es) /\
    size c' = Z.of_nat (length (without_key k es)) /\
    find k c' = (Return None, c') /\
    (assoc k es = None -> c' = c) /\
    (without_key k es = [] -> is_empty c') /\
    limit c' = limit c /\ lifetime c' = lifetime c.
Proof.
  intros Hwf He. destruct (WF_entries c es Hwf He) as (l & HR & <-).
  destruct (Rep_find_key c l k HR) as [(Ha & Hn & Hk)|(l1 & h & v & t & l2 & -> & Ha & H1 & H2 & Hk)].
  - exists c. rewrite Ha.
    assert (delete_ k c = (Return None, c)) as ->.
    { unfold delete_. cbv beta iota zeta delta [bind keymap_get gets]. by rewrite Hk. }
    rewrite without_key_fresh by (by rewrite pairs_keys).
    split_and!; try done.
    + by rewrite <- (Rep_size_pairs c l HR).
    + unfold find. cbv beta iota zeta delta [bind keymap_get gets]. by rewrite Hk.
    + intros E. apply Rep_empty. destruct l; [done|discriminate].
  - destruct (delete_Rep c l1 (h, (k, v, t)) l2 HR) as (c' & Hdel & HR' & _).
    unfold key_of, value_of in Hdel. cbn [fst snd] in Hdel.
    pose proof (config_kept_exec (call_delete k) c) as [Hl Hlt].
    cbn [exec] in Hl, Hlt. rewrite Hdel in Hl, Hlt. cbn in Hl, Hlt.
    assert (without_key k (pairs_of (l1 ++ (h, (k, v, t)) :: l2)) = pairs_of (l1 ++ l2)) as ->.
    { rewrite !pairs_app. change (pairs_of ((h, (k, v, t)) :: l2)) with ((k, v) :: pairs_of l2).
      by apply without_key_mid. }
    exists c'. rewrite Ha, Hdel.
    assert (_keymap c' !! k = None) as Hk'.
    { apply (Rep_absent c' _ k HR'). rewrite <- pairs_keys, pairs_app, fmap_app.
      apply not_elem_of_app. by split. }
    split_and!; try done.
    + by exists (l1 ++ l2).
    + by apply Rep_entries.
    + by apply (Rep_size_pairs c' _ HR').
    + unfold find. cbv beta iota zeta delta [bind keymap_get gets]. by rewrite Hk'.
    + intros E. apply Rep_empty. destruct (l1 ++ l2); [done|discriminate].
Qed.

(** X5.  [find(k)] on a well-formed cache returns the value of [k], or
    [undefined] if [k] is absent, and leaves the cache as it is: it reads no
    clock, moves no entry and removes none. *)
Theorem find_is_a_peek c es k :
  WF c -> entries c = Some es -> find k c = (Return (assoc k es), c).
Proof.
  intros Hwf He. destruct (WF_entries c es Hwf He) as (l & HR & <-).
  unfold find. cbv beta iota zeta delta [bind keymap_get gets].
  destruct (Rep_find_key c l k HR) as [(Ha & Hn & Hk)|(l1 & h & v & t & l2 & -> & Ha & H1 & H2 & Hk)].
  - by rewrite Hk, Ha.
  - rewrite Hk, Ha. destruct (Rep_lookup c l1 h k v t l2 HR) as [_ Hh].
    unfold deref, ret. cbn. by rewrite Hh.
Qed.

(** X6.  [clear()] returns from any state, well-formed or not, and leaves a
    well-formed empty cache with [limit] and [lifetime] as they were; the
    entry objects are left in place.  A [set] that follows, with a capacity
    of one or more, leaves exactly the entry it sets. *)
Theorem clear_resets_any_state c :
  exists c',
    clear c = (Return tt, c') /\ is_empty c' /\ WF c' /\ entries c' = Some [] /\
    limit c' = limit c /\ lifetime c' = lifetime c /\ heap c' = heap c /\
    (forall now k v, 0 < limit c ->
       exists c'', set now k v c' = (Return tt, c'') /\ WF c'' /\
         entries c'' = Some [(k, v)]).
Proof.
  destruct (clear_Rep c) as [Hc HR]. exists (clear c).2.
  split; [done|]. split; [by apply Rep_empty|]. split; [by exists []|].
  split; [by apply (Rep_entries _ [] HR)|]. do 3 (split; [done|]).
  intros now k v Hpos.
  destruct (set_new_room (clear c).2 [] now k v HR) as (c'' & Hset & HR'' & _).
  - by apply (Rep_absent _ [] k HR), not_elem_of_nil.
  - rewrite (rep_size _ _ HR). cbn. change (limit (clear c).2) with (limit c). lia.
  - exists c''. split_and!; [done|by eexists|]. by rewrite (Rep_entries _ _ HR'').
Qed.

(** X7.  [removeLRUItem()] of the class on a well-formed cache returns the oldest
    key-value pair and leaves a well-formed cache with the other entries in
    their order, [size] counting them and the removed key not found; on an
    empty cache it returns [undefined] and leaves the cache as it is. *)
Theorem removeLRUItem_returns_the_oldest c es :
  WF c -> entries c = Some es ->
  exists c',
    removeLRUItem c = (Return (es !! 0%nat), c') /\
    WF c' /\ entries c' = Some (drop 1 es) /\
    size c' = Z.of_nat (length (drop 1 es)) /\
    (es = [] -> c' = c) /\
    (forall k v, es !! 0%nat = Some (k, v) -> find k c' = (Return None, c')).
Proof.
  intros Hwf He. destruct (WF_entries c es Hwf He) as (l & HR & <-).
  destruct l as [|[h [[k v] t]] l].
  - exists c. rewrite (removeLRUItem_nil c HR). split_and!; try done.
    by rewrite (Rep_size_pairs c [] HR).
  - destruct (removeLRUItem_cons c _ l HR) as (c' & Hrem & HR' & _).
    exists c'. split_and!; try done.
    + by exists l.
    + by apply Rep_pairs.
    + by apply Rep_size_pairs.
    + intros k' v' [= <- <-]. rewrite (Rep_find c' l k HR').
      pose proof (Rep_keys_NoDup c _ HR) as Hnd.
      rewrite <- pairs_keys in Hnd.
      change (pairs_of ((h, (k, v, t)) :: l)) with ((k, v) :: pairs_of l) in Hnd.
      rewrite fmap_cons in Hnd. apply NoDup_cons in Hnd as [Hk _]. cbn [fst] in Hk.
      by apply assoc_None in Hk as ->.
Qed.

(** X8.  When nothing expires ([lifetime] is 0), the class behaves as a list of
    key-value pairs, oldest first: from a well-formed cache, whatever
    sequence of calls is made, the traversal afterwards yields the list that
    [lru_exec] computes call by call ([set] appends or moves to the end and
    drops the first pair beyond the capacity, [get] moves to the end,
    [delete] removes, [removeLRUItem] drops the first pair, [has] and [find]
    change nothing), [size] is its length and [find] reads it. *)
Theorem calls_follow_the_lru_list ops c es :
  WF c -> lifetime c = 0 -> entries c = Some es -> all_fit (limit c) ops es ->
  let es' := foldl (fun es op => lru_exec (limit c) op es) es ops in
  WF (run ops c) /\ entries (run ops c) = Some es' /\
  size (run ops c) = Z.of_nat (length es') /\
  (forall k, find k (run ops c) = (Return (assoc k es'), run ops c)).
Proof.
  intros Hwf Hlt He Hfit. cbn zeta.
  destruct (WF_entries c es Hwf He) as (l & HR & <-). clear Hwf He.
  destruct (run_follows_the_list ops c l HR Hlt Hfit) as (l' & HR' & El').
  rewrite <- El'. split_and!.
  - by exists l'.
  - by apply Rep_pairs.
  - by apply Rep_size_pairs.
  - intros k. by apply Rep_find.
Qed.

(** X9.  From a well-formed cache, every sequence of calls (an [assign] among them
    with distinct keys, within the capacity, and not empty on a cache that
    holds entries) leaves a well-formed cache: the traversal yields each key
    of the index once, [size] of them.  No call of the sequence throws
    anything but the [notFound] of [get]. *)
Theorem calls_keep_the_index_and_the_chain_together ops c :
  WF c -> fits_along ops c ->
  WF (run ops c) /\
  Forall (fun r => r = None \/ r = Some notFound) (raised_along ops c) /\
  exists ks, keys (run ops c) = Some ks /\ NoDup ks /\
    dom (_keymap (run ops c)) = list_to_set ks /\
    Z.of_nat (length ks) = size (run ops c).
Proof.
  intros Hwf Hfit.
  assert (WF (run ops c) /\
          Forall (fun r => r = None \/ r = Some notFound) (raised_along ops c)) as [[l HR] Hr].
  { revert c Hwf Hfit. induction ops as [|op ops IH]; intros c Hwf Hfit.
    - split; [done|]. apply Forall_nil_2.
    - destruct Hfit as [Hfit Hrest]. cbn [run foldl raised_along].
      destruct (WF_exec op c Hwf Hfit) as [Hwf' Hraised].
      destruct (IH _ Hwf' Hrest) as [? ?]. split; [done|]. by apply Forall_cons. }
  split; [by exists l|]. split; [done|]. by apply (Rep_consistent _ l).
Qed.

(** X10.  In a well-formed cache with a capacity of one or more, [set(k, v)] of a
    new key followed by [get(k)], before the lifetime has passed since the
    [set] or with expiry off, returns [v]; the entry is the newest after the
    [set], and the [get] changes no order. *)
Theorem get_after_set_of_a_new_key c es now k v now' :
  WF c -> entries c = Some es -> assoc k es = None -> 0 < limit c ->
  lifetime c = 0 \/ now' - now <= 60000 * lifetime c ->
  exists c' c'',
    set now k v c = (Return tt, c') /\
    get now' k c' = (Return v, c'') /\
    entries c'' = entries c' /\
    entries c' = Some (lru_set (limit c) k v es) /\
    last (lru_set (limit c) k v es) = Some (k, v).
Proof.
  intros Hwf He Ha Hpos Hfresh.
  destruct (WF_entries c es Hwf He) as (l & HR & <-).
  destruct (Rep_find_key c l k HR) as [(_ & Hn & Hk)|(l1 & h0 & v0 & t & l2 & -> & Ha' & _)];
    [|congruence].
  pose proof (config_kept_exec (call_set now k v) c) as [Hl' Hlt'].
  cbn [exec] in Hl', Hlt'.
  assert (exists c' l', set now k v c = (Return tt, c') /\
            Rep c' (l' ++ [(length (heap c), (k, v, now))]) /\
            pairs_of (l' ++ [(length (heap c), (k, v, now))]) = lru_set (limit c) k v (pairs_of l))
    as (c' & l' & Hset & HR' & El).
  { unfold lru_set. rewrite Ha, <- (Rep_size_pairs c l HR).
    destruct (decide (limit c < size c + 1)) as [Hfull|Hroom].
    - destruct (set_new_full c l now k v HR Hk Hfull)
        as (c1 & x & rest & r & c' & _ & El & _ & _ & Hset & HR' & _).
      destruct l as [|y l].
      { rewrite (rep_size _ _ HR) in Hfull. cbn in Hfull. lia. }
      cbn in El. injection El as <- <-.
      exists c', l. split_and!; [done|done|].
      by rewrite <- (pairs_snoc (y :: l) (length (heap c)) k v now).
    - destruct (set_new_room c l now k v HR Hk) as (c' & Hset & HR' & _); [lia|].
      exists c', l. split_and!; [done|done|]. apply pairs_snoc. }
  rewrite Hset in Hl', Hlt'. cbn in Hl', Hlt'.
  destruct (get_fresh c' l' (length (heap c)) k v now [] now' HR') as (c'' & Hget & HR'' & _).
  { rewrite Hlt'. lia. }
  cbn [app] in HR''.
  exists c', c''. split_and!; try done.
  - by rewrite (Rep_pairs c'' _ HR''), (Rep_pairs c' _ HR').
  - by rewrite (Rep_pairs c' _ HR'), El.
  - rewrite <- El, pairs_snoc. apply last_snoc.
Qed.

(** X11.  [set(k, v)] on a key whose entry is older than the lifetime stores [v]
    ([find] sees it) but does not make the entry young again: a [get(k)] at
    the same clock value throws [notFound] and [has(k)] returns [false],
    either removing the entry with the value just set. *)
Theorem set_keeps_the_age_of_an_entry c l1 h k v0 t l2 now v :
  Rep c (l1 ++ (h, (k, v0, t)) :: l2) -> 0 < lifetime c ->
  60000 * lifetime c < now - t ->
  exists c' c'',
    set now k v c = (Return tt, c') /\
    find k c' = (Return (Some v), c') /\
    get now k c' = (Throw notFound, c'') /\
    has now k c' = (Return false, c'') /\
    Rep c'' (l1 ++ l2) /\
    find k c'' = (Return None, c'').
Proof.
  intros HR Hlt Hexp.
  destruct (set_existing c l1 h k v0 t l2 now v HR) as (c' & Hset & HR' & _).
  pose proof (config_kept_exec (call_set now k v) c) as [_ Hlt'].
  cbn [exec] in Hlt'. rewrite Hset in Hlt'. cbn in Hlt'.
  rewrite app_assoc in HR'.
  assert (HR1 : Rep c' ((l1 ++ l2) ++ (h, (k, v, t)) :: [])) by done.
  destruct (get_expired c' (l1 ++ l2) h k v t [] now HR1) as (c'' & Hget & HR'' & Hhas);
    [lia|lia|].
  rewrite app_nil_r in HR''.
  exists c', c''. split_and!; try done.
  - rewrite (Rep_find c' _ k HR1). rewrite pairs_mid.
    rewrite assoc_mid; [done|].
    pose proof (Rep_keys_NoDup c' _ HR1) as Hnd.
    rewrite <- pairs_keys, pairs_mid, fmap_app, fmap_cons in Hnd.
    by apply NoDup_mid in Hnd as (? & _).
  - rewrite (Rep_find c'' _ k HR'').
    pose proof (Rep_keys_NoDup c' _ HR1) as Hnd.
    rewrite <- pairs_keys, pairs_mid, fmap_app, fmap_cons in Hnd.
    apply NoDup_mid in Hnd as (Hk & _). cbn [fst] in Hk.
    by apply assoc_None in Hk as ->.
Qed.

(** X12.  On a well-formed cache, [keys()], [values()] and the default iterator
    yield the keys, the values and the key-value pairs from the oldest to
    the newest entry and then report [done]; a [next] after that reports
    [done] again. *)
Theorem iterators_yield_the_chain c es (n : nat) :
  WF c -> entries c = Some es -> (length es < n)%nat ->
  for_of (KeyIterator_next c) n (keys_iterator c) = Some (es.*1, mkIterator None) /\
  for_of (ValueIterator_next c) n (values_iterator c) = Some (es.*2, mkIterator None) /\
  for_of (EntryIterator_next c) n (entries_iterator c) = Some (es, mkIterator None) /\
  KeyIterator_next c (mkIterator None) = (Return None, mkIterator None) /\
  ValueIterator_next c (mkIterator None) = (Return None, mkIterator None) /\
  EntryIterator_next c (mkIterator None) = (Return None, mkIterator None).
Proof.
  intros Hwf He Hn. destruct (WF_entries c es Hwf He) as (l & HR & <-).
  assert (length (pairs_of l) = length l) as Hlen.
  { unfold pairs_of, items_of. by rewrite !length_fmap. }
  assert (n = S (length l) + (n - S (length l)))%nat as -> by lia.
  unfold keys_iterator, values_iterator, entries_iterator,
    KeyIterator_next, ValueIterator_next, EntryIterator_next.
  rewrite (rep_tail _ _ HR).
  rewrite !(for_of_dll _ c None l _ (rep_dll _ _ HR)).
  by rewrite entries_of_keys, entries_of_values, entries_of_pairs.
Qed.

(** X13.  Iterators are live.  An iterator obtained from a full well-formed cache
    before a [set] of a new key yields, after that [set], the evicted entry
    and then reports [done]: it visits none of the entries that are still
    in the cache. *)
Theorem eviction_ends_an_iterator c es k0 v0 now k v :
  WF c -> entries c = Some ((k0, v0) :: es) ->
  assoc k ((k0, v0) :: es) = None -> limit c < size c + 1 ->
  exists c',
    set now k v c = (Return tt, c') /\
    entries c' = Some (es ++ [(k, v)]) /\
    forall n, (0 < n)%nat ->
      for_of (EntryIterator_next c') (S n) (entries_iterator c) = Some ([(k0, v0)], mkIterator None).
Proof.
  intros Hwf He Ha Hfull. destruct (WF_entries c _ Hwf He) as (l & HR & El).
  destruct l as [|[h0 [[k0' v0'] t0]] l]; [done|].
  change (pairs_of ((h0, (k0', v0', t0)) :: l)) with ((k0', v0') :: pairs_of l) in El.
  assert (k0' = k0 /\ v0' = v0 /\ pairs_of l = es) as (-> & -> & <-)
    by (split_and!; congruence).
  change ((k0, v0) :: pairs_of l) with (pairs_of ((h0, (k0, v0, t0)) :: l)) in Ha.
  destruct (Rep_find_key c _ k HR) as [(_ & _ & Hk)|(l1 & h1 & v1 & t1 & l2 & _ & Ha' & _)].
  2: { assert (@None V = Some v1) by (etrans; [symmetry; exact Ha|exact Ha']). done. }
  destruct (set_new_insert c _ now k v HR Hk) as (c1 & Hset & HR1 & _).
  destruct (decide (limit c < size c + 1)); [|lia].
  cbn [app] in HR1.
  destruct (removeLRUItem_purges c1 _ _ HR1) as (c' & Hrem & HR' & Hh0).
  assert (set now k v c = (Return tt, c')) as Hset'.
  { rewrite Hset. cbv beta iota zeta delta [bind ret]. by rewrite Hrem. }
  exists c'. split; [done|]. split.
  { by rewrite (Rep_pairs c' _ HR'), pairs_snoc. }
  intros n Hn. destruct n as [|n]; [lia|].
  unfold entries_iterator. rewrite (rep_tail _ _ HR). cbn [first_or fmap list_fmap fst].
  cbn [fst snd] in Hh0.
  rewrite for_of_S. unfold EntryIterator_next, iterator_next at 1. cbn [it_entry].
  rewrite Hh0. cbn [entry_of PREVIOUS key value fst snd].
  rewrite for_of_S. unfold iterator_next at 1. done.
Qed.

(** X14.  [forEach] with a callback that leaves the cache alone calls it once for
    every entry of a well-formed cache, from the oldest to the newest, with
    the value and the key, and leaves the cache as it is. *)
Theorem forEach_visits_oldest_to_newest {A} (f : V -> K -> A -> A) c es (n : nat) a :
  WF c -> entries c = Some es -> (length es <= n)%nat ->
  forEach n (fun v k a => ret (f v k a)) a c
  = Some (Return (foldl (fun a kv => f kv.2 kv.1 a) a es), c).
Proof.
  intros Hwf He Hn. destruct (WF_entries c es Hwf He) as (l & HR & <-).
  assert (length (pairs_of l) = length l) as Hlen.
  { unfold pairs_of, items_of. by rewrite !length_fmap. }
  assert (n = length l + (n - length l))%nat as -> by lia.
  unfold forEach. rewrite (rep_tail _ _ HR).
  apply (forEach_loop_dll f c None l _ a (rep_dll _ _ HR)).
Qed.

(** X15.  [forEach] with a callback that calls [get] on the key it is given
    visits the oldest entry only, when the cache holds two entries or more
    and nothing expires: the [get] makes that entry the newest, and the loop
    ends at the newest entry. *)
Theorem forEach_with_get_stops_after_the_oldest c k0 v0 es now (n : nat) :
  WF c -> entries c = Some ((k0, v0) :: es) -> es <> [] -> lifetime c = 0 ->
  exists c',
    forEach (S n) (fun v k a => get now k ;;; ret (a ++ [k])) [] c
      = Some (Return [k0], c') /\
    WF c' /\ entries c' = Some (es ++ [(k0, v0)]).
Proof.
  intros Hwf He Hne Hlt. destruct (WF_entries c _ Hwf He) as (l & HR & El).
  destruct l as [|[h0 [[k0' v0'] t0]] l]; [done|].
  change (pairs_of ((h0, (k0', v0', t0)) :: l)) with ((k0', v0') :: pairs_of l) in El.
  assert (k0' = k0 /\ v0' = v0 /\ pairs_of l = es) as (-> & -> & <-)
    by (split_and!; congruence).
  destruct (get_fresh c [] h0 k0 v0 t0 l now HR (or_introl Hlt)) as (c' & Hget & HR' & _).
  cbn [app] in HR'.
  destruct (Rep_lookup c [] h0 k0 v0 t0 l HR) as [_ Hh0].
  destruct (Rep_lookup c' l h0 k0 v0 t0 [] HR') as [_ Hh0'].
  exists c'. split; [|split; [by eexists|]].
  - unfold forEach. rewrite (rep_tail _ _ HR). cbn [first_or fmap list_fmap fst].
    rewrite forEach_loop_S.
    cbv beta iota zeta delta [bind deref get_PREVIOUS ret]. rewrite Hh0.
    cbn [value key]. rewrite Hget. cbv beta iota. rewrite Hh0'.
    cbn [PREVIOUS]. by destruct n.
  - by rewrite (Rep_pairs c' _ HR'), pairs_snoc.
Qed.

End ClassProperties.

Section ToStringProperties.
Context {K : Type} `{Countable K} {V : Type}.
Variables (String_key : K -> string) (String_value : V -> string)
  (toLocaleString : Z -> string).
Implicit Types (c : @LRUCache K _ _ V) (l : list (handle * @item K V)).

(** X16.  [toString] of a well-formed cache is the entries from the oldest to the
    newest, each rendered as key, colon, value (and the date in parentheses
    when asked for), joined by [" < "]; the empty cache gives the empty
    string. *)
Theorem toString_joins_the_entries withDate c l :
  Rep c l ->
  toString String_key String_value toLocaleString withDate c
  = Some (String.concat " < "
      ((fun x : @item K V =>
          if withDate
          then (String_key x.1.1 +:+ ":" +:+ String_value x.1.2 +:+
                " (" +:+ toLocaleString x.2 +:+ ")")%string
          else (String_key x.1.1 +:+ ":" +:+ String_value x.1.2)%string)
       <$> items_of l)).
Proof. apply Rep_toString. Qed.

End ToStringProperties.

(** ** [lru.js] *)

Section LruJsProperties.
Context {K : Type} `{Countable K} {V : Type}.
Implicit Types (m : @LRUMap.LRUMap K _ _ V) (hp : list (@LRUMap.Entry K V))
  (l : list (handle * @item K V)) (x : handle * @item K V) (es : list (K * V)).

(** X17.  [LRUMap] of [lru.js] behaves as the same list of key-value pairs as the
    class: from a well-formed map, a sequence of calls leaves the entries
    that [lru_exec] computes, provided that no [set] inserts a new key into
    a map of capacity less than 1 and no [removeLRUItem] is called on a map
    that holds exactly one entry. *)
Theorem lru_js_calls_follow_the_lru_list ops m es :
  WF_lru_js m -> LRUMap.entries m = Some es -> all_fit_lru_js (LRUMap.limit m) ops es ->
  let es' := foldl (fun es op => lru_exec (LRUMap.limit m) op es) es ops in
  WF_lru_js (run_lru_js ops m) /\
  LRUMap.entries (run_lru_js ops m) = Some es' /\
  LRUMap.size (run_lru_js ops m) = Z.of_nat (length es') /\
  (forall k, LRUMap.find k (run_lru_js ops m) = (Return (assoc k es'), run_lru_js ops m)).
Proof.
  intros Hwf He Hfit. cbn zeta.
  destruct (WF_lru_js_entries m es Hwf He) as (l & HR & <-). clear Hwf He.
  assert (exists l', Rep (embed (run_lru_js ops m)) l' /\
            pairs_of l' = foldl (fun es op => lru_exec (LRUMap.limit m) op es) (pairs_of l) ops)
    as (l' & HR' & El').
  { remember (LRUMap.limit m) as lim eqn:Elim.
    revert m l HR Elim Hfit. induction ops as [|op ops IH]; intros m l HR Elim Hfit.
    - by exists l.
    - destruct Hfit as [Hfit Hrest]. cbn [run_lru_js foldl].
      rewrite Elim in Hfit.
      destruct (exec_lru_js_follows_the_list op m l HR Hfit) as (l1 & HR1 & El1 & Hl1).
      destruct (IH (exec_lru_js op m) l1 HR1) as (l' & HR' & El'); [congruence| |].
      + by rewrite El1, <- Elim.
      + exists l'. split; [done|]. by rewrite El', El1, <- Elim. }
  rewrite <- El'. split_and!.
  - by exists l'.
  - rewrite entries_embed. by apply Rep_pairs.
  - change (LRUMap.size (run_lru_js ops m)) with (size (embed (run_lru_js ops m))).
    by apply Rep_size_pairs.
  - intros k. by rewrite find_embed, (Rep_find _ _ k HR').
Qed.

(** X18.  [get(k)] of [lru.js] on a well-formed map returns the value of [k] and
    makes its entry the newest, keeping the order of the others and [size];
    for an absent key it returns [undefined] and leaves the map as it is. *)
Theorem lru_js_get_returns_the_value m es k :
  WF_lru_js m -> LRUMap.entries m = Some es ->
  exists m',
    LRUMap.get k m = (Return (assoc k es), m') /\
    WF_lru_js m' /\ LRUMap.entries m' = Some (lru_get k es) /\
    LRUMap.size m' = LRUMap.size m /\
    (assoc k es = None -> m' = m).
Proof.
  intros Hwf He. destruct (WF_lru_js_entries m es Hwf He) as (l & HR & <-).
  unfold lru_get, LRUMap.get. cbv beta iota zeta delta [bind LRUMap.keymap_get gets].
  destruct (Rep_find_key (embed m) l k HR) as [(Ha & Hn & Hk)|(l1 & h & v & t & l2 & -> & Ha & H1 & H2 & Hk)];
    cbn [_keymap embed] in Hk; rewrite Hk, Ha.
  - exists m. by split_and!.
  - destruct (markEntryAsUsed_lru_js m l1 (h, (k, v, t)) l2 HR) as (m' & Hmark & HR').
    cbn [fst] in Hmark. rewrite Hmark. cbv beta iota.
    assert (Rep (embed m') ((l1 ++ l2) ++ (h, (k, v, t)) :: [])) as HR''
      by (by rewrite <- app_assoc).
    destruct (Rep_lookup (embed m') (l1 ++ l2) h k v t [] HR'') as [_ Hh].
    cbn [heap embed] in Hh. apply lookup_embed in Hh as [Hh ->].
    unfold LRUMap.deref, ret. rewrite Hh. cbn [LRUMap.value].
    exists m'. split_and!; try done.
    + by eexists.
    + rewrite entries_embed, (Rep_pairs _ _ HR').
      rewrite pairs_mid, without_key_mid by done. by rewrite !pairs_app, app_assoc.
    + change (size (embed m') = size (embed m)).
      rewrite (rep_size _ _ HR'), (rep_size _ _ HR), !length_app. cbn. lia.
Qed.

(** X19.  In every state, well-formed or not, [delete], [find], [has], [clear]
    and [assign] of [lru.js] answer as those of the class do on the same
    state with expiry off, and leave the same state; so does
    [removeLRUItem], unless [size] is 1. *)
Theorem lru_js_agrees_with_the_class m k es now :
  agrees eq (LRUMap.delete_ k m) (delete_ k (embed m)) /\
  agrees eq (LRUMap.find k m) (find k (embed m)) /\
  agrees eq (LRUMap.has k m) (has now k (embed m)) /\
  agrees eq (LRUMap.clear m) (clear (embed m)) /\
  agrees eq (LRUMap.assign es m) (assign 0 es (embed m)) /\
  (LRUMap.size m <> 1 -> agrees eq (LRUMap.removeLRUItem m) (removeLRUItem (embed m))).
Proof.
  split_and!.
  - apply sim_delete.
  - apply sim_find.
  - unfold LRUMap.has, has. cbv beta iota zeta delta [bind LRUMap.keymap_get keymap_get gets ret].
    cbn [_keymap embed lifetime]. destruct (LRUMap._keymap m !! k); by split.
  - apply sim_clear.
  - apply sim_assign.
  - apply sim_removeLRUItem.
Qed.

(** X20.  An [LRUMap] of [lru.js] constructed with capacity 0, or with no
    argument, takes one [set], which returns and leaves the map without
    keys but with [newest] pointing at the evicted entry; the next [set],
    of whatever key, throws a [TypeError] after it has indexed the key. *)
Theorem lru_js_of_capacity_zero_breaks (k1 k2 : K) (v1 v2 : V) :
  let m0 := (@LRUMap.constructor K _ _ V (Some 0) None).2 in
  let m0' := (@LRUMap.constructor K _ _ V None None).2 in
  m0' = m0 /\
  exists m1 m2,
    LRUMap.set k1 v1 m0 = (Return tt, m1) /\
    LRUMap.size m1 = 0 /\ LRUMap._keymap m1 = ∅ /\ LRUMap.tail m1 = None /\
    LRUMap.newest m1 = Some 0%nat /\
    LRUMap.set k2 v2 m1 = (Throw TypeError, m2) /\
    LRUMap._keymap m2 !! k2 = Some 1%nat /\ LRUMap.size m2 = 0.
Proof.
  cbn zeta. split; [done|].
  change (@LRUMap.constructor K _ _ V (Some 0) None).2
    with (@LRUMap.mkMap K _ _ V 0 0 None None None ∅ []).
  assert (LRUMap.set k1 v1 (@LRUMap.mkMap K _ _ V 0 0 None None None ∅ [])
          = (Return tt, LRUMap.mkMap 0 0 None (Some 0%nat) None ∅
                          [LRUMap.mkEntry k1 v1 None None])) as Hset1.
  { unfold LRUMap.set, LRUMap.removeLRUItem. msimpl_js. rewrite lookup_empty.
    mrun_js. by rewrite delete_insert_eq, delete_empty. }
  assert (LRUMap.set k2 v2 (LRUMap.mkMap 0 0 None (Some 0%nat) None ∅
                              [LRUMap.mkEntry k1 v1 None None])
          = (Throw TypeError,
             LRUMap.mkMap 0 0 None (Some 1%nat) None (<[k2 := 1%nat]> ∅)
               [LRUMap.mkEntry k1 v1 (Some 1%nat) None;
                LRUMap.mkEntry k2 v2 None (Some 0%nat)])) as Hset2.
  { unfold LRUMap.set, LRUMap.removeLRUItem. msimpl_js. rewrite lookup_empty.
    by mrun_js. }
  eexists _, _. split; [exact Hset1|]. do 4 (split; [done|]).
  split; [exact Hset2|]. split; [|done]. cbn. by rewrite lookup_insert_eq.
Qed.

(** X21.  On a well-formed map of [lru.js], [keys()], [values()], [toJSON()],
    [toString()] and [forEach] (with a callback that leaves the map alone)
    go through the entries from the oldest to the newest: [toJSON] returns
    one record for each entry and no hole, [toString] joins them with
    [" < "]. *)
Theorem lru_js_traversals_yield_the_entries
    (String_key : K -> string) (String_value : V -> string) m es :
  WF_lru_js m -> LRUMap.entries m = Some es ->
  LRUMap.keys m = Some es.*1 /\
  LRUMap.values m = Some es.*2 /\
  LRUMap.toJSON m = Some (Return (Some <$> es)) /\
  LRUMap.toString String_key String_value m
    = Some (String.concat " < "
              ((fun kv => String_key kv.1 +:+ ":" +:+ String_value kv.2)%string <$> es)) /\
  (forall A (f : V -> K -> A -> A) (a : A) (n : nat),
     (length es <= n)%nat ->
     LRUMap.forEach n (fun v k a => ret (f v k a)) a m
     = Some (Return (foldl (fun a kv => f kv.2 kv.1 a) a es), m)).
Proof.
  intros Hwf He. destruct (WF_lru_js_entries m es Hwf He) as (l & HR & <-).
  destruct (Rep_chain_lru_js m l HR) as (ents & Hc & Ees).
  assert (LRUMap.key <$> ents = (pairs_of l).*1) as Hkeys.
  { rewrite <- (entries_of_keys l None None), <- Ees, <- list_fmap_compose. done. }
  assert (LRUMap.value <$> ents = (pairs_of l).*2) as Hvals.
  { rewrite <- (entries_of_values l None None), <- Ees, <- list_fmap_compose. done. }
  assert ((fun e => (LRUMap.key e, LRUMap.value e)) <$> ents = pairs_of l) as Hpairs.
  { rewrite <- (entries_of_pairs l None None), <- Ees, <- list_fmap_compose. done. }
  assert (length ents = length l) as Hlen0.
  { rewrite <- (length_fmap embed_entry), Ees. apply length_entries_of. }
  assert (length (pairs_of l) = length l) as Hlen.
  { unfold pairs_of, items_of. by rewrite !length_fmap. }
  split_and!.
  - unfold LRUMap.keys. by rewrite Hc, Hkeys.
  - unfold LRUMap.values. by rewrite Hc, Hvals.
  - unfold LRUMap.toJSON. rewrite Hc.
    change (LRUMap.size m) with (size (embed m)). rewrite (rep_size _ _ HR).
    destruct (decide (Z.of_nat (length l) < 0)); [lia|].
    rewrite Hlen0, Nat2Z.id, Nat.sub_diag. cbn [replicate]. rewrite app_nil_r.
    by rewrite list_fmap_compose, Hpairs.
  - unfold LRUMap.toString. rewrite (toString_loop_embed _ _ (fun _ => ""%string)).
    pose proof (Rep_toString String_key String_value (fun _ => ""%string)
                  false (embed m) l HR) as Hs.
    unfold toString in Hs. cbn [heap tail embed] in Hs. rewrite length_fmap in Hs.
    cbn [LRUMap.heap LRUMap.tail]. rewrite Hs. f_equal. f_equal.
    unfold pairs_of. by rewrite <- list_fmap_compose.
  - intros A f a n Hn. unfold LRUMap.forEach.
    change (LRUMap.tail m) with (tail (embed m)). rewrite (rep_tail _ _ HR).
    assert (n = length l + (n - length l))%nat as -> by lia.
    apply (forEach_loop_dll_lru_js f m None l _ a (rep_dll _ _ HR)).
Qed.

(** X29.  The constructor of [lru.js] with initial entries of distinct keys
    throws [overflow] when the capacity is one or more and less than the
    number of entries; otherwise it returns a well-formed map that holds the
    entries in the order given, with [limit] the capacity passed, or the
    number of entries when the capacity is omitted or less than 1. *)
Theorem lru_js_constructor_loads_the_entries (lim : option Z) es :
  NoDup es.*1 -> default 0 lim < MAX_VALUE ->
  if decide (1 <= default 0 lim < Z.of_nat (length es))
  then (@LRUMap.constructor K _ _ V lim (Some es)).1 = Throw overflow
  else exists m,
    LRUMap.constructor lim (Some es) = (Return tt, m) /\
    WF_lru_js m /\ LRUMap.entries m = Some es /\
    LRUMap.size m = Z.of_nat (length es) /\
    LRUMap.limit m
    = (if decide (default 0 lim < 1) then Z.of_nat (length es) else default 0 lim).
Proof.
  intros Hnd Hmax.
  pose proof (constructor_entries 0 0 lim es Hnd Hmax) as Hc.
  pose proof (agrees_constructor lim (Some es)) as Hs.
  destruct (decide (1 <= default 0 lim < Z.of_nat (length es))).
  - destruct (constructor 0 0 lim (Some es)) as [oc c'].
    destruct (LRUMap.constructor lim (Some es)) as [om m'].
    destruct Hs as [_ Hres]. cbn [fst snd] in *. subst oc. by destruct om; subst.
  - destruct Hc as (c & Hc & [l HR] & He & Hsz & _ & Hl). rewrite Hc in Hs.
    destruct (LRUMap.constructor lim (Some es)) as [om m'].
    apply agrees_Return in Hs as [-> ->].
    exists m'. split_and!; try done.
    + by exists l.
    + by rewrite entries_embed.
Qed.

End LruJsProperties.

(** ** The [LRUMap] of [part_000] *)

Section Part000Properties.
Context {K : Type} `{Countable K} {V : Type}.
Implicit Types (c : @LRUCache K _ _ V) (m : @part_000_LRUMap.LRUMap K _ _ V)
  (l : list (handle * @item K V)) (es : list (K * V)).

Lemma sim_strip_constructor now (lim : option Z) (oes : option (list (K * V))) :
  follows eq (@constructor K _ _ V now 0 lim oes) (part_000_LRUMap.constructor lim oes).
Proof.
  unfold constructor, part_000_LRUMap.constructor. destruct oes as [es|]; [|by split].
  set (this := @mkCache K _ _ V 0 0 (default 0 lim) None None ∅ None []).
  change (@part_000_LRUMap.mkMap K _ _ V 0 (default 0 lim) None None ∅ []) with (strip this).
  assert (@sim_strip K _ _ V _ _ eq
    (assign now es ;;;
     if decide (default 0 lim < 1) then modify (fun c => with_limit (size c) c) else ret tt)
    (part_000_LRUMap.assign es ;;;
     if decide (default 0 lim < 1)
     then modify (fun m0 => part_000_LRUMap.with_limit (part_000_LRUMap.size m0) m0)
     else ret tt)) as Hs.
  { eapply sim_strip_bind; [apply sim_strip_assign|]. intros _ _ _.
    destruct (decide (default 0 lim < 1)); [|by apply sim_strip_ret].
    apply sim_strip_modify. intros c. by split. }
  by apply Hs.
Qed.

(** X22.  In every state of the class in which expiry is off ([lifetime] is
    0), well-formed or not, and whatever the clock and the time stamps are,
    each method of the [LRUMap] of [part_000] answers on the state without
    its lifetime and time stamps as the method of the class does on the
    state: the same result or the same error, and the same state without
    lifetime and time stamps.  So do the constructors, and so does every
    sequence of calls; every state of the map is such a state. *)
Theorem part_000_LRUMap_is_the_class_with_expiry_off c now k v es lim oes ops :
  lifetime c = 0 ->
  follows eq (assign now es c) (part_000_LRUMap.assign es (strip c)) /\
  follows eq (has now k c) (part_000_LRUMap.has k (strip c)) /\
  follows eq (get now k c) (part_000_LRUMap.get k (strip c)) /\
  follows eq (set now k v c) (part_000_LRUMap.set k v (strip c)) /\
  follows eq (removeLRUItem c) (part_000_LRUMap.removeLRUItem (strip c)) /\
  follows eq (delete_ k c) (part_000_LRUMap.delete_ k (strip c)) /\
  follows eq (clear c) (part_000_LRUMap.clear (strip c)) /\
  follows eq (find k c) (part_000_LRUMap.find k (strip c)) /\
  follows eq (@constructor K _ _ V now 0 lim oes) (part_000_LRUMap.constructor lim oes) /\
  run_part_000 ops (strip c) = strip (run ops c) /\
  part_000_LRUMap.entries (strip c) = entries c /\
  (forall m, exists c0, lifetime c0 = 0 /\ strip c0 = m).
Proof.
  intros Hlt. split_and!.
  - by apply sim_strip_assign.
  - by apply sim_strip_has.
  - by apply sim_strip_get.
  - by apply sim_strip_set.
  - by apply sim_strip_removeLRUItem.
  - by apply sim_strip_delete.
  - by apply sim_strip_clear.
  - by apply sim_strip_find.
  - apply sim_strip_constructor.
  - by apply run_strip.
  - apply entries_strip.
  - intros m. exists (dress m). split; [done|apply strip_dress].
Qed.

(** X23.  The [LRUMap] of [part_000] behaves as the list of key-value pairs
    of the class, with no exception: from a well-formed map, whatever
    sequence of calls is made (a capacity of 0 and a [removeLRUItem] of the
    only entry included), the map is well-formed afterwards, the traversal
    yields the list that [lru_exec] computes call by call, [size] is its
    length and [find] reads it. *)
Theorem part_000_LRUMap_calls_follow_the_lru_list ops m es :
  WF_part_000 m -> part_000_LRUMap.entries m = Some es ->
  all_fit (part_000_LRUMap.limit m) ops es ->
  let es' := foldl (fun es op => lru_exec (part_000_LRUMap.limit m) op es) es ops in
  WF_part_000 (run_part_000 ops m) /\
  part_000_LRUMap.entries (run_part_000 ops m) = Some es' /\
  part_000_LRUMap.size (run_part_000 ops m) = Z.of_nat (length es') /\
  (forall k, part_000_LRUMap.find k (run_part_000 ops m)
             = (Return (assoc k es'), run_part_000 ops m)).
Proof.
  intros Hwf He Hfit. cbn zeta.
  destruct (WF_part_000_entries m es Hwf He) as (l & HR & <-).
  destruct (run_follows_the_list ops (dress m) l HR eq_refl Hfit) as (l' & HR' & El').
  destruct (run_strip ops (dress m) eq_refl) as [Hrun Hlt']. rewrite strip_dress in Hrun.
  rewrite Hrun. change (limit (dress m)) with (part_000_LRUMap.limit m) in El'.
  rewrite <- El'. split_and!.
  - apply WF_strip. by exists l'.
  - rewrite entries_strip. by apply Rep_pairs.
  - change (part_000_LRUMap.size (strip ?c)) with (size c). by apply Rep_size_pairs.
  - intros k. pose proof (sim_strip_find k _ Hlt') as Hf.
    rewrite (Rep_find _ _ k HR') in Hf.
    destruct (part_000_LRUMap.find k (strip (run ops (dress m)))) as [om m'].
    by apply follows_Return in Hf as (-> & -> & _).
Qed.

(** X24.  [get(k)] of the [LRUMap] of [part_000] on a well-formed map
    returns the value of [k] and makes its entry the newest, keeping the
    order of the others; for a key the map does not hold it throws
    [notFound] and leaves the map as it is. *)
Theorem part_000_LRUMap_get_throws_for_a_missing_key m es k :
  WF_part_000 m -> part_000_LRUMap.entries m = Some es ->
  exists m',
    part_000_LRUMap.get k m
    = (match assoc k es with Some v => Return v | None => Throw notFound end, m') /\
    WF_part_000 m' /\ part_000_LRUMap.entries m' = Some (lru_get k es) /\
    part_000_LRUMap.size m' = part_000_LRUMap.size m /\
    (assoc k es = None -> m' = m).
Proof.
  intros Hwf He. destruct (WF_part_000_entries m es Hwf He) as (l & HR & <-).
  pose proof (sim_strip_get 0 k (dress m) eq_refl) as Hg. rewrite strip_dress in Hg.
  unfold lru_get.
  destruct (Rep_find_key (dress m) l k HR)
    as [(Ha & Hn & Hk)|(l1 & h & v & t & l2 & -> & Ha & H1 & H2 & Hk)]; rewrite Ha.
  - rewrite (get_absent (dress m) 0 k Hk) in Hg.
    destruct (part_000_LRUMap.get k m) as [om m'].
    apply follows_Throw in Hg as (-> & -> & _). rewrite strip_dress.
    exists m. split_and!; try done; try (rewrite entries_dress; by apply Rep_pairs).
  - destruct (get_fresh (dress m) l1 h k v t l2 0 HR (or_introl eq_refl))
      as (c' & Hget & HR' & _).
    rewrite Hget in Hg. destruct (part_000_LRUMap.get k m) as [om m'].
    apply follows_Return in Hg as (-> & -> & _).
    exists (strip c'). split_and!; try done.
    + apply WF_strip. by eexists.
    + rewrite entries_strip, (Rep_pairs _ _ HR').
      rewrite pairs_mid, without_key_mid by done. by rewrite !pairs_app, app_assoc.
    + change (part_000_LRUMap.size (strip c')) with (size c').
      change (part_000_LRUMap.size m) with (size (dress m)).
      rewrite (rep_size _ _ HR'), (rep_size _ _ HR), !length_app. cbn. f_equal. lia.
Qed.

(** X25.  [removeLRUItem()] of the [LRUMap] of [part_000] on a well-formed
    map returns the oldest key-value pair and leaves a well-formed map with
    the other entries in their order; on an empty map it returns
    [undefined] and leaves the map as it is.  Removing the only entry leaves
    both ends [undefined] and the index empty. *)
Theorem part_000_LRUMap_removeLRUItem_returns_the_oldest m es :
  WF_part_000 m -> part_000_LRUMap.entries m = Some es ->
  exists m',
    part_000_LRUMap.removeLRUItem m = (Return (es !! 0%nat), m') /\
    WF_part_000 m' /\ part_000_LRUMap.entries m' = Some (drop 1 es) /\
    part_000_LRUMap.size m' = Z.of_nat (length (drop 1 es)) /\
    (es = [] -> m' = m) /\
    (length es = 1%nat ->
       part_000_LRUMap.tail m' = None /\ part_000_LRUMap.head m' = None /\
       part_000_LRUMap._keymap m' = ∅).
Proof.
  intros Hwf He. destruct (WF_part_000_entries m es Hwf He) as (l & HR & <-).
  pose proof (sim_strip_removeLRUItem (dress m) eq_refl) as Hr. rewrite strip_dress in Hr.
  destruct l as [|[h [[k v] t]] l].
  - rewrite (removeLRUItem_nil _ HR) in Hr.
    destruct (part_000_LRUMap.removeLRUItem m) as [om m'].
    apply follows_Return in Hr as (-> & -> & _). rewrite strip_dress.
    exists m. split_and!; try done.
    change (part_000_LRUMap.size m) with (size (dress m)). by rewrite (rep_size _ _ HR).
  - destruct (removeLRUItem_cons _ _ l HR) as (c' & Hrem & HR' & _).
    rewrite Hrem in Hr. destruct (part_000_LRUMap.removeLRUItem m) as [om m'].
    apply follows_Return in Hr as (-> & -> & _).
    exists (strip c'). split_and!; try done.
    + apply WF_strip. by exists l.
    + rewrite entries_strip. by apply Rep_pairs.
    + change (part_000_LRUMap.size (strip c')) with (size c'). by apply Rep_size_pairs.
    + intros Hlen. destruct l; [|done].
      apply Rep_empty in HR' as (_ & Htl & Hhd & Hkm). by split_and!.
Qed.

(** X26.  The constructor of the [LRUMap] of [part_000] with initial entries
    of distinct keys throws [overflow] when the capacity is one or more and
    less than the number of entries; otherwise it returns a well-formed map
    that holds the entries in the order given, with [limit] the capacity
    passed, or the number of entries when the capacity is omitted or less
    than 1. *)
Theorem part_000_LRUMap_constructor_loads_the_entries (lim : option Z) es :
  NoDup es.*1 -> default 0 lim < MAX_VALUE ->
  if decide (1 <= default 0 lim < Z.of_nat (length es))
  then (@part_000_LRUMap.constructor K _ _ V lim (Some es)).1 = Throw overflow
  else exists m,
    part_000_LRUMap.constructor lim (Some es) = (Return tt, m) /\
    WF_part_000 m /\ part_000_LRUMap.entries m = Some es /\
    part_000_LRUMap.size m = Z.of_nat (length es) /\
    part_000_LRUMap.limit m
    = (if decide (default 0 lim < 1) then Z.of_nat (length es) else default 0 lim).
Proof.
  intros Hnd Hmax.
  pose proof (constructor_entries 0 0 lim es Hnd Hmax) as Hc.
  pose proof (sim_strip_constructor 0 lim (Some es)) as Hs.
  destruct (decide (1 <= default 0 lim < Z.of_nat (length es))).
  - destruct (constructor 0 0 lim (Some es)) as [oc c'].
    destruct (part_000_LRUMap.constructor lim (Some es)) as [om m'].
    cbn [fst] in *. subst oc. by apply follows_Throw in Hs as (-> & _).
  - destruct Hc as (c & Hc & Hwf & He & Hsz & _ & Hl). rewrite Hc in Hs.
    destruct (part_000_LRUMap.constructor lim (Some es)) as [om m'].
    apply follows_Return in Hs as (-> & -> & _).
    exists (strip c). split_and!; try done.
    + by apply WF_strip.
    + by rewrite entries_strip.
Qed.

(** X27.  On a well-formed map of [part_000], [keys()], [values()],
    [toJSON()], [toString()] and [forEach] (with a callback that leaves the
    map alone) go through the entries from the oldest to the newest:
    [toJSON] returns one record for each entry and no hole, [toString] joins
    them with [" < "]. *)
Theorem part_000_LRUMap_traversals_yield_the_entries
    (String_key : K -> string) (String_value : V -> string) m es :
  WF_part_000 m -> part_000_LRUMap.entries m = Some es ->
  part_000_LRUMap.keys m = Some es.*1 /\
  part_000_LRUMap.values m = Some es.*2 /\
  part_000_LRUMap.toJSON m = Some (Return (Some <$> es)) /\
  part_000_LRUMap.toString String_key String_value m
    = Some (String.concat " < "
              ((fun kv => String_key kv.1 +:+ ":" +:+ String_value kv.2)%string <$> es)) /\
  (forall A (f : V -> K -> A -> A) (a : A) (n : nat),
     (length es <= n)%nat ->
     part_000_LRUMap.forEach n (fun v k a => ret (f v k a)) a m
     = Some (Return (foldl (fun a kv => f kv.2 kv.1 a) a es), m)).
Proof.
  intros Hwf He. destruct (WF_part_000_entries m es Hwf He) as (l & HR & <-).
  pose proof (chain_strip (dress m)) as Hc. rewrite strip_dress in Hc.
  rewrite (Rep_chain _ _ HR) in Hc. cbn [fmap option_fmap option_map] in Hc.
  assert (length (pairs_of l) = length l) as Hlen.
  { unfold pairs_of, items_of. by rewrite !length_fmap. }
  split_and!.
  - unfold part_000_LRUMap.keys. rewrite Hc, <- list_fmap_compose.
    f_equal. apply (entries_of_keys l None None).
  - unfold part_000_LRUMap.values. rewrite Hc, <- list_fmap_compose.
    f_equal. apply (entries_of_values l None None).
  - unfold part_000_LRUMap.toJSON. rewrite Hc.
    change (part_000_LRUMap.size m) with (size (dress m)). rewrite (rep_size _ _ HR).
    destruct (decide (Z.of_nat (length l) < 0)); [lia|].
    rewrite length_fmap, length_entries_of, Nat2Z.id, Nat.sub_diag. cbn [replicate].
    rewrite app_nil_r, <- list_fmap_compose. do 2 f_equal.
    rewrite <- (entries_of_pairs l None None), <- list_fmap_compose. done.
  - pose proof (Rep_toString String_key String_value (fun _ => ""%string)
                  false (dress m) l HR) as Hs.
    unfold toString in Hs.
    rewrite <- (toString_loop_strip String_key String_value) in Hs.
    change (strip_entry <$> heap (dress m)) with (part_000_LRUMap.heap (strip (dress m))) in Hs.
    rewrite <- (length_fmap strip_entry) in Hs.
    change (strip_entry <$> heap (dress m)) with (part_000_LRUMap.heap (strip (dress m))) in Hs.
    change (tail (dress m)) with (part_000_LRUMap.tail (strip (dress m))) in Hs.
    rewrite strip_dress in Hs. unfold part_000_LRUMap.toString. rewrite Hs.
    f_equal. f_equal. unfold pairs_of. by rewrite <- list_fmap_compose.
  - intros A f a n Hn.
    pose proof (forEach_loop_strip n (fun v k a => ret (f v k a)) (fun v k a => ret (f v k a))
                  (tail (dress m)) a (dress m)) as Hf.
    rewrite strip_dress in Hf.
    assert (n = length l + (n - length l))%nat as En by lia.
    pose proof (forEach_loop_dll f (dress m) None l (n - length l) a (rep_dll _ _ HR)) as Hd.
    rewrite <- En, <- (rep_tail _ _ HR) in Hd. rewrite Hd in Hf.
    unfold part_000_LRUMap.forEach. change (part_000_LRUMap.tail m) with (tail (dress m)).
    destruct (part_000_LRUMap.forEach_loop n _ (tail (dress m)) a m) as [[om m']|].
    + destruct Hf as (Hst & _ & Hres); [by intros; apply sim_strip_ret|done|].
      cbn in *. rewrite strip_dress in Hst. subst m'. by destruct om; subst.
    + by destruct Hf; [intros; apply sim_strip_ret|].
Qed.

(** X28.  [forEach] of the [LRUMap] of [part_000] follows [forEach] of the
    class with expiry off, also when the callback calls methods of the
    container: if each call of the callback on the map answers as the
    callback on the cache does, then so does the whole loop, and it stops
    where the loop of the class stops. *)
Theorem part_000_LRUMap_forEach_follows_the_class {A} (fuel : nat)
    (fc : V -> K -> A -> M (@LRUCache K _ _ V) A)
    (fm : V -> K -> A -> M (@part_000_LRUMap.LRUMap K _ _ V) A) (a : A) c :
  lifetime c = 0 ->
  (forall v k a, sim_strip eq (fc v k a) (fm v k a)) ->
  match forEach fuel fc a c, part_000_LRUMap.forEach fuel fm a (strip c) with
  | Some x, Some y => follows eq x y
  | None, None => True
  | _, _ => False
  end.
Proof.
  intros Hlt Hf. unfold forEach, part_000_LRUMap.forEach.
  by apply forEach_loop_strip.
Qed.

End Part000Properties.

(** ** The further properties on the example caches *)

Local Open Scope string_scope.

Lemma WF_three_entries : WF three_entries.
Proof. eexists. exact Rep_three_entries. Qed.

Lemma entries_three_entries :
  entries three_entries = Some [("A", 10); ("B", 20); ("C", 30)].
Proof. by vm_compute. Qed.

Lemma Rep_three_entries_lru_js :
  Rep (embed three_entries_lru_js)
    [(0%nat, ("A", 10, 0)); (1%nat, ("B", 20, 0)); (2%nat, ("C", 30, 0))].
Proof. rep_compute. Qed.

Lemma WF_three_entries_lru_js : WF_lru_js three_entries_lru_js.
Proof. eexists. exact Rep_three_entries_lru_js. Qed.

Lemma entries_three_entries_lru_js :
  LRUMap.entries three_entries_lru_js = Some [("A", 10); ("B", 20); ("C", 30)].
Proof. by vm_compute. Qed.

Lemma constructor_loads_the_entries_witness :
  NoDup [("x", 1); ("y", 2)].*1 /\ default 0 (Some 2) < MAX_VALUE /\
  exists c, constructor 0 0 (Some 2) (Some [("x", 1); ("y", 2)]) = (Return tt, c) /\
    entries c = Some [("x", 1); ("y", 2)] /\ limit c = 2.
Proof.
  assert (NoDup [("x", 1); ("y", 2)].*1) as Hnd by compute_done.
  assert (default 0 (Some 2) < MAX_VALUE) as Hmax by (by vm_compute).
  split; [exact Hnd|]. split; [exact Hmax|].
  pose proof (constructor_loads_the_entries 0 0 (Some 2) [("x", 1); ("y", 2)] Hnd Hmax) as Hc.
  destruct (decide (1 <= default 0 (Some 2) < Z.of_nat (length [("x", 1); ("y", 2)])))
    as [[_ Hd]|_]; [by vm_compute in Hd|].
  destruct Hc as (c & Hc & _ & He & _ & _ & Hl). exists c. by split_and!.
Defined.

Lemma assign_replaces_the_contents_witness :
  NoDup [("P", 1); ("Q", 2)].*1 /\ [("P", 1); ("Q", 2)] <> [] /\
  (limit three_entries <= 0 \/ Z.of_nat (length [("P", 1); ("Q", 2)]) <= limit three_entries) /\
  exists c', assign 5 [("P", 1); ("Q", 2)] three_entries = (Return tt, c') /\
    entries c' = Some [("P", 1); ("Q", 2)].
Proof.
  assert (NoDup [("P", 1); ("Q", 2)].*1) as Hnd by compute_done.
  assert ([("P", 1); ("Q", 2)] <> []) as Hne by done.
  assert (limit three_entries <= 0 \/
          Z.of_nat (length [("P", 1); ("Q", 2)]) <= limit three_entries) as Hlim
    by (right; by vm_compute).
  split_and!; try assumption.
  destruct (assign_replaces_the_contents three_entries 5 _ Hnd Hne Hlim)
    as (c' & Hrun & _ & He & _).
  by exists c'.
Defined.

Lemma assign_of_nothing_keeps_the_chain_witness :
  Rep three_entries
    [(0%nat, ("A", 10, 1)); (1%nat, ("B", 20, 2)); (2%nat, ("C", 30, 3))] /\
  exists c', assign 5 [] three_entries = (Return tt, c') /\ size c' = 0 /\
    entries c' = entries three_entries.
Proof.
  split; [exact Rep_three_entries|].
  destruct (assign_of_nothing_keeps_the_chain three_entries _ 5 Rep_three_entries)
    as (c' & Hrun & Hsz & _ & _ & _ & _ & He & _); [done|].
  by exists c'.
Defined.

Lemma delete_removes_the_key_witness :
  WF three_entries /\ entries three_entries = Some [("A", 10); ("B", 20); ("C", 30)] /\
  exists c', delete_ "B" three_entries = (Return (Some 20), c') /\
    entries c' = Some [("A", 10); ("C", 30)].
Proof.
  split; [exact WF_three_entries|]. split; [exact entries_three_entries|].
  destruct (delete_removes_the_key three_entries _ "B" WF_three_entries entries_three_entries)
    as (c' & Hdel & _ & He & _).
  exists c'. split; [exact Hdel|exact He].
Defined.

Lemma find_is_a_peek_witness :
  WF three_entries /\ entries three_entries = Some [("A", 10); ("B", 20); ("C", 30)] /\
  find "B" three_entries = (Return (Some 20), three_entries).
Proof.
  split; [exact WF_three_entries|]. split; [exact entries_three_entries|].
  exact (find_is_a_peek three_entries _ "B" WF_three_entries entries_three_entries).
Defined.

Lemma removeLRUItem_returns_the_oldest_witness :
  WF three_entries /\ entries three_entries = Some [("A", 10); ("B", 20); ("C", 30)] /\
  exists c', removeLRUItem three_entries = (Return (Some ("A", 10)), c') /\
    entries c' = Some [("B", 20); ("C", 30)].
Proof.
  split; [exact WF_three_entries|]. split; [exact entries_three_entries|].
  destruct (removeLRUItem_returns_the_oldest three_entries _ WF_three_entries
              entries_three_entries) as (c' & Hrem & _ & He & _).
  exists c'. split; [exact Hrem|exact He].
Defined.

Lemma calls_follow_the_lru_list_witness :
  WF three_entries /\ lifetime three_entries = 0 /\
  entries three_entries = Some [("A", 10); ("B", 20); ("C", 30)] /\
  all_fit (limit three_entries) [call_get 5 "A"; call_set 6 "D" 40; call_delete "C"]
    [("A", 10); ("B", 20); ("C", 30)] /\
  entries (run [call_get 5 "A"; call_set 6 "D" 40; call_delete "C"] three_entries)
    = Some [("A", 10); ("D", 40)].
Proof.
  assert (lifetime three_entries = 0) as Hlt by reflexivity.
  assert (all_fit (limit three_entries) [call_get 5 "A"; call_set 6 "D" 40; call_delete "C"]
            [("A", 10); ("B", 20); ("C", 30)]) as Hfit by (cbn; tauto).
  split; [exact WF_three_entries|]. split; [exact Hlt|].
  split; [exact entries_three_entries|]. split; [exact Hfit|].
  exact (proj1 (proj2 (calls_follow_the_lru_list _ three_entries _ WF_three_entries Hlt
                         entries_three_entries Hfit))).
Defined.

Lemma calls_keep_the_index_and_the_chain_together_witness :
  WF three_entries /\
  fits_along [call_get 5 "A"; call_set 6 "D" 40; call_delete "C"] three_entries /\
  WF (run [call_get 5 "A"; call_set 6 "D" 40; call_delete "C"] three_entries).
Proof.
  assert (fits_along [call_get 5 "A"; call_set 6 "D" 40; call_delete "C"] three_entries)
    as Hfit by (cbn [fits_along assign_fits]; tauto).
  split; [exact WF_three_entries|]. split; [exact Hfit|].
  exact (proj1 (calls_keep_the_index_and_the_chain_together _ three_entries
                  WF_three_entries Hfit)).
Defined.

Lemma get_after_set_of_a_new_key_witness :
  WF three_entries /\ entries three_entries = Some [("A", 10); ("B", 20); ("C", 30)] /\
  assoc "D" [("A", 10); ("B", 20); ("C", 30)] = None /\ 0 < limit three_entries /\
  (lifetime three_entries = 0 \/ 9 - 4 <= 60000 * lifetime three_entries) /\
  exists c' c'', set 4 "D" 40 three_entries = (Return tt, c') /\
    get 9 "D" c' = (Return 40, c'').
Proof.
  assert (assoc "D" [("A", 10); ("B", 20); ("C", 30)] = None) as Ha by reflexivity.
  assert (0 < limit three_entries) as Hpos by (by vm_compute).
  assert (lifetime three_entries = 0 \/ 9 - 4 <= 60000 * lifetime three_entries) as Hfresh
    by (by left).
  split; [exact WF_three_entries|]. split; [exact entries_three_entries|].
  split; [exact Ha|]. split; [exact Hpos|]. split; [exact Hfresh|].
  destruct (get_after_set_of_a_new_key three_entries _ 4 "D" 40 9 WF_three_entries
              entries_three_entries Ha Hpos Hfresh) as (c' & c'' & Hset & Hget & _).
  by exists c', c''.
Defined.

Lemma set_keeps_the_age_of_an_entry_witness :
  Rep one_entry ([] ++ (0%nat, ("k", 7, 0)) :: []) /\ 0 < lifetime one_entry /\
  60000 * lifetime one_entry < 90000 - 0 /\
  exists c' c'', set 90000 "k" 8 one_entry = (Return tt, c') /\
    get 90000 "k" c' = (Throw notFound, c'').
Proof.
  assert (0 < lifetime one_entry) as Hlt by (by vm_compute).
  assert (60000 * lifetime one_entry < 90000 - 0) as Hexp by (by vm_compute).
  split; [exact Rep_one_entry|]. split; [exact Hlt|]. split; [exact Hexp|].
  destruct (set_keeps_the_age_of_an_entry one_entry [] 0%nat "k" 7 0 [] 90000 8
              Rep_one_entry Hlt Hexp) as (c' & c'' & Hset & _ & Hget & _).
  by exists c', c''.
Defined.

Lemma iterators_yield_the_chain_witness :
  WF three_entries /\ entries three_entries = Some [("A", 10); ("B", 20); ("C", 30)] /\
  (length [("A", 10); ("B", 20); ("C", 30)] < 4)%nat /\
  for_of (KeyIterator_next three_entries) 4 (keys_iterator three_entries)
    = Some (["A"; "B"; "C"], mkIterator None).
Proof.
  assert (length [("A", 10); ("B", 20); ("C", 30)] < 4)%nat as Hn by (cbn; lia).
  split; [exact WF_three_entries|]. split; [exact entries_three_entries|].
  split; [exact Hn|].
  exact (proj1 (iterators_yield_the_chain three_entries _ 4 WF_three_entries
                  entries_three_entries Hn)).
Defined.

Lemma eviction_ends_an_iterator_witness :
  WF three_entries /\ entries three_entries = Some (("A", 10) :: [("B", 20); ("C", 30)]) /\
  assoc "D" (("A", 10) :: [("B", 20); ("C", 30)]) = None /\
  limit three_entries < size three_entries + 1 /\
  exists c', set 4 "D" 40 three_entries = (Return tt, c') /\
    for_of (EntryIterator_next c') 3 (entries_iterator three_entries)
      = Some ([("A", 10)], mkIterator None).
Proof.
  assert (assoc "D" (("A", 10) :: [("B", 20); ("C", 30)]) = None) as Ha by reflexivity.
  assert (limit three_entries < size three_entries + 1) as Hfull by (by vm_compute).
  split; [exact WF_three_entries|]. split; [exact entries_three_entries|].
  split; [exact Ha|]. split; [exact Hfull|].
  destruct (eviction_ends_an_iterator three_entries _ "A" 10 4 "D" 40 WF_three_entries
              entries_three_entries Ha Hfull) as (c' & Hset & _ & Hit).
  exists c'. split; [exact Hset|]. apply (Hit 2%nat). lia.
Defined.

Lemma forEach_visits_oldest_to_newest_witness :
  WF three_entries /\ entries three_entries = Some [("A", 10); ("B", 20); ("C", 30)] /\
  (length [("A", 10); ("B", 20); ("C", 30)] <= 3)%nat /\
  forEach 3 (fun v k a => ret (a ++ [(k, v)])%list) [] three_entries
    = Some (Return [("A", 10); ("B", 20); ("C", 30)], three_entries).
Proof.
  assert (length [("A", 10); ("B", 20); ("C", 30)] <= 3)%nat as Hn by (cbn; lia).
  split; [exact WF_three_entries|]. split; [exact entries_three_entries|].
  split; [exact Hn|].
  exact (forEach_visits_oldest_to_newest (fun v k a => (a ++ [(k, v)])%list) three_entries _ 3 []
           WF_three_entries entries_three_entries Hn).
Defined.

Lemma forEach_with_get_stops_after_the_oldest_witness :
  WF three_entries /\ entries three_entries = Some (("A", 10) :: [("B", 20); ("C", 30)]) /\
  [("B", 20); ("C", 30)] <> [] /\ lifetime three_entries = 0 /\
  exists c', forEach 3 (fun v k a => get 5 k ;;; ret (a ++ [k])%list) [] three_entries
               = Some (Return ["A"], c') /\
    entries c' = Some [("B", 20); ("C", 30); ("A", 10)].
Proof.
  assert ([("B", 20); ("C", 30)] <> []) as Hne by done.
  assert (lifetime three_entries = 0) as Hlt by reflexivity.
  split; [exact WF_three_entries|]. split; [exact entries_three_entries|].
  split; [exact Hne|]. split; [exact Hlt|].
  destruct (forEach_with_get_stops_after_the_oldest three_entries "A" 10 _ 5 2
              WF_three_entries entries_three_entries Hne Hlt) as (c' & Hrun & _ & He).
  exists c'. split; [exact Hrun|exact He].
Defined.

Lemma toString_joins_the_entries_witness :
  Rep three_entries
    [(0%nat, ("A", 10, 1)); (1%nat, ("B", 20, 2)); (2%nat, ("C", 30, 3))] /\
  toString (fun k => k) (fun v => if decide (v = 10) then "10" else "n") (fun _ => "")
    false three_entries
  = Some "A:10 < B:n < C:n".
Proof.
  split; [exact Rep_three_entries|].
  exact (toString_joins_the_entries (fun k => k)
           (fun v => if decide (v = 10) then "10" else "n") (fun _ => "")
           false three_entries _ Rep_three_entries).
Defined.

Lemma lru_js_calls_follow_the_lru_list_witness :
  WF_lru_js three_entries_lru_js /\
  LRUMap.entries three_entries_lru_js = Some [("A", 10); ("B", 20); ("C", 30)] /\
  all_fit_lru_js (LRUMap.limit three_entries_lru_js)
    [call_get 5 "A"; call_set 6 "D" 40; call_delete "C"]
    [("A", 10); ("B", 20); ("C", 30)] /\
  LRUMap.entries (run_lru_js [call_get 5 "A"; call_set 6 "D" 40; call_delete "C"]
                    three_entries_lru_js)
    = Some [("A", 10); ("D", 40)].
Proof.
  assert (all_fit_lru_js (LRUMap.limit three_entries_lru_js)
            [call_get 5 "A"; call_set 6 "D" 40; call_delete "C"]
            [("A", 10); ("B", 20); ("C", 30)]) as Hfit.
  { repeat split. left. by vm_compute. }
  split; [exact WF_three_entries_lru_js|]. split; [exact entries_three_entries_lru_js|].
  split; [exact Hfit|].
  exact (proj1 (proj2 (lru_js_calls_follow_the_lru_list _ three_entries_lru_js _
                         WF_three_entries_lru_js entries_three_entries_lru_js Hfit))).
Defined.

Lemma lru_js_get_returns_the_value_witness :
  WF_lru_js three_entries_lru_js /\
  LRUMap.entries three_entries_lru_js = Some [("A", 10); ("B", 20); ("C", 30)] /\
  exists m', LRUMap.get "A" three_entries_lru_js = (Return (Some 10), m') /\
    LRUMap.entries m' = Some [("B", 20); ("C", 30); ("A", 10)].
Proof.
  split; [exact WF_three_entries_lru_js|]. split; [exact entries_three_entries_lru_js|].
  destruct (lru_js_get_returns_the_value three_entries_lru_js _ "A"
              WF_three_entries_lru_js entries_three_entries_lru_js)
    as (m' & Hget & _ & He & _).
  exists m'. split; [exact Hget|exact He].
Defined.

Lemma lru_js_traversals_yield_the_entries_witness :
  WF_lru_js three_entries_lru_js /\
  LRUMap.entries three_entries_lru_js = Some [("A", 10); ("B", 20); ("C", 30)] /\
  LRUMap.keys three_entries_lru_js = Some ["A"; "B"; "C"].
Proof.
  split; [exact WF_three_entries_lru_js|]. split; [exact entries_three_entries_lru_js|].
  exact (proj1 (lru_js_traversals_yield_the_entries (fun k => k) (fun _ => "v")
                  three_entries_lru_js _ WF_three_entries_lru_js
                  entries_three_entries_lru_js)).
Defined.

Lemma lru_js_constructor_loads_the_entries_witness :
  NoDup [("x", 1); ("y", 2)].*1 /\ default 0 None < MAX_VALUE /\
  exists m, LRUMap.constructor None (Some [("x", 1); ("y", 2)]) = (Return tt, m) /\
    LRUMap.entries m = Some [("x", 1); ("y", 2)] /\ LRUMap.limit m = 2.
Proof.
  assert (NoDup [("x", 1); ("y", 2)].*1) as Hnd by compute_done.
  assert (default 0 None < MAX_VALUE) as Hmax by (by vm_compute).
  split; [exact Hnd|]. split; [exact Hmax|].
  pose proof (lru_js_constructor_loads_the_entries None [("x", 1); ("y", 2)] Hnd Hmax) as Hc.
  destruct (decide (1 <= default 0 None < Z.of_nat (length [("x", 1); ("y", 2)])))
    as [[Hd _]|_]; [by vm_compute in Hd|].
  destruct Hc as (m & Hc & _ & He & _ & Hl). exists m. by split_and!.
Defined.

Lemma WF_three_entries_part_000 : WF_part_000 (strip three_entries).
Proof. apply WF_strip, WF_three_entries. Qed.

Lemma entries_three_entries_part_000 :
  part_000_LRUMap.entries (strip three_entries) = Some [("A", 10); ("B", 20); ("C", 30)].
Proof. by vm_compute. Qed.

Lemma part_000_LRUMap_is_the_class_with_expiry_off_witness :
  lifetime three_entries = 0 /\
  follows eq (get 5 "A" three_entries) (part_000_LRUMap.get "A" (strip three_entries)) /\
  follows eq (set 6 "D" 40 three_entries) (part_000_LRUMap.set "D" 40 (strip three_entries)).
Proof.
  assert (lifetime three_entries = 0) as Hlt by reflexivity.
  split; [exact Hlt|].
  pose proof (part_000_LRUMap_is_the_class_with_expiry_off three_entries 5 "A" 10 []
                None None [] Hlt) as (_ & _ & Hget & _).
  pose proof (part_000_LRUMap_is_the_class_with_expiry_off three_entries 6 "D" 40 []
                None None [] Hlt) as (_ & _ & _ & Hset & _).
  split; [exact Hget|exact Hset].
Defined.

Lemma part_000_LRUMap_calls_follow_the_lru_list_witness :
  WF_part_000 (strip three_entries) /\
  part_000_LRUMap.entries (strip three_entries) = Some [("A", 10); ("B", 20); ("C", 30)] /\
  all_fit (part_000_LRUMap.limit (strip three_entries))
    [call_set 6 "D" 40; call_removeLRUItem; call_removeLRUItem; call_removeLRUItem;
     call_set 7 "E" 50]
    [("A", 10); ("B", 20); ("C", 30)] /\
  part_000_LRUMap.entries
    (run_part_000 [call_set 6 "D" 40; call_removeLRUItem; call_removeLRUItem;
                   call_removeLRUItem; call_set 7 "E" 50] (strip three_entries))
    = Some [("E", 50)].
Proof.
  assert (all_fit (part_000_LRUMap.limit (strip three_entries))
    [call_set 6 "D" 40; call_removeLRUItem; call_removeLRUItem; call_removeLRUItem;
     call_set 7 "E" 50]
    [("A", 10); ("B", 20); ("C", 30)]) as Hfit by (cbn; tauto).
  split; [exact WF_three_entries_part_000|]. split; [exact entries_three_entries_part_000|].
  split; [exact Hfit|].
  exact (proj1 (proj2 (part_000_LRUMap_calls_follow_the_lru_list _ (strip three_entries) _
                         WF_three_entries_part_000 entries_three_entries_part_000 Hfit))).
Defined.

Lemma part_000_LRUMap_get_throws_for_a_missing_key_witness :
  WF_part_000 (strip three_entries) /\
  part_000_LRUMap.entries (strip three_entries) = Some [("A", 10); ("B", 20); ("C", 30)] /\
  exists m', part_000_LRUMap.get "Z" (strip three_entries) = (Throw notFound, m') /\
    part_000_LRUMap.entries m' = Some [("A", 10); ("B", 20); ("C", 30)].
Proof.
  split; [exact WF_three_entries_part_000|]. split; [exact entries_three_entries_part_000|].
  destruct (part_000_LRUMap_get_throws_for_a_missing_key (strip three_entries) _ "Z"
              WF_three_entries_part_000 entries_three_entries_part_000)
    as (m' & Hget & _ & He & _).
  exists m'. split; [exact Hget|exact He].
Defined.

Lemma part_000_LRUMap_removeLRUItem_returns_the_oldest_witness :
  WF_part_000 (strip three_entries) /\
  part_000_LRUMap.entries (strip three_entries) = Some [("A", 10); ("B", 20); ("C", 30)] /\
  exists m', part_000_LRUMap.removeLRUItem (strip three_entries)
             = (Return (Some ("A", 10)), m') /\
    part_000_LRUMap.entries m' = Some [("B", 20); ("C", 30)].
Proof.
  split; [exact WF_three_entries_part_000|]. split; [exact entries_three_entries_part_000|].
  destruct (part_000_LRUMap_removeLRUItem_returns_the_oldest (strip three_entries) _
              WF_three_entries_part_000 entries_three_entries_part_000)
    as (m' & Hrem & _ & He & _).
  exists m'. split; [exact Hrem|exact He].
Defined.

Lemma part_000_LRUMap_constructor_loads_the_entries_witness :
  NoDup [("x", 1); ("y", 2); ("z", 3)].*1 /\ default 0 (Some 2) < MAX_VALUE /\
  (part_000_LRUMap.constructor (Some 2) (Some [("x", 1); ("y", 2); ("z", 3)])).1
  = Throw overflow.
Proof.
  assert (NoDup [("x", 1); ("y", 2); ("z", 3)].*1) as Hnd by compute_done.
  assert (default 0 (Some 2) < MAX_VALUE) as Hmax by (by vm_compute).
  split; [exact Hnd|]. split; [exact Hmax|].
  pose proof (part_000_LRUMap_constructor_loads_the_entries (Some 2)
                [("x", 1); ("y", 2); ("z", 3)] Hnd Hmax) as Hc.
  destruct (decide (1 <= default 0 (Some 2) < Z.of_nat (length [("x", 1); ("y", 2); ("z", 3)])))
    as [_|Hd]; [exact Hc|].
  exfalso. apply Hd. by vm_compute.
Defined.

Lemma part_000_LRUMap_traversals_yield_the_entries_witness :
  WF_part_000 (strip three_entries) /\
  part_000_LRUMap.entries (strip three_entries) = Some [("A", 10); ("B", 20); ("C", 30)] /\
  part_000_LRUMap.keys (strip three_entries) = Some ["A"; "B"; "C"] /\
  part_000_LRUMap.toJSON (strip three_entries)
  = Some (Return [Some ("A", 10); Some ("B", 20); Some ("C", 30)]).
Proof.
  split; [exact WF_three_entries_part_000|]. split; [exact entries_three_entries_part_000|].
  destruct (part_000_LRUMap_traversals_yield_the_entries (fun k => k) (fun _ => "v")
              (strip three_entries) _ WF_three_entries_part_000
              entries_three_entries_part_000) as (Hk & _ & Hj & _).
  split; [exact Hk|exact Hj].
Defined.

Lemma part_000_LRUMap_forEach_follows_the_class_witness :
  lifetime three_entries = 0 /\
  (forall (v : Z) (k : string) (a : list string),
     sim_strip eq (ret (a ++ [k])%list : M (@LRUCache string _ _ Z) (list string))
       (ret (a ++ [k])%list)) /\
  match forEach 3 (fun v k a => ret (a ++ [k])%list) [] three_entries,
        part_000_LRUMap.forEach 3 (fun v k a => ret (a ++ [k])%list) [] (strip three_entries)
  with
  | Some x, Some y => follows eq x y
  | None, None => True
  | _, _ => False
  end.
Proof.
  assert (lifetime three_entries = 0) as Hlt by reflexivity.
  assert (forall (v : Z) (k : string) (a : list string),
     sim_strip eq (ret (a ++ [k])%list : M (@LRUCache string _ _ Z) (list string))
       (ret (a ++ [k])%list)) as Hf.
  { intros v k a c Hc. split; [reflexivity|]. split; [exact Hc|reflexivity]. }
  split; [exact Hlt|]. split; [exact Hf|].
  exact (part_000_LRUMap_forEach_follows_the_class 3
           (fun v k a => ret (a ++ [k])%list) (fun v k a => ret (a ++ [k])%list)
           [] three_entries Hlt Hf).
Defined.
